(** * PixPlot network export: nearest-neighbour graph construction

    A shallow embedding of [pixplot_network_export.py]: the neighbour
    finder ([find_nearest_neighbors]), the edge assembly loop of
    [extract_network_data], the header computation of [write_csv] and the
    node table of [create_node_csv].

    The numeric operations of the script are NumPy's and SciPy's; they are an
    interface here ([Arith]), which the statements quantify over, with
    IEEE binary64 as its instance ([float64], Rocq's primitive floats,
    executable).  The script computes distances twice, by two routines:
    [distance.cdist] fills the matrix whose rows are sorted, and
    [distance.euclidean] computes the distance written on an edge, as the
    BLAS norm of the coordinate difference, after a check that the
    difference is finite.  [np.argsort] is a parameter of the model as
    well: the script calls it with the default [kind], for which NumPy
    promises a sorting permutation and nothing about ties. *)

From Stdlib Require Import String Ascii.
From Stdlib Require Import List ZArith Lia Bool.
From Stdlib Require Import Permutation Sorted.
From Stdlib Require Import PrimFloat.
Import Corelib.Init.Datatypes.
Import ListNotations.

Set Implicit Arguments.

(** ** Exceptions and the error monad *)

Inductive exn : Type :=
| ValueError   (* unpacking, array shapes, values that are not finite *)
| IndexError   (* subscript out of range *).

Inductive result (X : Type) : Type :=
| Ok (x : X)
| Raise (e : exn).

Arguments Ok {X} x.
Arguments Raise {X} e.

Definition bind {X Y : Type} (m : result X) (f : X -> result Y) : result Y :=
  match m with
  | Ok x => f x
  | Raise e => Raise e
  end.

Notation "x <- m ;; k" := (bind m (fun x => k))
  (at level 61, m at next level, right associativity).
Notation "' p <- m ;; k" := (bind m (fun x => let p := x in k))
  (at level 61, p pattern, m at next level, right associativity).

(** [for j, x in enumerate(l, start)]: the body may raise, the results are
    collected in order. *)
Fixpoint for_enumerate {X Y : Type} (f : nat -> X -> result Y)
         (start : nat) (l : list X) : result (list Y) :=
  match l with
  | [] => Ok []
  | x :: l' =>
      y <- f start x ;;
      ys <- for_enumerate f (S start) l' ;;
      Ok (y :: ys)
  end.

(** ** Python sequences *)

(** [l[i]] for a non-negative index. *)
Definition index {X : Type} (l : list X) (i : nat) : result X :=
  match nth_error l i with
  | Some x => Ok x
  | None => Raise IndexError
  end.

(** A slice bound, as [slice.indices] normalises it (step 1): a negative
    bound counts from the end, and both ends are clamped to [0, len]. *)
Definition norm_index (len i : Z) : Z :=
  if (i <? 0)%Z then Z.max 0 (i + len) else Z.min i len.

(** [l[start:stop]]. *)
Definition py_slice {X : Type} (l : list X) (start stop : Z) : list X :=
  let len := Z.of_nat (length l) in
  let lo := norm_index len start in
  let hi := norm_index len stop in
  firstn (Z.to_nat (hi - lo)) (skipn (Z.to_nat lo) l).

(** [l[:n]] for [n >= 0]. *)
Definition py_prefix {X : Type} (l : list X) (n : nat) : list X := firstn n l.

(** ** Paths *)

Definition slash : ascii := "/"%char.

Fixpoint after_last_slash (s cur : string) : string :=
  match s with
  | EmptyString => cur
  | String c r =>
      if Ascii.eqb c slash then after_last_slash r r else after_last_slash r cur
  end.

(** [os.path.basename] (posixpath): what follows the last slash. *)
Definition basename (s : string) : string := after_last_slash s s.

Fixpoint ends_with_slash (s : string) : bool :=
  match s with
  | EmptyString => false
  | String c EmptyString => Ascii.eqb c slash
  | String _ r => ends_with_slash r
  end.

Definition starts_with_slash (s : string) : bool :=
  match s with
  | String c _ => Ascii.eqb c slash
  | EmptyString => false
  end.

(** [os.path.join a b] (posixpath). *)
Definition path_join (a b : string) : string :=
  if starts_with_slash b then b
  else match a with
       | EmptyString => b
       | _ => if ends_with_slash a then (a ++ b)%string
              else (a ++ String slash b)%string
       end.

(** ** The numeric interface *)

Record Arith : Type := {
  fnum : Type;
  fzero : fnum;
  fone : fnum;
  feps : fnum;                       (* the literal 1e-5 *)
  fadd : fnum -> fnum -> fnum;
  fsub : fnum -> fnum -> fnum;
  fmul : fnum -> fnum -> fnum;
  fdiv : fnum -> fnum -> fnum;
  fsqrt : fnum -> fnum;
  fisfinite : fnum -> bool;          (* np.isfinite *)
  fnrm2 : list fnum -> fnum;         (* BLAS nrm2, the Euclidean norm of a vector *)
  fle : fnum -> fnum -> Prop         (* the order a sort of these numbers follows *)
}.

(** ** Edge records and log events *)

Record edge (A : Arith) : Type := {
  source : string;
  target : string;
  weight : fnum A;
  distance : fnum A;
  rank : nat;
  source_x : fnum A;
  source_y : fnum A;
  target_x : fnum A;
  target_y : fnum A
}.

Inductive log_event : Type :=
| WarnCountMismatch (n_positions n_images : nat).

Section Model.

Variable A : Arith.
Abbreviation num := (fnum A).
Definition point : Type := list num.

(** [np.argsort], default [kind]. *)
Variable argsort : list num -> list nat.

(** *** Arrays *)

(** A list of rows is a two-dimensional array when it has a row and all its
    rows have one length. *)
Definition is_matrix (a : list point) : bool :=
  match a with
  | [] => false
  | p :: rest => forallb (fun q => length q =? length p) rest
  end.

(** [np.array(positions)] for a list of lists of numbers: the empty list
    gives the empty one-dimensional array, rows of one length give a
    two-dimensional array, and rows of different lengths raise ValueError
    (NumPy 1.24 and later).  An array is kept as the list of its rows; the
    empty list is the one-dimensional array of no element. *)
Definition np_array (positions : list point) : result (list point) :=
  match positions with
  | [] => Ok []
  | _ => if is_matrix positions then Ok positions else Raise ValueError
  end.

(** *** Distances *)

Definition sq_diff (acc : num) (ab : num * num) : num :=
  fadd A acc (fmul A (fsub A (fst ab) (snd ab)) (fsub A (fst ab) (snd ab))).

(** An entry of [cdist(XA, XB, 'euclidean')]: the square root of the sum of
    the squared coordinate differences, accumulated in order. *)
Definition cdist_euclidean (u v : point) : num :=
  fsqrt A (fold_left sq_diff (combine u v) (fzero A)).

(** [scipy.spatial.distance.cdist XA XB 'euclidean']: ValueError unless both
    arguments are two-dimensional, with the same number of columns; entry
    (i, j) is the distance of [XA[i]] and [XB[j]]. *)
Definition cdist (XA XB : list point) : result (list (list num)) :=
  if is_matrix XA && is_matrix XB && (length (hd [] XA) =? length (hd [] XB))
  then Ok (map (fun u => map (fun v => cdist_euclidean u v) XB) XA)
  else Raise ValueError.

(** [u - v] on one-dimensional arrays: entry by entry; an array of one
    entry is broadcast, and other lengths that differ raise ValueError. *)
Definition np_subtract (u v : point) : result point :=
  if length u =? length v
  then Ok (map (fun ab => fsub A (fst ab) (snd ab)) (combine u v))
  else match u, v with
       | [a], _ => Ok (map (fun b => fsub A a b) v)
       | _, [b] => Ok (map (fun a => fsub A a b) u)
       | _, _ => Raise ValueError
       end.

(** [scipy.linalg.norm a] for a one-dimensional array of doubles: ValueError
    when an entry is infinite or not a number (the default [check_finite]),
    else the BLAS routine [nrm2]; the norm of the empty array is 0. *)
Definition norm (a : point) : result num :=
  if forallb (fisfinite A) a
  then Ok (match a with
           | [] => fzero A
           | _ => fnrm2 A a
           end)
  else Raise ValueError.

(** [scipy.spatial.distance.euclidean u v]: the norm of [u - v]. *)
Definition euclidean (u v : point) : result num :=
  u_v <- np_subtract u v ;;
  norm u_v.

(** *** find_nearest_neighbors *)

Definition find_nearest_neighbors (positions : list point) (n_neighbors : Z)
  : result (list (list nat)) :=
  dist_matrix <- cdist positions positions ;;
  Ok (map (fun i =>
             let closest_indices := argsort (nth i dist_matrix []) in
             py_slice closest_indices 1 (n_neighbors + 1))
          (seq 0 (length positions))).

(** *** extract_network_data, from the loaded lists on *)

(** [pos_x, pos_y = p] *)
Definition unpack2 (p : point) : result (num * num) :=
  match p with
  | [x; y] => Ok (x, y)
  | _ => Raise ValueError
  end.

Definition weight_of (distance_val : num) : num :=
  fdiv A (fone A) (fadd A distance_val (feps A)).

Section Rows.

Variable positions : list point.
Variable image_filenames : list string.

(** The body of the inner loop: one row per neighbour. *)
Definition make_row (base_filename : string) (pos_i : point)
           (pos_x pos_y : num) (j neighbor_idx : nat) : result (edge A) :=
  neighbor_path <- index image_filenames neighbor_idx ;;
  let neighbor_filename := basename neighbor_path in
  pos_n <- index positions neighbor_idx ;;
  distance_val <- euclidean pos_i pos_n ;;
  tx <- index pos_n 0 ;;
  ty <- index pos_n 1 ;;
  Ok {| source := base_filename;
        target := neighbor_filename;
        weight := weight_of distance_val;
        distance := distance_val;
        rank := j + 1;
        source_x := pos_x;
        source_y := pos_y;
        target_x := tx;
        target_y := ty |}.

(** The body of the outer loop: the rows of image [i]. *)
Definition rows_of_image (neighbors : list (list nat))
           (i : nat) (filename : string) : result (list (edge A)) :=
  let base_filename := basename filename in
  neighbor_indices <- index neighbors i ;;
  pos_i <- index positions i ;;
  '(pos_x, pos_y) <- unpack2 pos_i ;;
  for_enumerate (make_row base_filename pos_i pos_x pos_y) 0 neighbor_indices.

Definition network_rows (neighbors : list (list nat))
  : result (list (edge A)) :=
  blocks <- for_enumerate (rows_of_image neighbors) 0 image_filenames ;;
  Ok (concat blocks).

End Rows.

(** The part of [extract_network_data] that works on the two lists it has
    loaded: [image_filenames], the images of the image list, and
    [positions], the positions of the layout (a list of rows of doubles).
    Without an image the function returns None before it looks for a
    layout; else it makes the positions an array, checks the counts, finds
    the neighbours and runs the edge loop.  The result carries the warnings
    printed on the way.  (Locating and reading the files, and
    [load_metadata], are file-system work and stay outside.) *)
Definition extract_network_data (positions : list point)
           (image_filenames : list string) (n_neighbors : Z)
  : list log_event * result (option (list (edge A))) :=
  match image_filenames with
  | [] => ([], Ok None)
  | _ =>
      match np_array positions with
      | Raise e => ([], Raise e)
      | Ok positions =>
          let mismatch := negb (length positions =? length image_filenames) in
          let min_count := Nat.min (length positions) (length image_filenames) in
          let log :=
            if mismatch
            then [WarnCountMismatch (length positions) (length image_filenames)]
            else [] in
          let positions' :=
            if mismatch then py_prefix positions min_count else positions in
          let image_filenames' :=
            if mismatch then py_prefix image_filenames min_count
            else image_filenames in
          (log,
           neighbors <- find_nearest_neighbors positions' n_neighbors ;;
           network_data <- network_rows positions' image_filenames' neighbors ;;
           Ok (Some network_data))
      end
  end.

End Model.

(** ** Sorting permutations

    An executable sort of the indices of a row by key, by insertion from
    the right.  [before y x] says that a key [y] already placed stays ahead
    of the key [x] being inserted. *)

Section Insertion.

Variable X : Type.
Variable before : X -> X -> bool.

Fixpoint insert_key (xi : X * nat) (l : list (X * nat)) : list (X * nat) :=
  match l with
  | [] => [xi]
  | yj :: l' =>
      if before (fst yj) (fst xi) then yj :: insert_key xi l' else xi :: l
  end.

Definition sort_keys (l : list (X * nat)) : list (X * nat) :=
  fold_right insert_key [] l.

Definition insertion_argsort (row : list X) : list nat :=
  map snd (sort_keys (combine row (seq 0 (length row)))).

End Insertion.

(** ** IEEE binary64 *)

(** NumPy's order on doubles ([npy::double_tag::less]): NaNs sort last. *)
Definition np_less (a b : float) : bool :=
  PrimFloat.ltb a b || (negb (PrimFloat.eqb b b) && PrimFloat.eqb a a).

(** [np.isfinite] *)
Definition isfinite64 (x : float) : bool :=
  PrimFloat.ltb (PrimFloat.abs x) infinity.

(** The reference BLAS routine [dnrm2]: the norm as [scale * sqrt ssq], the
    entries scaled by the largest so that no square overflows or
    underflows.  Optimised libraries reach the same number by other
    routes and can differ from it in the last place: the statements on the
    written distance hold for every [fnrm2], and are evaluated with this
    one only where the routines agree. *)
Definition dnrm2_step (acc : float * float) (x : float) : float * float :=
  let '(scale, ssq) := acc in
  if PrimFloat.eqb x 0 then acc
  else
    let absxi := PrimFloat.abs x in
    if PrimFloat.ltb scale absxi
    then (absxi, (1 + ssq * ((scale / absxi) * (scale / absxi)))%float)
    else (scale, (ssq + (absxi / scale) * (absxi / scale))%float).

Definition dnrm2 (x : list float) : float :=
  match x with
  | [] => 0%float
  | [x1] => PrimFloat.abs x1
  | _ =>
      let '(scale, ssq) := fold_left dnrm2_step x (0%float, 1%float) in
      (scale * PrimFloat.sqrt ssq)%float
  end.

Definition float64 : Arith := {|
  fnum := float;
  fzero := 0%float;
  fone := 1%float;
  feps := 0x1.4f8b588e368f1p-17%float;
  fadd := PrimFloat.add;
  fsub := PrimFloat.sub;
  fmul := PrimFloat.mul;
  fdiv := PrimFloat.div;
  fsqrt := PrimFloat.sqrt;
  fisfinite := isfinite64;
  fnrm2 := dnrm2;
  fle := fun a b => np_less b a = false
|}.

(** A stable sort of doubles: equal keys keep the order of their indices.
    (NumPy's sort of a short row on a machine without vector
    instructions, an insertion sort, is one.) *)
Definition argsort_stable64 : list (fnum float64) -> list nat :=
  insertion_argsort np_less.

(** NumPy's vectorised sort of a row of at most four doubles, none a NaN
    (on x86-64 with AVX2 or AVX-512): the keys and their indices are
    loaded into lanes, padded with infinity, and go through a bitonic
    network of compare-exchange steps; a pair of lanes is exchanged when
    its keys are strictly out of order. *)
Definition compare_exchange (lanes : list (float * nat)) (ij : nat * nat)
  : list (float * nat) :=
  let pad := (infinity, 0) in
  let a := nth (fst ij) lanes pad in
  let b := nth (snd ij) lanes pad in
  if PrimFloat.ltb (fst b) (fst a)
  then map (fun l => if l =? fst ij then b else if l =? snd ij then a
                     else nth l lanes pad)
           (seq 0 (length lanes))
  else lanes.

Definition bitonic4 : list (nat * nat) :=
  [(0, 1); (2, 3); (0, 3); (1, 2); (0, 1); (2, 3)].

(** Longer rows and rows with a NaN take other paths of the library; the
    insertion sort stands for them here, and the network is only used on
    rows of four keys. *)
Definition argsort_network64 : list (fnum float64) -> list nat :=
  fun row =>
    if (length row <=? 4) && forallb (fun x => PrimFloat.eqb x x) row
    then
      let lanes := combine row (seq 0 (length row))
                   ++ repeat (infinity, 0) (4 - length row) in
      map snd (firstn (length row) (fold_left compare_exchange bitonic4 lanes))
    else insertion_argsort np_less row.

(** ** Dictionaries and tables *)

(** The cells of a row: strings, numbers of the layout, integer ranks. *)
Inductive value (A : Arith) : Type :=
| VStr (s : string)
| VNum (x : fnum A)
| VInt (n : nat).

Arguments VStr {A} s.
Arguments VNum {A} x.
Arguments VInt {A} n.

(** A Python [dict] with string keys: insertion-ordered, one entry per key. *)
Definition dict (V : Type) : Type := list (string * V).

Fixpoint dict_get {V : Type} (d : dict V) (k : string) : option V :=
  match d with
  | [] => None
  | (k', v) :: d' => if String.eqb k' k then Some v else dict_get d' k
  end.

Definition dict_mem {V : Type} (d : dict V) (k : string) : bool :=
  match dict_get d k with
  | Some _ => true
  | None => false
  end.

(** [d[k] = v]: an existing key keeps its place, a new one goes last. *)
Fixpoint dict_set {V : Type} (d : dict V) (k : string) (v : V) : dict V :=
  match d with
  | [] => [(k, v)]
  | (k', v') :: d' =>
      if String.eqb k' k then (k', v) :: d' else (k', v') :: dict_set d' k v
  end.

Definition dict_keys {V : Type} (d : dict V) : list string := map fst d.
Definition dict_values {V : Type} (d : dict V) : list V := map snd d.

(** [sorted] on strings: ascending code points. *)
Fixpoint insert_string (s : string) (l : list string) : list string :=
  match l with
  | [] => [s]
  | t :: l' => if String.leb s t then s :: l else t :: insert_string s l'
  end.

Definition sorted (l : list string) : list string :=
  fold_right insert_string [] l.

Definition mem_string (s : string) (l : list string) : bool :=
  existsb (String.eqb s) l.

(** What [csv.DictWriter] is given: the header and, per record, the cells in
    header order ([None] is the empty cell of a missing key). *)
Record table (A : Arith) : Type := {
  header : list string;
  records : list (list (option (value A)))
}.

Definition dict_writer {A : Arith} (fieldnames : list string)
           (rows : list (dict (value A))) : table A :=
  {| header := fieldnames;
     records := map (fun row => map (dict_get row) fieldnames) rows |}.

(** The row that the edge loop builds, as the dict literal lists its keys. *)
Definition row_dict {A : Arith} (e : edge A) : dict (value A) :=
  [ ("source", VStr (source e));
    ("target", VStr (target e));
    ("weight", VNum (weight e));
    ("distance", VNum (distance e));
    ("rank", VInt (rank e));
    ("source_x", VNum (source_x e));
    ("source_y", VNum (source_y e));
    ("target_x", VNum (target_x e));
    ("target_y", VNum (target_y e)) ]%string.

Section Exporter.

Variable A : Arith.
Abbreviation row := (dict (value A)).

(** The order in which a [set] of strings is iterated, given the elements
    put into it: Python fixes none (string hashes change from run to
    run). *)
Variable set_order : list string -> list string.

(** [os.path.exists] *)
Variable path_exists : string -> bool.

(** *** write_csv *)

Definition essential_cols : list string :=
  ["source"; "target"; "weight"; "distance"; "rank"]%string.

Definition edge_fieldnames (network_data : list row) : list string :=
  let fieldnames := flat_map (@dict_keys _) network_data in
  let others := filter (fun k => negb (mem_string k essential_cols)) fieldnames in
  essential_cols ++ sorted (set_order others).

(** The result and the file written, if one is.  (The [except] branch, a
    failure of the file system, is not modelled.) *)
Definition write_csv (network_data : list row) : bool * option (table A) :=
  match network_data with
  | [] => (false, None)
  | _ => (true, Some (dict_writer (edge_fieldnames network_data) network_data))
  end.

(** *** Thumbnail and original paths *)

Definition first_existing (candidates : list string) (default : string) : string :=
  match find path_exists candidates with
  | Some p => p
  | None => default
  end.

Definition get_thumbnail_path (data_dir filename : string) : string :=
  let b := basename filename in
  first_existing
    [ path_join (path_join data_dir "thumbs") b;
      path_join (path_join (path_join data_dir "data") "thumbs") b ]
    (path_join (path_join data_dir "thumbs") b).

Definition get_original_path (data_dir filename : string) : string :=
  let b := basename filename in
  first_existing
    [ path_join (path_join data_dir "originals") b;
      path_join (path_join (path_join data_dir "data") "originals") b ]
    (path_join (path_join data_dir "originals") b).

(** *** create_node_csv *)

Section Nodes.

Variable metadata : dict row.
Variable data_dir : string.
Variable include_thumbs : bool.

Definition new_node (id : string) (x y : fnum A) : row :=
  let node := [("id", VStr id); ("x", VNum x); ("y", VNum y)]%string in
  if include_thumbs
  then dict_set (dict_set node "thumb" (VStr (get_thumbnail_path data_dir id)))
                "original" (VStr (get_original_path data_dir id))
  else node.

(** [if id not in nodes: nodes[id] = {...}] *)
Definition add_node (nodes : dict row) (id : string) (x y : fnum A) : dict row :=
  if dict_mem nodes id then nodes else dict_set nodes id (new_node id x y).

(** The first loop, run on a dictionary [nodes]: the source of a row is
    looked at before its target. *)
Definition collect_from (nodes : dict row) (network_data : list (edge A))
  : dict row :=
  fold_left
    (fun nodes r =>
       let nodes := add_node nodes (source r) (source_x r) (source_y r) in
       add_node nodes (target r) (target_x r) (target_y r))
    network_data nodes.

(** [nodes = {}], then the first loop. *)
Definition collect_nodes (network_data : list (edge A)) : dict row :=
  collect_from [] network_data.

(** [for key, value in metadata[node_id].items(): ...] *)
Definition merge_metadata (node md : row) : row :=
  fold_left
    (fun node kv =>
       if String.eqb (fst kv) "filename" then node
       else dict_set node (fst kv) (snd kv))
    md node.

(** The second loop: the metadata of each node is merged into it. *)
Definition add_metadata (nodes : dict row) : dict row :=
  map (fun entry =>
         match dict_get metadata (fst entry) with
         | Some md => (fst entry, merge_metadata (snd entry) md)
         | None => entry
         end)
      nodes.

Definition build_nodes (network_data : list (edge A)) : dict row :=
  add_metadata (collect_nodes network_data).

Definition node_fieldnames (nodes : dict row) : list string :=
  let fieldnames := flat_map (@dict_keys _) (dict_values nodes) in
  let others := filter (fun k => negb (String.eqb k "id")) fieldnames in
  "id"%string :: sorted (set_order others).

Definition create_node_csv (network_data : list (edge A))
  : bool * option (table A) :=
  match network_data with
  | [] => (false, None)
  | _ =>
      let nodes := build_nodes network_data in
      (true, Some (dict_writer (node_fieldnames nodes) (dict_values nodes)))
  end.

(** *** main, after the extraction *)

(** The files that [main] writes for a list of edges: none when the list
    is empty, else the edge table and, if that went well, the node
    table. *)
Definition export_tables (network_data : list (edge A)) : list (table A) :=
  match network_data with
  | [] => []
  | _ =>
      match write_csv (map (@row_dict A) network_data) with
      | (true, Some edges_file) =>
          match create_node_csv network_data with
          | (_, Some nodes_file) => [edges_file; nodes_file]
          | (_, None) => [edges_file]
          end
      | (_, Some edges_file) => [edges_file]
      | (_, None) => []
      end
  end.

End Nodes.

End Exporter.

(** ** What the libraries promise *)

Section Contracts.

Variable A : Arith.
Variable argsort : list (fnum A) -> list nat.

Definition key (row : list (fnum A)) (i : nat) : fnum A := nth i row (fzero A).

(** [np.argsort] returns a permutation of the indices of its argument ... *)
Definition argsort_permutes : Prop :=
  forall row, Permutation (argsort row) (seq 0 (length row)).

(** ... along which the keys ascend. *)
Definition argsort_ascending (row : list (fnum A)) : Prop :=
  forall a b ia ib,
    a < b ->
    nth_error (argsort row) a = Some ia ->
    nth_error (argsort row) b = Some ib ->
    fle A (key row ia) (key row ib).

End Contracts.

(** The set iterator yields each element once, in some order. *)
Definition set_order_ok (set_order : list string -> list string) : Prop :=
  forall l, NoDup (set_order l) /\ forall k, In k (set_order l) <-> In k l.

(** The first place where an identifier occurs in the edge list, a row's
    source before its target. *)
Fixpoint first_occurrence {A : Arith} (network_data : list (edge A)) (id : string)
  : option (fnum A * fnum A) :=
  match network_data with
  | [] => None
  | r :: rest =>
      if String.eqb (source r) id then Some (source_x r, source_y r)
      else if String.eqb (target r) id then Some (target_x r, target_y r)
      else first_occurrence rest id
  end.

Definition occurs {A : Arith} (network_data : list (edge A)) (id : string) : Prop :=
  exists r, In r network_data /\ (source r = id \/ target r = id).

(** The scenario of the specification. *)
Definition four_points : list (point float64) :=
  [[0; 0]; [1; 0]; [0; 1]; [5; 5]]%float.

(** Pairs of a list, the earlier element first. *)
Fixpoint pairwise {X : Type} (r : X -> X -> bool) (l : list X) : bool :=
  match l with
  | [] => true
  | x :: l' => forallb (r x) l' && pairwise r l'
  end.

(** ** The distance rows and the edge list in closed form *)

(** Row [i] of the distance matrix. *)
Definition distance_row {A : Arith} (positions : list (point A)) (i : nat)
  : list (fnum A) :=
  map (fun v => cdist_euclidean (nth i positions []) v) positions.

(** The neighbour lists of a two-dimensional array: of the sorted indices of
    each row of the distance matrix, those at places 1 to k. *)
Definition neighbor_lists {A : Arith} (argsort : list (fnum A) -> list nat)
           (positions : list (point A)) (k : Z) : list (list nat) :=
  map (fun i => py_slice (argsort (distance_row positions i)) 1 (k + 1))
      (seq 0 (length positions)).

(** The coordinate differences of two rows of one array. *)
Definition difference {A : Arith} (u v : point A) : point A :=
  map (fun ab => fsub A (fst ab) (snd ab)) (combine u v).

(** No difference of two rows has an infinite coordinate or a NaN: no
    coordinate is infinite or a NaN, and no difference overflows. *)
Definition differences_finite {A : Arith} (positions : list (point A)) : bool :=
  forallb (fun u => forallb (fun v => forallb (fisfinite A) (difference u v))
                            positions)
          positions.

(** [g] over the elements of a list and their positions, counted from [start]. *)
Fixpoint map_enumerate {X Y : Type} (g : nat -> X -> Y) (start : nat) (l : list X)
  : list Y :=
  match l with
  | [] => []
  | x :: l' => g start x :: map_enumerate g (S start) l'
  end.

Section ClosedForm.

Variable A : Arith.
Variable positions : list (point A).
Variable image_filenames : list string.

Definition coord (p : point A) (c : nat) : fnum A := nth c p (fzero A).

(** The edge from image [i] to its neighbour of rank [j + 1]. *)
Definition edge_of (i j neighbor_idx : nat) : edge A :=
  let pos_i := nth i positions [] in
  let pos_n := nth neighbor_idx positions [] in
  {| source := basename (nth i image_filenames ""%string);
     target := basename (nth neighbor_idx image_filenames ""%string);
     weight := weight_of A (fnrm2 A (difference pos_i pos_n));
     distance := fnrm2 A (difference pos_i pos_n);
     rank := j + 1;
     source_x := coord pos_i 0;
     source_y := coord pos_i 1;
     target_x := coord pos_n 0;
     target_y := coord pos_n 1 |}.

(** The edges of image [i], in the order of its neighbour list. *)
Definition block_of (neighbors : list (list nat)) (i : nat) : list (edge A) :=
  map_enumerate (edge_of i) 0 (nth i neighbors []).

Definition blocks_of (neighbors : list (list nat)) : list (list (edge A)) :=
  map (block_of neighbors) (seq 0 (length image_filenames)).

End ClosedForm.

(** A point of the plane. *)
Definition is_2d {A : Arith} (p : point A) : Prop := length p = 2.

(** The common prefix that [extract_network_data] works on. *)
Definition min_count {A : Arith} (positions : list (point A))
           (image_filenames : list string) : nat :=
  Nat.min (length positions) (length image_filenames).

Definition common_positions {A : Arith} (positions : list (point A))
           (image_filenames : list string) : list (point A) :=
  firstn (min_count positions image_filenames) positions.

Definition common_filenames {A : Arith} (positions : list (point A))
           (image_filenames : list string) : list string :=
  firstn (min_count positions image_filenames) image_filenames.

(** The edge list that a run returns when no step of it raises. *)
Definition expected_edges {A : Arith} (argsort : list (fnum A) -> list nat)
           (positions : list (point A)) (image_filenames : list string) (k : Z)
  : list (edge A) :=
  let positions' := common_positions positions image_filenames in
  let image_filenames' := common_filenames positions image_filenames in
  concat (blocks_of positions' image_filenames'
                    (neighbor_lists argsort positions' k)).

(** Keys ascend, and of two tied keys the lower index comes first. *)
Definition key_order {X : Type} (le : X -> X -> Prop) (a b : X * nat) : Prop :=
  le (fst a) (fst b) /\ (le (fst b) (fst a) -> snd a < snd b).

(** A decidable form of [argsort_ascending] for one row of doubles and the
    permutation [p] returned for it. *)
Definition ascending64 (row : list float) (p : list nat) : bool :=
  pairwise (fun i j => negb (np_less (key float64 row j) (key float64 row i))) p.

(** Four points of which the last is at distance 1 from the first two. *)
Definition tie_points : list (point float64) :=
  [[1; 0]; [0; 1]; [0x1p-1; 0x1p-1]; [0; 0]]%float.

(** Three points on a line, 1e200 and more apart: the squares of their
    differences overflow, their differences do not. *)
Definition far_points : list (point float64) :=
  [[0; 0]; [0x1.f5aa543c31387p+665; 0]; [0x1.4e718d7d7625ap+665; 0]]%float.

Definition four_names : list string :=
  ["a.jpg"; "b.jpg"; "c.jpg"; "d.jpg"]%string.

(** The metadata of an identifier has no field of a given name. *)
Definition no_field {A : Arith} (metadata : dict (dict (value A)))
           (id field : string) : Prop :=
  forall md, dict_get metadata id = Some md -> ~ In field (dict_keys md).

(** A single edge, from a.jpg at (0,0) to b.jpg at (1,0). *)
Definition one_edge : edge float64 :=
  {| source := "a.jpg"; target := "b.jpg";
     weight := weight_of float64 1%float; distance := 1%float; rank := 1;
     source_x := 0%float; source_y := 0%float;
     target_x := 1%float; target_y := 0%float |}.

(** The orders of [sorted] on strings. *)
Definition leb_order (s t : string) : Prop := String.leb s t = true.
Definition ltb_order (s t : string) : Prop := String.ltb s t = true.

(** The columns of the rows that [extract_network_data] builds. *)
Definition edge_columns : list string :=
  ["source"; "target"; "weight"; "distance"; "rank";
   "source_x"; "source_y"; "target_x"; "target_y"]%string.

Definition coordinate_columns : list string :=
  ["source_x"; "source_y"; "target_x"; "target_y"]%string.

(** A valid iteration order: first insertion first. *)
Definition insertion_order (l : list string) : list string :=
  rev (nodup string_dec (rev l)).

(** Another one: the last occurrence of each element is kept. *)
Definition last_kept_order (l : list string) : list string :=
  nodup string_dec l.

(** ** The loaders of layouts and metadata *)

Section Loaders.

Variable A : Arith.

(** [os.path.exists] *)
Variable path_exists : string -> bool.

(** [glob.glob]: the paths that match a pattern. *)
Variable glob : string -> list string.

(** [json.load] of the file at a path that exists: its object, or [None]
    when opening or parsing raises. *)
Variable read_metadata_file : string -> option (dict (value A)).

(** *** get_layout_path *)

Definition layout_candidates (layout_dir plot_id layout_name : string)
  : list string :=
  [ path_join layout_dir (layout_name ++ "-" ++ plot_id ++ ".json.gz");
    path_join layout_dir (layout_name ++ "-" ++ plot_id ++ ".json") ]%string
  ++ glob (path_join layout_dir
                     ("umap-n_neighbors_*-min_dist_*-" ++ plot_id ++ ".json.gz")%string)
  ++ glob (path_join layout_dir
                     ("umap-n_neighbors_*-min_dist_*-" ++ plot_id ++ ".json")%string).

Definition get_layout_path (data_dir plot_id layout_name : string)
  : option string :=
  let layout_dir := path_join data_dir "layouts" in
  let layout_dir_alt := path_join (path_join data_dir "data") "layouts" in
  let found_dir :=
    if path_exists layout_dir then Some layout_dir
    else if path_exists layout_dir_alt then Some layout_dir_alt
         else None in
  match found_dir with
  | None => None
  | Some layout_dir =>
      find path_exists (layout_candidates layout_dir plot_id layout_name)
  end.

(** *** load_metadata *)

Definition metadata_dirs (data_dir : string) : list string :=
  [ path_join (path_join data_dir "metadata") "file";
    path_join (path_join (path_join data_dir "data") "metadata") "file" ]%string.

(** The entry of one image: the object of its file, and the empty object
    when the file is missing or cannot be read. *)
Definition metadata_entry (metadata_dir filename : string) : dict (value A) :=
  let base_filename := basename filename in
  let metadata_path := path_join metadata_dir (base_filename ++ ".json")%string in
  if path_exists metadata_path
  then match read_metadata_file metadata_path with
       | Some object => object
       | None => []
       end
  else [].

Definition load_metadata (data_dir : string) (image_filenames : list string)
  : dict (dict (value A)) :=
  match find path_exists (metadata_dirs data_dir) with
  | None => []
  | Some metadata_dir =>
      fold_left
        (fun metadata filename =>
           dict_set metadata (basename filename)
                    (metadata_entry metadata_dir filename))
        image_filenames []
  end.

End Loaders.

(** ** Writing rows *)

(** [csv.DictWriter] raises ValueError on a row that has a key outside the
    field names; this is the test it makes. *)
Definition writer_accepts {V : Type} (fieldnames : list string) (r : dict V)
  : bool :=
  forallb (fun k => mem_string k fieldnames) (dict_keys r).

(** ** Further notions used in the statements *)

(** The identifiers of an edge list in the order the node loop meets them. *)
Definition endpoints {A : Arith} (network_data : list (edge A)) : list string :=
  flat_map (fun r => [source r; target r]) network_data.

(** The elements of [l] that are not in [seen], each at its first place. *)
Fixpoint first_appearances (seen l : list string) : list string :=
  match l with
  | [] => []
  | x :: l' =>
      if mem_string x seen then first_appearances seen l'
      else x :: first_appearances (seen ++ [x]) l'
  end.

(** Every point is strictly closer to itself than to any other point. *)
Definition strictly_closest_to_itself {A : Arith} (positions : list (point A))
  : Prop :=
  forall i j,
    i < length positions -> j < length positions -> j <> i ->
    ~ fle A (cdist_euclidean (nth i positions []) (nth j positions []))
            (cdist_euclidean (nth i positions []) (nth i positions [])).

Fixpoint has_slash (s : string) : bool :=
  match s with
  | EmptyString => false
  | String c r => Ascii.eqb c slash || has_slash r
  end.

(** The test, for four indices in this order, that they may be what a sort
    returns for the row of (0,0), and that the indices 1 and 2 are then at
    the places 1 and 2. *)
Definition row_0_check (a b c d : nat) : bool :=
  implb (negb (a =? b) && negb (a =? c) && negb (a =? d)
         && negb (b =? c) && negb (b =? d) && negb (c =? d)
         && ascending64 (distance_row four_points 0) [a; b; c; d])
        (((b =? 1) && (c =? 2)) || ((b =? 2) && (c =? 1))).

(** ** Slices *)

Ltac slice_bounds :=
  unfold norm_index in *;
  repeat match goal with
         | |- context [(?a <? ?b)%Z] => destruct (Z.ltb_spec a b)
         | H : context [(?a <? ?b)%Z] |- _ => destruct (Z.ltb_spec a b)
         end;
  try lia.

Lemma length_py_slice_from_1 {X : Type} (l : list X) (k : Z) :
  (0 <= k)%Z ->
  Z.of_nat (length (py_slice l 1 (k + 1))) =
  Z.max 0 (Z.min k (Z.of_nat (length l) - 1)).
Proof.
  intros Hk. unfold py_slice.
  rewrite length_firstn, length_skipn. slice_bounds.
Qed.

Lemma py_slice_empty {X : Type} (l : list X) (k : Z) :
  k = 0%Z \/ k = (-1)%Z -> py_slice l 1 (k + 1) = [].
Proof.
  intros Hk. apply length_zero_iff_nil.
  unfold py_slice. rewrite length_firstn, length_skipn.
  destruct Hk; subst k; slice_bounds.
Qed.

Lemma length_py_slice_minus_2 {X : Type} (l : list X) :
  2 <= length l -> length (py_slice l 1 (-2 + 1)) = length l - 2.
Proof.
  intros Hl. unfold py_slice. rewrite length_firstn, length_skipn.
  slice_bounds.
Qed.

Lemma nth_error_py_slice_from_1 {X : Type} (l : list X) (k : Z) (a : nat) (x : X) :
  nth_error (py_slice l 1 (k + 1)) a = Some x -> nth_error l (S a) = Some x.
Proof.
  unfold py_slice. intros H.
  rewrite nth_error_firstn in H.
  destruct (Nat.ltb a _); [ | discriminate ].
  rewrite nth_error_skipn in H.
  destruct l as [ | y l ].
  - destruct (Z.to_nat _ + a); discriminate.
  - replace (Z.to_nat (norm_index (Z.of_nat (length (y :: l))) 1)) with 1 in H
      by (simpl length; slice_bounds).
    exact H.
Qed.

(** ** The insertion sort permutes the indices *)

Lemma map_snd_combine {X Y : Type} (l : list X) (l' : list Y) :
  length l = length l' -> map snd (combine l l') = l'.
Proof.
  revert l'. induction l as [ | x l IH ]; intros [ | y l' ] H;
    simpl in *; try discriminate; [ reflexivity | ].
  f_equal. apply IH. lia.
Qed.

Section InsertionPermutes.

Variable X : Type.
Variable before : X -> X -> bool.

Lemma insert_key_perm (xi : X * nat) (l : list (X * nat)) :
  Permutation (insert_key before xi l) (xi :: l).
Proof.
  induction l as [ | yj l IH ]; simpl.
  - apply Permutation_refl.
  - destruct (before (fst yj) (fst xi)).
    + eapply perm_trans; [ apply perm_skip, IH | apply perm_swap ].
    + apply Permutation_refl.
Qed.

Lemma sort_keys_perm (l : list (X * nat)) : Permutation (sort_keys before l) l.
Proof.
  induction l as [ | xi l IH ]; simpl.
  - apply perm_nil.
  - eapply perm_trans; [ apply insert_key_perm | apply perm_skip, IH ].
Qed.

Lemma insertion_argsort_perm (row : list X) :
  Permutation (insertion_argsort before row) (seq 0 (length row)).
Proof.
  unfold insertion_argsort.
  rewrite <- (map_snd_combine row (seq 0 (length row))) at 2
    by (now rewrite length_seq).
  apply Permutation_map, sort_keys_perm.
Qed.

End InsertionPermutes.

Lemma argsort_stable64_permutes : argsort_permutes float64 argsort_stable64.
Proof. intros row. apply insertion_argsort_perm. Qed.

(** ** Arrays *)

Section Arrays.

Variable A : Arith.

Lemma is_matrix_rows (a : list (point A)) (p : point A) :
  is_matrix a = true -> In p a -> length p = length (hd [] a).
Proof.
  destruct a as [ | q rest ]; [ discriminate | ]. simpl.
  intros H [ <- | Hp ]; [ reflexivity | ].
  rewrite forallb_forall in H. now apply Nat.eqb_eq, H.
Qed.

Lemma is_matrix_length (a : list (point A)) :
  is_matrix a = true -> 1 <= length a.
Proof. destruct a; [ discriminate | simpl; lia ]. Qed.

Lemma is_matrix_2d (a : list (point A)) :
  a <> [] -> Forall is_2d a -> is_matrix a = true.
Proof.
  destruct a as [ | q rest ]; [ contradiction | ]. intros _ H. simpl.
  inversion H as [ | ? ? Hq Hrest ]; subst.
  apply forallb_forall. intros p Hp. rewrite Forall_forall in Hrest.
  apply Nat.eqb_eq. unfold is_2d in *. rewrite Hq. now apply Hrest.
Qed.

Lemma is_matrix_firstn (a : list (point A)) (m : nat) :
  is_matrix a = true -> 1 <= m -> is_matrix (firstn m a) = true.
Proof.
  destruct a as [ | q rest ]; [ discriminate | ].
  destruct m as [ | m ]; [ lia | ]. simpl. intros H _.
  rewrite forallb_forall in *. intros p Hp. apply H.
  rewrite <- (firstn_skipn m rest). apply in_or_app. now left.
Qed.

Lemma np_array_matrix (a : list (point A)) :
  is_matrix a = true -> np_array a = Ok a.
Proof. destruct a; [ discriminate | ]. intros H. unfold np_array. now rewrite H. Qed.

Lemma np_array_ragged (a : list (point A)) :
  a <> [] -> is_matrix a = false -> np_array a = Raise ValueError.
Proof. destruct a; [ contradiction | ]. intros _ H. unfold np_array. now rewrite H. Qed.

Lemma np_array_inv (a b : list (point A)) :
  np_array a = Ok b -> b = a /\ (a = [] \/ is_matrix a = true).
Proof.
  destruct a as [ | p rest ].
  - intros H. injection H as <-. split; [ reflexivity | now left ].
  - unfold np_array. destruct (is_matrix (p :: rest)) eqn:E; [ | discriminate ].
    intros H. injection H as <-. split; [ reflexivity | now right ].
Qed.

End Arrays.

(** ** The neighbour finder *)

Section Finder.

Variable A : Arith.
Variable argsort : list (fnum A) -> list nat.

Lemma length_distance_row (positions : list (point A)) (i : nat) :
  length (distance_row positions i) = length positions.
Proof. unfold distance_row. apply length_map. Qed.

Lemma key_distance_row (positions : list (point A)) (i j : nat) :
  j < length positions ->
  key A (distance_row positions i) j =
  cdist_euclidean (nth i positions []) (nth j positions []).
Proof.
  intros Hj. unfold key, distance_row.
  apply nth_error_nth. rewrite nth_error_map.
  now rewrite (nth_error_nth' positions [] Hj).
Qed.

Lemma cdist_matrix (positions : list (point A)) :
  is_matrix positions = true ->
  cdist positions positions
  = Ok (map (fun u => map (fun v => cdist_euclidean u v) positions) positions).
Proof. intros H. unfold cdist. now rewrite H, Nat.eqb_refl. Qed.

Lemma cdist_not_matrix (positions : list (point A)) :
  is_matrix positions = false -> cdist positions positions = Raise ValueError.
Proof. intros H. unfold cdist. now rewrite H. Qed.

(** On a two-dimensional array the finder returns the neighbour lists ... *)
Lemma find_nearest_neighbors_ok (positions : list (point A)) (k : Z) :
  is_matrix positions = true ->
  find_nearest_neighbors argsort positions k
  = Ok (neighbor_lists argsort positions k).
Proof.
  intros H. unfold find_nearest_neighbors. rewrite (cdist_matrix positions H).
  cbn [bind]. f_equal. unfold neighbor_lists.
  apply map_ext_in. intros i Hi. apply in_seq in Hi.
  f_equal. f_equal. unfold distance_row.
  apply nth_error_nth. rewrite nth_error_map.
  now rewrite (nth_error_nth' positions [] (proj2 Hi)).
Qed.

(** ... and on anything else [cdist] raises ValueError. *)
Lemma find_nearest_neighbors_raises (positions : list (point A)) (k : Z) :
  is_matrix positions = false ->
  find_nearest_neighbors argsort positions k = Raise ValueError.
Proof.
  intros H. unfold find_nearest_neighbors. now rewrite (cdist_not_matrix positions H).
Qed.

Lemma find_nearest_neighbors_inv (positions : list (point A)) (k : Z)
      (neighbors : list (list nat)) :
  find_nearest_neighbors argsort positions k = Ok neighbors ->
  is_matrix positions = true /\ neighbors = neighbor_lists argsort positions k.
Proof.
  destruct (is_matrix positions) eqn:E.
  - rewrite (find_nearest_neighbors_ok positions k E). intros H. injection H as <-. now split.
  - rewrite (find_nearest_neighbors_raises positions k E). discriminate.
Qed.

Lemma length_neighbor_lists (positions : list (point A)) (k : Z) :
  length (neighbor_lists argsort positions k) = length positions.
Proof. unfold neighbor_lists. now rewrite length_map, length_seq. Qed.

Lemma nth_error_neighbor_lists (positions : list (point A)) (k : Z) (i : nat) :
  i < length positions ->
  nth_error (neighbor_lists argsort positions k) i =
  Some (py_slice (argsort (distance_row positions i)) 1 (k + 1)).
Proof.
  intros Hi. unfold neighbor_lists.
  rewrite nth_error_map, nth_error_seq.
  destruct (Nat.ltb_spec i (length positions)); [ | lia ].
  reflexivity.
Qed.

Lemma nth_neighbor_lists (positions : list (point A)) (k : Z) (i : nat) :
  i < length positions ->
  nth i (neighbor_lists argsort positions k) [] =
  py_slice (argsort (distance_row positions i)) 1 (k + 1).
Proof.
  intros Hi. apply nth_error_nth. now apply nth_error_neighbor_lists.
Qed.

Lemma In_neighbor_lists (positions : list (point A)) (k : Z) (l : list nat) :
  In l (neighbor_lists argsort positions k) ->
  exists i, i < length positions /\
            l = py_slice (argsort (distance_row positions i)) 1 (k + 1).
Proof.
  intros H. apply In_nth_error in H. destruct H as [i Hi].
  assert (Hlt : i < length positions).
  { rewrite <- (length_neighbor_lists positions k).
    apply nth_error_Some. congruence. }
  exists i. split; [ exact Hlt | ].
  rewrite nth_error_neighbor_lists in Hi by exact Hlt. congruence.
Qed.

Hypothesis Hperm : argsort_permutes A argsort.

Lemma length_argsort_row (positions : list (point A)) (i : nat) :
  length (argsort (distance_row positions i)) = length positions.
Proof.
  rewrite (Permutation_length (Hperm _)), length_seq.
  apply length_distance_row.
Qed.

Lemma argsort_row_in_range (positions : list (point A)) (i a j : nat) :
  nth_error (argsort (distance_row positions i)) a = Some j ->
  j < length positions.
Proof.
  intros H. apply nth_error_In in H.
  apply (Permutation_in _ (Hperm _)) in H.
  apply in_seq in H. rewrite length_distance_row in H. lia.
Qed.

Lemma neighbor_in_range (positions : list (point A)) (k : Z) (l : list nat) (j : nat) :
  In l (neighbor_lists argsort positions k) -> In j l ->
  j < length positions.
Proof.
  intros Hl Hj. apply In_neighbor_lists in Hl.
  destruct Hl as (i & _ & ->).
  apply In_nth_error in Hj. destruct Hj as [a Ha].
  apply nth_error_py_slice_from_1 in Ha.
  eapply argsort_row_in_range; eassumption.
Qed.

End Finder.

Lemma length_map_enumerate {X Y : Type} (g : nat -> X -> Y) (start : nat) (l : list X) :
  length (map_enumerate g start l) = length l.
Proof.
  revert start. induction l as [ | x l IH ]; intros start; simpl;
    [ reflexivity | now rewrite IH ].
Qed.

Lemma nth_error_map_enumerate {X Y : Type} (g : nat -> X -> Y) (start : nat)
      (l : list X) (j : nat) :
  nth_error (map_enumerate g start l) j = option_map (g (start + j)) (nth_error l j).
Proof.
  revert start j. induction l as [ | x l IH ]; intros start [ | j ]; simpl;
    try reflexivity.
  - now rewrite Nat.add_0_r.
  - rewrite IH. now rewrite Nat.add_succ_r.
Qed.

Lemma In_map_enumerate {X Y : Type} (g : nat -> X -> Y) (start : nat)
      (l : list X) (y : Y) :
  In y (map_enumerate g start l) ->
  exists j x, nth_error l j = Some x /\ y = g (start + j) x.
Proof.
  intros H. apply In_nth_error in H. destruct H as [j Hj].
  rewrite nth_error_map_enumerate in Hj.
  destruct (nth_error l j) as [ x | ] eqn:E; [ | discriminate ].
  exists j, x. split; [ exact E | ]. simpl in Hj. congruence.
Qed.

Lemma map_enumerate_const {X Y : Type} (h : nat -> Y) (start : nat) (l : list X) :
  map_enumerate (fun i _ => h i) start l = map h (seq start (length l)).
Proof.
  revert start. induction l as [ | x l IH ]; intros start; simpl;
    [ reflexivity | now rewrite IH ].
Qed.

Lemma for_enumerate_ok {X Y : Type} (f : nat -> X -> result Y) (g : nat -> X -> Y)
      (start : nat) (l : list X) :
  (forall j x, nth_error l j = Some x -> f (start + j) x = Ok (g (start + j) x)) ->
  for_enumerate f start l = Ok (map_enumerate g start l).
Proof.
  revert start. induction l as [ | x l IH ]; intros start H; simpl.
  - reflexivity.
  - pose proof (H 0 x eq_refl) as H0. rewrite Nat.add_0_r in H0.
    rewrite H0. simpl. rewrite IH; [ reflexivity | ].
    intros j y Hj. rewrite Nat.add_succ_l, <- Nat.add_succ_r. now apply H.
Qed.


Lemma index_nth {X : Type} (l : list X) (i : nat) (d : X) :
  i < length l -> index l i = Ok (nth i l d).
Proof.
  intros Hi. unfold index. now rewrite (nth_error_nth' l d Hi).
Qed.

Lemma for_enumerate_inv {X Y : Type} (f : nat -> X -> result Y)
      (start : nat) (l : list X) (ys : list Y) :
  for_enumerate f start l = Ok ys ->
  length ys = length l /\
  forall j x, nth_error l j = Some x ->
    exists y, f (start + j) x = Ok y /\ nth_error ys j = Some y.
Proof.
  revert start ys. induction l as [ | a l IH ]; intros start ys; simpl.
  - intros H. injection H as <-. split; [ reflexivity | ].
    intros [ | j ] x; discriminate.
  - destruct (f start a) as [ y | e ] eqn:E; [ | discriminate ]. cbn [bind].
    destruct (for_enumerate f (S start) l) as [ ys' | e ] eqn:E'; [ | discriminate ].
    cbn [bind]. intros H. injection H as <-.
    destruct (IH _ _ E') as [Hl Hall]. split; [ simpl; lia | ].
    intros [ | j ] x Hx; simpl in Hx.
    + injection Hx as <-. exists y. rewrite Nat.add_0_r. now split.
    + destruct (Hall j x Hx) as (y' & Hy & Hn). exists y'.
      rewrite Nat.add_succ_r. now split.
Qed.

Lemma In_for_enumerate {X Y : Type} (f : nat -> X -> result Y)
      (start : nat) (l : list X) (ys : list Y) (y : Y) :
  for_enumerate f start l = Ok ys -> In y ys ->
  exists j x, nth_error l j = Some x /\ f (start + j) x = Ok y.
Proof.
  intros H Hy. apply for_enumerate_inv in H. destruct H as [Hl Hall].
  apply In_nth_error in Hy. destruct Hy as [j Hj].
  assert (Hlt : j < length l).
  { rewrite <- Hl. apply nth_error_Some. congruence. }
  destruct (nth_error l j) as [ x | ] eqn:E;
    [ | apply nth_error_None in E; lia ].
  destruct (Hall j x E) as (y' & Hf & Hn).
  exists j, x. split; [ exact E | congruence ].
Qed.

Lemma for_enumerate_raise_inv {X Y : Type} (f : nat -> X -> result Y)
      (start : nat) (l : list X) (e : exn) :
  for_enumerate f start l = Raise e ->
  exists j x, nth_error l j = Some x /\ f (start + j) x = Raise e.
Proof.
  revert start. induction l as [ | a l IH ]; intros start; simpl; [ discriminate | ].
  destruct (f start a) as [ y | e' ] eqn:E; cbn [bind].
  - destruct (for_enumerate f (S start) l) as [ ys' | e' ] eqn:E'; cbn [bind];
      [ discriminate | ].
    intros H. injection H as ->.
    destruct (IH _ E') as (j & x & Hx & Hf).
    exists (S j), x. split; [ exact Hx | ]. now rewrite Nat.add_succ_r.
  - intros H. injection H as ->. exists 0, a. split; [ reflexivity | ].
    now rewrite Nat.add_0_r.
Qed.

Lemma index_inv {X : Type} (l : list X) (i : nat) (x : X) :
  index l i = Ok x -> nth_error l i = Some x.
Proof. unfold index. destruct (nth_error l i); congruence. Qed.

Lemma index_raises {X : Type} (l : list X) (i : nat) (e : exn) :
  index l i = Raise e -> length l <= i.
Proof.
  unfold index. destruct (nth_error l i) eqn:E; [ discriminate | ].
  intros _. now apply nth_error_None.
Qed.

(** ** The written distance *)

Section Distance.

Variable A : Arith.

Lemma difference_2d (x y x' y' : fnum A) :
  difference [x; y] [x'; y'] = [fsub A x x'; fsub A y y'].
Proof. reflexivity. Qed.

Lemma euclidean_2d (u v : point A) :
  is_2d u -> is_2d v ->
  euclidean u v
  = if forallb (fisfinite A) (difference u v)
    then Ok (fnrm2 A (difference u v)) else Raise ValueError.
Proof.
  unfold is_2d. intros Hu Hv.
  destruct u as [ | x [ | y [ | z u ] ] ]; try discriminate.
  destruct v as [ | x' [ | y' [ | z' v ] ] ]; try discriminate.
  reflexivity.
Qed.

(** [euclidean] raises nothing but ValueError. *)
Lemma euclidean_raises (u v : point A) (e : exn) :
  euclidean u v = Raise e -> e = ValueError.
Proof.
  unfold euclidean, np_subtract, norm.
  destruct (length u =? length v); cbn [bind].
  - destruct (forallb _ _); congruence.
  - destruct u as [ | a [ | a' u ] ]; destruct v as [ | b [ | b' v ] ]; cbn [bind];
      try congruence;
      match goal with |- context [forallb ?f ?l] => destruct (forallb f l) end;
      congruence.
Qed.

(** A distance is computed between rows of one length, or with a row of one
    coordinate. *)
Lemma euclidean_lengths (u v : point A) (d : fnum A) :
  euclidean u v = Ok d ->
  length u = length v \/ length u = 1 \/ length v = 1.
Proof.
  unfold euclidean, np_subtract.
  destruct (Nat.eqb_spec (length u) (length v)) as [ E | E ]; [ now left | ].
  destruct u as [ | a [ | a' u ] ]; destruct v as [ | b [ | b' v ] ]; cbn [bind];
    try discriminate; intros _; simpl; auto.
Qed.

Lemma differences_finite_nth (positions : list (point A)) (i n : nat) :
  differences_finite positions = true ->
  i < length positions -> n < length positions ->
  forallb (fisfinite A) (difference (nth i positions []) (nth n positions [])) = true.
Proof.
  intros H Hi Hn. unfold differences_finite in H. rewrite forallb_forall in H.
  specialize (H (nth i positions []) (nth_In _ _ Hi)).
  rewrite forallb_forall in H. apply H, nth_In, Hn.
Qed.

Lemma differences_finite_firstn (positions : list (point A)) (m : nat) :
  differences_finite positions = true ->
  differences_finite (firstn m positions) = true.
Proof.
  intros H. unfold differences_finite in *. rewrite forallb_forall in *.
  assert (Hin : forall p, In p (firstn m positions) -> In p positions).
  { intros p Hp. rewrite <- (firstn_skipn m positions). apply in_or_app. now left. }
  intros u Hu. specialize (H u (Hin u Hu)). rewrite forallb_forall in *.
  intros v Hv. apply H, Hin, Hv.
Qed.

End Distance.

(** ** The edge loop *)

Section Assembly.

Variable A : Arith.
Variable positions : list (point A).
Variable image_filenames : list string.

Hypothesis H2d : Forall is_2d positions.
Hypothesis Hlen : length positions = length image_filenames.
Hypothesis Hfinite : differences_finite positions = true.

Lemma nth_is_2d (i : nat) :
  i < length positions ->
  nth i positions [] = [coord (nth i positions []) 0; coord (nth i positions []) 1].
Proof.
  intros Hi.
  assert (H : is_2d (nth i positions [])).
  { rewrite Forall_forall in H2d. apply H2d, nth_In, Hi. }
  unfold is_2d in H.
  destruct (nth i positions []) as [ | x [ | y [ | z p ] ] ]; try discriminate.
  reflexivity.
Qed.

Lemma unpack2_nth (i : nat) :
  i < length positions ->
  unpack2 (nth i positions [])
  = Ok (coord (nth i positions []) 0, coord (nth i positions []) 1).
Proof. intros Hi. now rewrite (nth_is_2d Hi) at 1. Qed.

Lemma make_row_ok (i j neighbor_idx : nat) :
  i < length positions ->
  neighbor_idx < length positions ->
  make_row positions image_filenames
           (basename (nth i image_filenames ""%string)) (nth i positions [])
           (coord (nth i positions []) 0) (coord (nth i positions []) 1)
           j neighbor_idx
  = Ok (edge_of positions image_filenames i j neighbor_idx).
Proof.
  intros Hi Hn. unfold make_row.
  rewrite (index_nth image_filenames ""%string) by lia. cbn [bind].
  rewrite (index_nth positions []) by lia. cbn [bind].
  rewrite euclidean_2d
    by (rewrite Forall_forall in H2d; apply H2d, nth_In; assumption).
  rewrite (differences_finite_nth _ Hfinite Hi Hn). cbn [bind].
  rewrite (index_nth (nth neighbor_idx positions []) (fzero A))
    by (rewrite (nth_is_2d Hn); simpl; lia).
  cbn [bind].
  rewrite (index_nth (nth neighbor_idx positions []) (fzero A))
    by (rewrite (nth_is_2d Hn); simpl; lia).
  reflexivity.
Qed.

Lemma rows_of_image_ok (neighbors : list (list nat)) (i : nat) :
  i < length positions ->
  length neighbors = length positions ->
  Forall (fun j => j < length positions) (nth i neighbors []) ->
  rows_of_image positions image_filenames neighbors i (nth i image_filenames ""%string)
  = Ok (block_of positions image_filenames neighbors i).
Proof.
  intros Hi Hn Hrange. unfold rows_of_image.
  rewrite (index_nth neighbors []) by lia. cbn [bind].
  rewrite (index_nth positions []) by lia. cbn [bind].
  rewrite (unpack2_nth Hi). cbn [bind].
  apply for_enumerate_ok. intros j x Hj. simpl.
  apply make_row_ok; [ exact Hi | ].
  rewrite Forall_forall in Hrange. apply Hrange.
  eapply nth_error_In; eassumption.
Qed.

Lemma network_rows_ok (neighbors : list (list nat)) :
  length neighbors = length positions ->
  Forall (Forall (fun j => j < length positions)) neighbors ->
  network_rows positions image_filenames neighbors
  = Ok (concat (blocks_of positions image_filenames neighbors)).
Proof.
  intros Hn Hrange. unfold network_rows, blocks_of.
  rewrite (for_enumerate_ok _ (fun i _ => block_of positions image_filenames neighbors i)).
  - cbn [bind]. now rewrite map_enumerate_const.
  - intros i x Hx. simpl.
    assert (Hi : i < length positions).
    { rewrite Hlen. apply nth_error_Some. congruence. }
    rewrite <- (nth_error_nth image_filenames i ""%string Hx).
    apply rows_of_image_ok; [ exact Hi | exact Hn | ].
    rewrite Forall_forall in Hrange. apply Hrange, nth_In. lia.
Qed.

End Assembly.

(** What a row that was built tells about the lists it was built from. *)
Lemma make_row_inv (A : Arith) (positions : list (point A))
      (image_filenames : list string) (base_filename : string) (pos_i : point A)
      (pos_x pos_y : fnum A) (j neighbor_idx : nat) (e : edge A) :
  make_row positions image_filenames base_filename pos_i pos_x pos_y j neighbor_idx
  = Ok e ->
  exists neighbor_path pos_n,
    nth_error image_filenames neighbor_idx = Some neighbor_path /\
    nth_error positions neighbor_idx = Some pos_n /\
    euclidean pos_i pos_n = Ok (distance e) /\
    nth_error pos_n 0 = Some (target_x e) /\
    nth_error pos_n 1 = Some (target_y e) /\
    source e = base_filename /\
    target e = basename neighbor_path /\
    weight e = weight_of A (distance e) /\
    rank e = j + 1 /\
    source_x e = pos_x /\
    source_y e = pos_y.
Proof.
  unfold make_row.
  destruct (index image_filenames neighbor_idx) as [ neighbor_path | ] eqn:Ef;
    [ | discriminate ].
  cbn [bind].
  destruct (index positions neighbor_idx) as [ pos_n | ] eqn:Ep; [ | discriminate ].
  cbn [bind].
  destruct (euclidean pos_i pos_n) as [ d | ] eqn:Ed; [ | discriminate ].
  cbn [bind].
  destruct (index pos_n 0) as [ tx | ] eqn:Ex; [ | discriminate ]. cbn [bind].
  destruct (index pos_n 1) as [ ty | ] eqn:Ey; [ | discriminate ]. cbn [bind].
  intros H. injection H as <-. cbn [source target weight distance rank
                                      source_x source_y target_x target_y].
  exists neighbor_path, pos_n.
  split; [ now apply index_inv | ]. split; [ now apply index_inv | ].
  split; [ exact Ed | ].
  split; [ now apply index_inv | ]. split; [ now apply index_inv | ].
  repeat split.
Qed.

Lemma rows_of_image_inv (A : Arith) (positions : list (point A))
      (image_filenames : list string) (neighbors : list (list nat))
      (i : nat) (filename : string) (block : list (edge A)) :
  rows_of_image positions image_filenames neighbors i filename = Ok block ->
  exists neighbor_indices pos_x pos_y,
    nth_error neighbors i = Some neighbor_indices /\
    nth_error positions i = Some [pos_x; pos_y] /\
    for_enumerate (make_row positions image_filenames (basename filename)
                            [pos_x; pos_y] pos_x pos_y) 0 neighbor_indices
    = Ok block.
Proof.
  unfold rows_of_image.
  destruct (index neighbors i) as [ neighbor_indices | ] eqn:En; [ | discriminate ].
  cbn [bind].
  destruct (index positions i) as [ pos_i | ] eqn:Ep; [ | discriminate ].
  cbn [bind].
  destruct pos_i as [ | x [ | y [ | z p ] ] ]; try discriminate.
  cbn [bind unpack2]. intros H.
  exists neighbor_indices, x, y.
  split; [ now apply index_inv | ]. split; [ now apply index_inv | exact H ].
Qed.

(** Every edge of the loop is a row built for an image and one of the
    neighbours listed for it. *)
Lemma network_rows_inv (A : Arith) (positions : list (point A))
      (image_filenames : list string) (neighbors : list (list nat))
      (edges : list (edge A)) (e : edge A) :
  network_rows positions image_filenames neighbors = Ok edges ->
  In e edges ->
  exists i filename neighbor_indices pos_x pos_y j neighbor_idx,
    nth_error image_filenames i = Some filename /\
    nth_error neighbors i = Some neighbor_indices /\
    nth_error positions i = Some [pos_x; pos_y] /\
    nth_error neighbor_indices j = Some neighbor_idx /\
    make_row positions image_filenames (basename filename)
             [pos_x; pos_y] pos_x pos_y j neighbor_idx = Ok e.
Proof.
  unfold network_rows.
  destruct (for_enumerate _ 0 image_filenames) as [ blocks | ] eqn:E;
    [ | discriminate ].
  cbn [bind]. intros H He. injection H as <-.
  apply in_concat in He. destruct He as (block & Hblock & He).
  destruct (@In_for_enumerate _ _ _ _ _ _ _ E Hblock) as (i & filename & Hf & Hrows).
  simpl in Hrows. apply rows_of_image_inv in Hrows.
  destruct Hrows as (neighbor_indices & pos_x & pos_y & Hn & Hp & Hloop).
  destruct (@In_for_enumerate _ _ _ _ _ _ _ Hloop He) as (j & neighbor_idx & Hj & Hrow).
  simpl in Hrow.
  exists i, filename, neighbor_indices, pos_x, pos_y, j, neighbor_idx.
  repeat split; assumption.
Qed.

(** ** extract_network_data on its common prefix *)

Section Extract.

Variable A : Arith.
Variable argsort : list (fnum A) -> list nat.
Variable positions : list (point A).
Variable image_filenames : list string.
Variable k : Z.

Lemma length_common_positions :
  length (common_positions positions image_filenames)
  = min_count positions image_filenames.
Proof. unfold common_positions, min_count. rewrite length_firstn. lia. Qed.

Lemma length_common_filenames :
  length (common_filenames positions image_filenames)
  = min_count positions image_filenames.
Proof. unfold common_filenames, min_count. rewrite length_firstn. lia. Qed.

(** With an image and positions that make an array, the run is the
    neighbour search and the edge loop on the common prefix. *)
Lemma extract_on_common_prefix :
  image_filenames <> [] ->
  np_array positions = Ok positions ->
  snd (extract_network_data argsort positions image_filenames k)
  = (neighbors <- find_nearest_neighbors
                    argsort (common_positions positions image_filenames) k ;;
     network_data <- network_rows (common_positions positions image_filenames)
                                  (common_filenames positions image_filenames)
                                  neighbors ;;
     Ok (Some network_data)).
Proof.
  intros Hf Hp.
  unfold extract_network_data, common_positions, common_filenames, min_count, py_prefix.
  destruct image_filenames as [ | f fs ]; [ contradiction | ].
  cbv iota. rewrite Hp. cbv iota beta zeta. cbn [snd].
  destruct (Nat.eqb_spec (length positions) (length (f :: fs))) as [ E | E ];
    cbn [negb]; cbv iota; [ | reflexivity ].
  rewrite <- E, Nat.min_id, firstn_all.
  replace (firstn (length positions) (f :: fs)) with (f :: fs)
    by (rewrite E; symmetry; apply firstn_all).
  reflexivity.
Qed.

Lemma extract_log :
  image_filenames <> [] ->
  np_array positions = Ok positions ->
  fst (extract_network_data argsort positions image_filenames k)
  = if length positions =? length image_filenames then []
    else [WarnCountMismatch (length positions) (length image_filenames)].
Proof.
  intros Hf Hp. unfold extract_network_data.
  destruct image_filenames as [ | f fs ]; [ contradiction | ].
  cbv iota. rewrite Hp. cbv iota beta zeta. cbn [fst].
  now destruct (length positions =? length (f :: fs)).
Qed.

Lemma common_positions_2d :
  Forall is_2d positions -> Forall is_2d (common_positions positions image_filenames).
Proof.
  intros H. rewrite Forall_forall in *. intros p Hp.
  apply H. unfold common_positions in Hp.
  rewrite <- (firstn_skipn (min_count positions image_filenames) positions).
  apply in_or_app. now left.
Qed.

Lemma min_count_positive :
  is_matrix positions = true -> image_filenames <> [] ->
  1 <= min_count positions image_filenames.
Proof.
  intros Hp Hf. apply is_matrix_length in Hp. unfold min_count.
  destruct image_filenames; [ contradiction | simpl length; lia ].
Qed.

Lemma common_positions_matrix :
  is_matrix positions = true -> image_filenames <> [] ->
  is_matrix (common_positions positions image_filenames) = true.
Proof.
  intros Hp Hf. apply is_matrix_firstn; [ exact Hp | now apply min_count_positive ].
Qed.

(** The run on an array of at least one row, with an image. *)
Lemma extract_on_matrix :
  is_matrix positions = true ->
  image_filenames <> [] ->
  snd (extract_network_data argsort positions image_filenames k)
  = (network_data <- network_rows
                       (common_positions positions image_filenames)
                       (common_filenames positions image_filenames)
                       (neighbor_lists
                          argsort (common_positions positions image_filenames) k) ;;
     Ok (Some network_data)).
Proof.
  intros Hp Hf.
  rewrite extract_on_common_prefix by (auto using np_array_matrix).
  rewrite find_nearest_neighbors_ok by (now apply common_positions_matrix).
  reflexivity.
Qed.

Lemma extract_ok :
  argsort_permutes A argsort ->
  Forall is_2d positions ->
  positions <> [] ->
  image_filenames <> [] ->
  differences_finite (common_positions positions image_filenames) = true ->
  snd (extract_network_data argsort positions image_filenames k)
  = Ok (Some (expected_edges argsort positions image_filenames k)).
Proof.
  intros Hperm H2d Hp Hf Hfinite.
  rewrite extract_on_matrix by (auto using is_matrix_2d).
  unfold expected_edges. rewrite network_rows_ok; [ reflexivity | | | | | ].
  - now apply common_positions_2d.
  - now rewrite length_common_positions, length_common_filenames.
  - exact Hfinite.
  - apply length_neighbor_lists.
  - rewrite Forall_forall. intros l Hl. rewrite Forall_forall. intros j Hj.
    eapply neighbor_in_range; eassumption.
Qed.

(** No image: the function returns None. *)
Lemma extract_no_image :
  extract_network_data argsort positions [] k = ([], Ok None).
Proof. reflexivity. Qed.

(** No position: the array is one-dimensional, and [cdist] raises after the
    warning. *)
Lemma extract_no_position :
  image_filenames <> [] ->
  extract_network_data argsort [] image_filenames k
  = ([WarnCountMismatch 0 (length image_filenames)], Raise ValueError).
Proof.
  intros Hf. destruct image_filenames as [ | f fs ]; [ contradiction | ].
  reflexivity.
Qed.

(** Rows of different lengths: [np.array] raises. *)
Lemma extract_ragged :
  image_filenames <> [] ->
  positions <> [] ->
  is_matrix positions = false ->
  extract_network_data argsort positions image_filenames k = ([], Raise ValueError).
Proof.
  intros Hf Hp Hm. unfold extract_network_data.
  destruct image_filenames as [ | f fs ]; [ contradiction | ].
  cbv iota. now rewrite (np_array_ragged Hp Hm).
Qed.


(** What a run that returned edges went through. *)
Lemma extract_inv (edges : list (edge A)) :
  snd (extract_network_data argsort positions image_filenames k) = Ok (Some edges) ->
  image_filenames <> [] /\
  is_matrix positions = true /\
  network_rows (common_positions positions image_filenames)
               (common_filenames positions image_filenames)
               (neighbor_lists argsort (common_positions positions image_filenames) k)
  = Ok edges.
Proof.
  intros H.
  assert (Hf : image_filenames <> []).
  { intros E. rewrite E in H. discriminate. }
  destruct positions as [ | p rest ] eqn:Ep.
  { rewrite (extract_no_position Hf) in H. discriminate. }
  rewrite <- Ep in *.
  assert (Hp : positions <> []) by (rewrite Ep; discriminate).
  destruct (is_matrix positions) eqn:Em.
  - split; [ exact Hf | ]. split; [ reflexivity | ].
    rewrite extract_on_matrix in H by assumption.
    destruct (network_rows _ _ _) as [ network_data | ]; [ | discriminate ].
    cbn [bind] in H. congruence.
  - rewrite (extract_ragged Hf Hp Em) in H. discriminate.
Qed.

End Extract.

Lemma In_blocks_of (A : Arith) (positions : list (point A))
      (image_filenames : list string) (neighbors : list (list nat)) (e : edge A) :
  In e (concat (blocks_of positions image_filenames neighbors)) ->
  exists i j n,
    i < length image_filenames /\
    nth_error (nth i neighbors []) j = Some n /\
    e = edge_of positions image_filenames i j n.
Proof.
  intros H. apply in_concat in H. destruct H as (block & Hblock & He).
  unfold blocks_of in Hblock. apply in_map_iff in Hblock.
  destruct Hblock as (i & <- & Hi). apply in_seq in Hi.
  apply In_map_enumerate in He. destruct He as (j & n & Hn & ->).
  exists i, j, n. repeat split; [ lia | exact Hn ].
Qed.

Lemma In_expected_edges (A : Arith) (argsort : list (fnum A) -> list nat)
      (positions : list (point A)) (image_filenames : list string) (k : Z)
      (e : edge A) :
  argsort_permutes A argsort ->
  In e (expected_edges argsort positions image_filenames k) ->
  let positions' := common_positions positions image_filenames in
  let image_filenames' := common_filenames positions image_filenames in
  exists i j n,
    i < length positions' /\ n < length positions' /\
    nth_error (nth i (neighbor_lists argsort positions' k) []) j = Some n /\
    e = edge_of positions' image_filenames' i j n.
Proof.
  intros Hperm H. unfold expected_edges in H. apply In_blocks_of in H.
  destruct H as (i & j & n & Hi & Hn & ->). simpl.
  rewrite length_common_filenames, <- (length_common_positions positions) in Hi.
  exists i, j, n. repeat split; try assumption.
  eapply (neighbor_in_range Hperm); [ | eapply nth_error_In; exact Hn ].
  apply nth_In. now rewrite length_neighbor_lists.
Qed.

Lemma common_prefix_idempotent (A : Arith) (positions : list (point A))
      (image_filenames : list string) :
  let positions' := common_positions positions image_filenames in
  let image_filenames' := common_filenames positions image_filenames in
  common_positions positions' image_filenames' = positions' /\
  common_filenames positions' image_filenames' = image_filenames'.
Proof.
  simpl.
  assert (Em : min_count (common_positions positions image_filenames)
                         (common_filenames positions image_filenames)
               = min_count positions image_filenames).
  { unfold min_count at 1.
    now rewrite length_common_positions, length_common_filenames, Nat.min_id. }
  split.
  - unfold common_positions at 1. rewrite Em. unfold common_positions.
    now rewrite firstn_firstn, Nat.min_id.
  - unfold common_filenames at 1. rewrite Em. unfold common_filenames.
    now rewrite firstn_firstn, Nat.min_id.
Qed.

(** The edge loop keeps its subscripts in range. *)
Lemma network_rows_no_index_error (A : Arith) (argsort : list (fnum A) -> list nat)
      (positions : list (point A)) (image_filenames : list string) (k : Z) :
  argsort_permutes A argsort ->
  is_matrix positions = true ->
  length positions = length image_filenames ->
  network_rows positions image_filenames (neighbor_lists argsort positions k)
  <> Raise IndexError.
Proof.
  intros Hperm Hm Hlen H. unfold network_rows in H.
  destruct (for_enumerate _ 0 image_filenames) as [ blocks | e ] eqn:E;
    [ discriminate | ].
  cbn [bind] in H. injection H as ->.
  apply for_enumerate_raise_inv in E. destruct E as (i & filename & Hi & Hrows).
  assert (Hlt : i < length positions).
  { rewrite Hlen. apply nth_error_Some. congruence. }
  simpl in Hrows. unfold rows_of_image in Hrows.
  rewrite (index_nth _ []) in Hrows by (now rewrite length_neighbor_lists).
  cbn [bind] in Hrows.
  rewrite (index_nth _ ([] : point A)) in Hrows by exact Hlt. cbn [bind] in Hrows.
  pose proof (is_matrix_rows positions (nth i positions []) Hm (nth_In _ _ Hlt)) as Li.
  destruct (nth i positions []) as [ | x [ | y [ | z p ] ] ] eqn:Ei;
    try discriminate.
  cbn [bind unpack2] in Hrows.
  apply for_enumerate_raise_inv in Hrows.
  destruct Hrows as (j & n & Hj & Hrow). simpl in Hrow.
  assert (Hn : n < length positions).
  { eapply (neighbor_in_range Hperm); [ | eapply nth_error_In; exact Hj ].
    apply nth_In. now rewrite length_neighbor_lists. }
  pose proof (is_matrix_rows positions (nth n positions []) Hm (nth_In _ _ Hn)) as Ln.
  rewrite <- Li in Ln. simpl in Ln.
  unfold make_row in Hrow.
  rewrite (index_nth image_filenames ""%string) in Hrow by lia. cbn [bind] in Hrow.
  rewrite (index_nth positions []) in Hrow by lia. cbn [bind] in Hrow.
  destruct (euclidean [x; y] (nth n positions [])) as [ d | e ] eqn:Ed.
  - cbn [bind] in Hrow.
    rewrite (index_nth _ (fzero A)) in Hrow by lia. cbn [bind] in Hrow.
    rewrite (index_nth _ (fzero A)) in Hrow by lia. discriminate.
  - cbn [bind] in Hrow. apply euclidean_raises in Ed. congruence.
Qed.

(** ** Claims on counts, dimensions and the mismatch of counts *)

(** C2.  For an array of N >= 1 points and k >= 1, [find_nearest_neighbors]
    returns N lists, the i-th being the slice of the sorted indices of row
    i of the distance matrix, and each list has exactly min(k, N-1)
    entries. *)
Theorem neighbor_count (A : Arith) (argsort : list (fnum A) -> list nat)
        (positions : list (point A)) (k : Z) :
  argsort_permutes A argsort ->
  is_matrix positions = true ->
  (1 <= k)%Z ->
  exists neighbors,
    find_nearest_neighbors argsort positions k = Ok neighbors /\
    length neighbors = length positions /\
    forall i, i < length positions ->
      let ranked := nth i neighbors [] in
      ranked = py_slice (argsort (distance_row positions i)) 1 (k + 1) /\
      Z.of_nat (length ranked) = Z.min k (Z.of_nat (length positions) - 1).
Proof.
  intros Hperm Hm Hk. pose proof (is_matrix_length positions Hm) as HN.
  exists (neighbor_lists argsort positions k).
  split; [ now apply find_nearest_neighbors_ok | ].
  split; [ apply length_neighbor_lists | ].
  intros i Hi ranked. subst ranked.
  rewrite nth_neighbor_lists by exact Hi.
  split; [ reflexivity | ].
  rewrite length_py_slice_from_1 by lia.
  rewrite (length_argsort_row Hperm). lia.
Qed.

Lemma neighbor_count_witness :
  exists neighbors,
    find_nearest_neighbors argsort_stable64 four_points 2 = Ok neighbors /\
    length neighbors = 4 /\
    forall i, i < 4 ->
      let ranked := nth i neighbors [] in
      ranked = py_slice (argsort_stable64 (distance_row four_points i)) 1 (2 + 1) /\
      Z.of_nat (length ranked) = Z.min 2 (Z.of_nat 4 - 1).
Proof.
  apply (@neighbor_count float64 argsort_stable64 four_points 2).
  - exact argsort_stable64_permutes.
  - reflexivity.
  - lia.
Defined.

(** C6 as the code has it.  When the numbers of positions and of filenames
    differ and there is at least one position, [extract_network_data]
    prints the warning, cuts both sequences to their common prefix of
    min(len(positions), len(image_filenames)) entries and goes on as on
    that prefix given directly, with the same result or the same
    exception; on two-dimensional points whose differences are finite it
    returns an edge list whose endpoints are images of the prefix. *)
Theorem count_mismatch_truncates (A : Arith) (argsort : list (fnum A) -> list nat)
        (positions : list (point A)) (image_filenames : list string) (k : Z) :
  length positions <> length image_filenames ->
  is_matrix positions = true ->
  image_filenames <> [] ->
  let m := Nat.min (length positions) (length image_filenames) in
  let positions' := firstn m positions in
  let image_filenames' := firstn m image_filenames in
  1 <= m /\
  length positions' = m /\
  length image_filenames' = m /\
  fst (extract_network_data argsort positions image_filenames k)
  = [WarnCountMismatch (length positions) (length image_filenames)] /\
  extract_network_data argsort positions' image_filenames' k
  = ([], snd (extract_network_data argsort positions image_filenames k)) /\
  (argsort_permutes A argsort ->
   Forall is_2d positions ->
   differences_finite positions' = true ->
   exists edges,
     snd (extract_network_data argsort positions image_filenames k)
     = Ok (Some edges) /\
     edges = expected_edges argsort positions' image_filenames' k /\
     Forall (fun e => In (source e) (map basename image_filenames') /\
                      In (target e) (map basename image_filenames')) edges).
Proof.
  intros Hne Hmat Hf m positions' image_filenames'.
  pose proof (length_common_positions positions image_filenames) as Lp.
  pose proof (length_common_filenames positions image_filenames) as Lf.
  pose proof (common_prefix_idempotent positions image_filenames) as [Ip If].
  pose proof (min_count_positive positions Hmat Hf) as Hm.
  pose proof (common_positions_matrix positions Hmat Hf) as Hmat'.
  fold m positions' image_filenames' in Lp, Lf, Ip, If, Hm, Hmat'.
  change (common_positions positions image_filenames) with positions' in *.
  change (common_filenames positions image_filenames) with image_filenames' in *.
  change (min_count positions image_filenames) with m in *.
  assert (Hf' : image_filenames' <> []).
  { intros E. rewrite E in Lf. simpl in Lf. lia. }
  split; [ exact Hm | ]. split; [ exact Lp | ]. split; [ exact Lf | ].
  split.
  { rewrite extract_log by (auto using np_array_matrix).
    destruct (Nat.eqb_spec (length positions) (length image_filenames));
      [ contradiction | reflexivity ]. }
  split.
  { rewrite (surjective_pairing (extract_network_data argsort positions' image_filenames' k)).
    f_equal.
    - rewrite extract_log by (auto using np_array_matrix).
      rewrite Lp, Lf. now rewrite Nat.eqb_refl.
    - rewrite !extract_on_matrix by assumption. rewrite Ip, If. reflexivity. }
  intros Hperm H2d Hfinite.
  exists (expected_edges argsort positions image_filenames k).
  split.
  { apply extract_ok; try assumption.
    intros E. rewrite E in Hmat. discriminate. }
  assert (Eq : expected_edges argsort positions image_filenames k
               = expected_edges argsort positions' image_filenames' k).
  { unfold expected_edges. rewrite Ip, If. reflexivity. }
  split; [ exact Eq | ].
  rewrite Forall_forall. intros e He.
  apply In_expected_edges in He; [ | exact Hperm ].
  destruct He as (i & j & n & Hi & Hn & _ & ->).
  change (common_positions positions image_filenames) with positions' in *.
  change (common_filenames positions image_filenames) with image_filenames' in *.
  simpl. split; apply in_map, nth_In; lia.
Qed.

Lemma count_mismatch_truncates_witness :
  let positions := [[0; 0]; [1; 0]; [0; 1]]%float : list (point float64) in
  let image_filenames := ["a.jpg"; "b.jpg"; "c.jpg"; "d.jpg"; "e.jpg"]%string in
  fst (extract_network_data argsort_stable64 positions image_filenames 2)
  = [WarnCountMismatch 3 5] /\
  extract_network_data argsort_stable64 positions (firstn 3 image_filenames) 2
  = ([], snd (extract_network_data argsort_stable64 positions image_filenames 2)) /\
  exists edges,
    snd (extract_network_data argsort_stable64 positions image_filenames 2)
    = Ok (Some edges).
Proof.
  intros positions image_filenames.
  assert (Hne : length positions <> length image_filenames) by (simpl; lia).
  assert (Hmat : is_matrix positions = true) by reflexivity.
  assert (Hf : image_filenames <> []) by discriminate.
  pose proof (@count_mismatch_truncates float64 argsort_stable64 positions
                image_filenames 2 Hne Hmat Hf) as H.
  simpl in H. destruct H as (_ & _ & _ & Hlog & Hsame & Hedges).
  split; [ exact Hlog | ]. split; [ exact Hsame | ].
  destruct (Hedges argsort_stable64_permutes) as (edges & Hok & _).
  - repeat constructor.
  - reflexivity.
  - exists edges. exact Hok.
Defined.

(** C6 as stated fails.  A layout without any position gives an array of one
    dimension: the counts differ, the warning is printed, and [cdist]
    raises ValueError on the truncated array. *)
Lemma mismatch_without_positions_is_fatal :
  extract_network_data argsort_stable64 (@nil (point float64))
                       ["a.jpg"; "b.jpg"]%string 2
  = ([WarnCountMismatch 0 2], Raise ValueError).
Proof. reflexivity. Qed.

Lemma map_nth_seq {X : Type} (l : list X) (d : X) :
  map (fun i => nth i l d) (seq 0 (length l)) = l.
Proof.
  induction l as [ | x l IH ]; simpl; [ reflexivity | ].
  f_equal. rewrite <- seq_shift, map_map. exact IH.
Qed.

Lemma length_expected_edges (A : Arith) (argsort : list (fnum A) -> list nat)
      (positions : list (point A)) (image_filenames : list string) (k : Z) :
  let positions' := common_positions positions image_filenames in
  length (expected_edges argsort positions image_filenames k)
  = list_sum (map (@length nat) (neighbor_lists argsort positions' k)).
Proof.
  simpl. unfold expected_edges, blocks_of.
  rewrite length_common_filenames, <- (length_common_positions positions).
  set (p' := common_positions positions image_filenames).
  set (f' := common_filenames positions image_filenames).
  set (nb := neighbor_lists argsort p' k).
  rewrite <- (length_neighbor_lists argsort p' k). fold nb.
  rewrite length_concat, map_map. f_equal.
  rewrite <- (map_nth_seq nb []) at 2. rewrite map_map.
  apply map_ext. intros i. unfold block_of. apply length_map_enumerate.
Qed.




(** ** Non-positive neighbour counts *)

Lemma neighbor_lists_empty (A : Arith) (argsort : list (fnum A) -> list nat)
      (positions : list (point A)) (k : Z) :
  k = 0%Z \/ k = (-1)%Z ->
  neighbor_lists argsort positions k = repeat [] (length positions).
Proof.
  intros Hk. unfold neighbor_lists.
  replace (repeat [] (length positions))
    with (repeat (@nil nat) (length (seq 0 (length positions))))
    by (now rewrite length_seq).
  generalize (seq 0 (length positions)) as l.
  induction l as [ | i l IH ]; simpl; [ reflexivity | ].
  rewrite IH. f_equal. now apply py_slice_empty.
Qed.

Lemma concat_repeat_nil {X : Type} (n : nat) : concat (repeat (@nil X) n) = [].
Proof. induction n; simpl; [ reflexivity | assumption ]. Qed.

Lemma network_rows_no_neighbor (A : Arith) (positions : list (point A))
      (image_filenames : list string) :
  Forall is_2d positions ->
  length positions = length image_filenames ->
  network_rows positions image_filenames (repeat [] (length positions)) = Ok [].
Proof.
  intros H2d Hlen. unfold network_rows.
  rewrite (for_enumerate_ok _ (fun _ _ => @nil (edge A))).
  - cbn [bind]. f_equal. rewrite map_enumerate_const.
    apply concat_nil_Forall. rewrite Forall_map, Forall_forall. now intros.
  - intros i x Hx. simpl.
    assert (Hi : i < length positions).
    { rewrite Hlen. apply nth_error_Some. congruence. }
    unfold rows_of_image.
    rewrite (index_nth _ []) by (now rewrite repeat_length). cbn [bind].
    rewrite (index_nth _ ([] : point A)) by exact Hi. cbn [bind].
    rewrite (unpack2_nth H2d Hi). cbn [bind].
    replace (nth i (repeat [] (length positions)) []) with (@nil nat);
      [ reflexivity | ].
    symmetry. apply nth_repeat.
Qed.

(** C10.  The neighbour count is not validated.  With k = 0 or k = -1 every
    neighbour list is empty, so a run on two-dimensional points returns no
    edge, [write_csv] on no row returns False and no file, and [main] writes
    nothing.  With k = -2 the slice [1:-1] keeps N - 2 indices per point
    (N >= 2): the four points of the scenario get two neighbours each. *)
Theorem nonpositive_neighbor_counts :
  (forall (A : Arith) (argsort : list (fnum A) -> list nat)
          (positions : list (point A)) (image_filenames : list string) (k : Z),
      k = 0%Z \/ k = (-1)%Z ->
      is_matrix positions = true ->
      find_nearest_neighbors argsort positions k
      = Ok (repeat [] (length positions)) /\
      (Forall is_2d positions -> image_filenames <> [] ->
       snd (extract_network_data argsort positions image_filenames k)
       = Ok (Some []))) /\
  (forall (A : Arith) (set_order : list string -> list string)
          (path_exists : string -> bool) (metadata : dict (dict (value A)))
          (data_dir : string) (include_thumbs : bool),
      write_csv set_order (@nil (dict (value A))) = (false, None) /\
      export_tables set_order path_exists metadata data_dir include_thumbs [] = []) /\
  (forall (A : Arith) (argsort : list (fnum A) -> list nat)
          (positions : list (point A)),
      argsort_permutes A argsort ->
      is_matrix positions = true ->
      2 <= length positions ->
      exists neighbors,
        find_nearest_neighbors argsort positions (-2) = Ok neighbors /\
        length neighbors = length positions /\
        Forall (fun ranked => length ranked = length positions - 2) neighbors) /\
  find_nearest_neighbors argsort_stable64 four_points (-2)
  = Ok [[1; 2]; [0; 2]; [0; 1]; [1; 2]].
Proof.
  split; [ | split; [ | split ] ].
  - intros A argsort positions image_filenames k Hk Hmat. split.
    + rewrite find_nearest_neighbors_ok by exact Hmat.
      now rewrite neighbor_lists_empty.
    + intros H2d Hf. rewrite extract_on_matrix by assumption.
      rewrite neighbor_lists_empty by exact Hk.
      rewrite network_rows_no_neighbor; [ reflexivity | | ].
      * now apply common_positions_2d.
      * now rewrite length_common_positions, length_common_filenames.
  - intros. split; reflexivity.
  - intros A argsort positions Hperm Hmat HN.
    exists (neighbor_lists argsort positions (-2)).
    split; [ now apply find_nearest_neighbors_ok | ].
    split; [ apply length_neighbor_lists | ].
    rewrite Forall_forall. intros ranked Hr.
    apply In_neighbor_lists in Hr. destruct Hr as (i & Hi & ->).
    rewrite length_py_slice_minus_2; rewrite (length_argsort_row Hperm); lia.
  - vm_compute. reflexivity.
Qed.

Lemma nonpositive_neighbor_counts_witness :
  find_nearest_neighbors argsort_stable64 four_points 0 = Ok [[]; []; []; []] /\
  snd (extract_network_data argsort_stable64 four_points
                            ["a.jpg"; "b.jpg"; "c.jpg"; "d.jpg"]%string (-1))
  = Ok (Some []) /\
  exists neighbors,
    find_nearest_neighbors argsort_stable64 four_points (-2) = Ok neighbors /\
    Forall (fun ranked => length ranked = 2) neighbors.
Proof.
  pose proof nonpositive_neighbor_counts as (Hempty & _ & Hminus2 & _).
  assert (Hmat : is_matrix four_points = true) by reflexivity.
  split; [ | split ].
  - exact (proj1 (Hempty float64 argsort_stable64 four_points [] 0%Z
                         (or_introl eq_refl) Hmat)).
  - apply (proj2 (Hempty float64 argsort_stable64 four_points _ (-1)%Z
                         (or_intror eq_refl) Hmat)).
    + repeat constructor.
    + discriminate.
  - destruct (Hminus2 float64 argsort_stable64 four_points
                      argsort_stable64_permutes Hmat) as (neighbors & Hok & _ & Hall).
    + simpl. lia.
    + exists neighbors. split; [ exact Hok | exact Hall ].
Defined.

(** ** The insertion sort is ascending *)

Lemma StronglySorted_nth_error {X : Type} (R : X -> X -> Prop) (l : list X)
      (a b : nat) (x y : X) :
  StronglySorted R l -> a < b ->
  nth_error l a = Some x -> nth_error l b = Some y -> R x y.
Proof.
  intros Hs. revert a b. induction Hs as [ | z l Hs IH Hz ]; intros a b Hab Ha Hb.
  - destruct a; discriminate.
  - destruct b as [ | b ]; [ lia | ]. simpl in Hb.
    destruct a as [ | a ].
    + simpl in Ha. injection Ha as <-.
      rewrite Forall_forall in Hz. eapply Hz, nth_error_In, Hb.
    + simpl in Ha. apply (IH a b); [ lia | assumption | assumption ].
Qed.

Lemma pairwise_nth_error {X : Type} (r : X -> X -> bool) (l : list X)
      (a b : nat) (x y : X) :
  pairwise r l = true -> a < b ->
  nth_error l a = Some x -> nth_error l b = Some y -> r x y = true.
Proof.
  revert a b. induction l as [ | z l IH ]; intros a b Hp Hab Ha Hb.
  - destruct a; discriminate.
  - simpl in Hp. apply andb_prop in Hp. destruct Hp as [Hz Hp].
    destruct b as [ | b ]; [ lia | ]. simpl in Hb.
    destruct a as [ | a ].
    + simpl in Ha. injection Ha as <-.
      rewrite forallb_forall in Hz. eapply Hz, nth_error_In, Hb.
    + simpl in Ha. apply (IH a b); [ assumption | lia | assumption | assumption ].
Qed.

Section InsertionSorted.

Variable X : Type.
Variable before : X -> X -> bool.
Variable le : X -> X -> Prop.

Hypothesis le_trans : forall x y z, le x y -> le y z -> le x z.
Hypothesis before_strict : forall y x, before y x = true -> le y x /\ ~ le x y.
Hypothesis not_before : forall y x, before y x = false -> le x y.

Lemma insert_key_sorted (xi : X * nat) (l : list (X * nat)) :
  StronglySorted (key_order le) l ->
  Forall (fun yj => snd xi < snd yj) l ->
  StronglySorted (key_order le) (insert_key before xi l).
Proof.
  intros Hs. induction Hs as [ | yj l Hs IH Hy ]; intros Hidx; simpl.
  - constructor; constructor.
  - inversion Hidx as [ | ? ? Hlt Hidx' ]; subst.
    destruct (before (fst yj) (fst xi)) eqn:E.
    + apply before_strict in E. destruct E as [Hle Hnle].
      constructor; [ now apply IH | ].
      apply (Permutation_Forall (Permutation_sym (insert_key_perm before xi l))).
      constructor; [ | exact Hy ].
      split; [ exact Hle | intros; contradiction ].
    + apply not_before in E.
      constructor; [ constructor; assumption | ].
      constructor; [ split; [ exact E | intros; exact Hlt ] | ].
      rewrite Forall_forall in *. intros zk Hz. split.
      * eapply le_trans; [ exact E | apply (Hy zk Hz) ].
      * intros _. now apply Hidx'.
Qed.

Lemma sort_keys_sorted (row : list X) (start : nat) :
  StronglySorted (key_order le)
                 (sort_keys before (combine row (seq start (length row)))).
Proof.
  revert start. induction row as [ | x row IH ]; intros start; simpl.
  - constructor.
  - apply insert_key_sorted; [ apply IH | ].
    apply (Permutation_Forall (Permutation_sym (sort_keys_perm before _))).
    rewrite Forall_forall. intros [y j] Hy. simpl.
    apply in_combine_r in Hy. apply in_seq in Hy. lia.
Qed.

Lemma In_combine_seq (row : list X) (x : X) (i : nat) (d : X) :
  In (x, i) (combine row (seq 0 (length row))) -> nth i row d = x.
Proof.
  intros H. apply In_nth_error in H. destruct H as [n Hn].
  pose proof Hn as Hlt.
  assert (Hn' : n < length (combine row (seq 0 (length row))))
    by (apply nth_error_Some; congruence).
  rewrite length_combine, length_seq, Nat.min_id in Hn'.
  rewrite (nth_error_nth' _ (d, 0)) in Hn
    by (now rewrite length_combine, length_seq, Nat.min_id).
  rewrite combine_nth in Hn by (now rewrite length_seq).
  rewrite seq_nth in Hn by exact Hn'. simpl in Hn.
  injection Hn as Hx Hi. now subst.
Qed.

Lemma insertion_argsort_keys (row : list X) (d : X) (a ia : nat) :
  nth_error (insertion_argsort before row) a = Some ia ->
  nth_error (sort_keys before (combine row (seq 0 (length row)))) a
  = Some (nth ia row d, ia).
Proof.
  unfold insertion_argsort. rewrite nth_error_map. intros H.
  destruct (nth_error (sort_keys before _) a) as [ [x i] | ] eqn:E;
    [ | discriminate ].
  simpl in H. injection H as ->.
  apply nth_error_In in E.
  apply (Permutation_in _ (sort_keys_perm before _)) in E.
  now rewrite (In_combine_seq _ _ _ d E).
Qed.

Lemma insertion_argsort_order (row : list X) (d : X) (a b ia ib : nat) :
  a < b ->
  nth_error (insertion_argsort before row) a = Some ia ->
  nth_error (insertion_argsort before row) b = Some ib ->
  le (nth ia row d) (nth ib row d) /\
  (le (nth ib row d) (nth ia row d) -> ia < ib).
Proof.
  intros Hab Ha Hb.
  apply (insertion_argsort_keys row d) in Ha.
  apply (insertion_argsort_keys row d) in Hb.
  exact (StronglySorted_nth_error (sort_keys_sorted row 0) Hab Ha Hb).
Qed.

End InsertionSorted.

(** *** On doubles, row by row *)

Lemma ascending64_ok (argsort : list (fnum float64) -> list nat) (row : list float) :
  ascending64 row (argsort row) = true -> argsort_ascending float64 argsort row.
Proof.
  intros H a b ia ib Hab Ha Hb.
  pose proof (pairwise_nth_error _ _ H Hab Ha Hb) as E. simpl in E.
  simpl. now apply negb_true_iff in E.
Qed.

(** ** Ranking and ties *)

Lemma four_points_rows_ascending (i : nat) :
  i < length four_points ->
  argsort_ascending float64 argsort_stable64 (distance_row four_points i).
Proof.
  intros Hi.
  destruct i as [ | [ | [ | [ | i ] ] ] ]; [ | | | | simpl in Hi; lia ];
    apply ascending64_ok; vm_compute; reflexivity.
Qed.

Lemma pairwise_of_nth_error {X : Type} (r : X -> X -> bool) (l : list X) :
  (forall a b x y, a < b -> nth_error l a = Some x -> nth_error l b = Some y ->
                   r x y = true) ->
  pairwise r l = true.
Proof.
  induction l as [ | z l IH ]; intros H; simpl; [ reflexivity | ].
  apply andb_true_intro. split.
  - apply forallb_forall. intros y Hy. apply In_nth_error in Hy.
    destruct Hy as [b Hb]. apply (H 0 (S b) z y); [ lia | reflexivity | exact Hb ].
  - apply IH. intros a b x y Hab Ha Hb.
    apply (H (S a) (S b) x y); [ lia | exact Ha | exact Hb ].
Qed.

Lemma ascending64_complete (argsort : list (fnum float64) -> list nat)
      (row : list float) :
  argsort_ascending float64 argsort row -> ascending64 row (argsort row) = true.
Proof.
  intros H. apply pairwise_of_nth_error. intros a b x y Hab Ha Hb.
  apply negb_true_iff. exact (H a b x y Hab Ha Hb).
Qed.

(** A permutation of four indices, spelled out. *)
Lemma permutation_of_four (l : list nat) :
  Permutation l (seq 0 4) ->
  exists a b c d,
    l = [a; b; c; d] /\ (a < 4 /\ b < 4 /\ c < 4 /\ d < 4) /\
    a <> b /\ a <> c /\ a <> d /\ b <> c /\ b <> d /\ c <> d.
Proof.
  intros H. pose proof (Permutation_length H) as Hl.
  pose proof (Permutation_NoDup (Permutation_sym H) (seq_NoDup 4 0)) as Hnd.
  assert (Hin : forall x, In x l -> x < 4).
  { intros x Hx. apply (Permutation_in _ H) in Hx. apply in_seq in Hx. lia. }
  destruct l as [ | a [ | b [ | c [ | d [ | z l ] ] ] ] ]; try discriminate.
  exists a, b, c, d. split; [ reflexivity | ].
  split; [ repeat split; apply Hin; simpl; tauto | ].
  inversion Hnd as [ | ? ? H1 Hnd1 ]; subst.
  inversion Hnd1 as [ | ? ? H2 Hnd2 ]; subst.
  inversion Hnd2 as [ | ? ? H3 Hnd3 ]; subst.
  simpl in H1, H2, H3.
  repeat split; intros E; subst; tauto.
Qed.

Lemma row_0_checked (a b c d : nat) :
  a < 4 -> b < 4 -> c < 4 -> d < 4 -> row_0_check a b c d = true.
Proof.
  intros Ha Hb Hc Hd.
  assert (H : forallb (fun a => forallb (fun b => forallb (fun c =>
                forallb (fun d => row_0_check a b c d) (seq 0 4))
                (seq 0 4)) (seq 0 4)) (seq 0 4) = true)
    by (vm_compute; reflexivity).
  assert (Hin : forall x, x < 4 -> In x (seq 0 4)) by (intros; apply in_seq; lia).
  pose proof (proj1 (forallb_forall _ _) H a (Hin a Ha)) as H1.
  pose proof (proj1 (forallb_forall _ _) H1 b (Hin b Hb)) as H2.
  pose proof (proj1 (forallb_forall _ _) H2 c (Hin c Hc)) as H3.
  exact (proj1 (forallb_forall _ _) H3 d (Hin d Hd)).
Qed.

Lemma four_points_row_0 (argsort : list (fnum float64) -> list nat) :
  argsort_permutes float64 argsort ->
  argsort_ascending float64 argsort (distance_row four_points 0) ->
  py_slice (argsort (distance_row four_points 0)) 1 (2 + 1) = [1; 2] \/
  py_slice (argsort (distance_row four_points 0)) 1 (2 + 1) = [2; 1].
Proof.
  intros Hperm Hasc.
  pose proof (Hperm (distance_row four_points 0)) as Hp.
  rewrite length_distance_row in Hp.
  apply permutation_of_four in Hp.
  destruct Hp as (a & b & c & d & El & (Ha & Hb & Hc & Hd)
                  & Hab & Hac & Had & Hbc & Hbd & Hcd).
  apply ascending64_complete in Hasc. rewrite El in Hasc |- *.
  pose proof (row_0_checked Ha Hb Hc Hd) as H. unfold row_0_check in H.
  rewrite Hasc in H.
  apply Nat.eqb_neq in Hab, Hac, Had, Hbc, Hbd, Hcd.
  rewrite Hab, Hac, Had, Hbc, Hbd, Hcd in H. simpl in H.
  apply orb_prop in H.
  destruct H as [ H | H ]; apply andb_prop in H; destruct H as [ Eb Ec ];
    apply Nat.eqb_eq in Eb, Ec; subst b c; [ left | right ]; reflexivity.
Qed.

(** C1 as the code has it.  The neighbours of a point are ranked in the
    order [np.argsort] returns the entries of its row of the distance
    matrix: by ascending entry, so that of two listed neighbours the one
    that is strictly nearer has the better rank, and among neighbours at
    the same distance in whatever order the sort leaves them.  For the four
    points (0,0), (1,0), (0,1), (5,5) and k = 2 the list of (0,0) holds the
    indices 1 and 2, in one order or the other for a sort that meets the
    contract, and index 1 first for NumPy's sorts of short rows. *)
Theorem neighbors_ranked_by_sorted_order :
  (forall (A : Arith) (argsort : list (fnum A) -> list nat)
          (positions : list (point A)) (k : Z) (neighbors : list (list nat))
          (i a b ja jb : nat),
      argsort_permutes A argsort ->
      argsort_ascending A argsort (distance_row positions i) ->
      find_nearest_neighbors argsort positions k = Ok neighbors ->
      i < length positions ->
      nth_error (nth i neighbors []) a = Some ja ->
      nth_error (nth i neighbors []) b = Some jb ->
      let d j := cdist_euclidean (nth i positions []) (nth j positions []) in
      (a < b -> fle A (d ja) (d jb)) /\
      (a <> b -> ~ fle A (d jb) (d ja) -> a < b)) /\
  (forall argsort : list (fnum float64) -> list nat,
      argsort_permutes float64 argsort ->
      argsort_ascending float64 argsort (distance_row four_points 0) ->
      exists neighbors,
        find_nearest_neighbors argsort four_points 2 = Ok neighbors /\
        (nth 0 neighbors [] = [1; 2] \/ nth 0 neighbors [] = [2; 1])) /\
  (exists neighbors neighbors',
      find_nearest_neighbors argsort_stable64 four_points 2 = Ok neighbors /\
      find_nearest_neighbors argsort_network64 four_points 2 = Ok neighbors' /\
      nth 0 neighbors [] = [1; 2] /\
      nth 0 neighbors' [] = [1; 2]).
Proof.
  split; [ | split ].
  - intros A argsort positions k neighbors i a b ja jb Hperm Hasc Hok Hi Ha Hb d.
    apply find_nearest_neighbors_inv in Hok. destruct Hok as [_ ->].
    rewrite nth_neighbor_lists in Ha, Hb by exact Hi.
    apply nth_error_py_slice_from_1 in Ha, Hb.
    pose proof (argsort_row_in_range Hperm _ _ _ Ha) as Ra.
    pose proof (argsort_row_in_range Hperm _ _ _ Hb) as Rb.
    assert (Hlt : forall a b ja jb,
               a < b ->
               nth_error (argsort (distance_row positions i)) (S a) = Some ja ->
               nth_error (argsort (distance_row positions i)) (S b) = Some jb ->
               ja < length positions -> jb < length positions ->
               fle A (d ja) (d jb)).
    { intros a' b' ja' jb' Hab Ha' Hb' Ra' Rb'. unfold d.
      rewrite <- !(key_distance_row positions i) by assumption.
      apply (Hasc (S a') (S b')); [ lia | assumption | assumption ]. }
    split.
    + intros Hab. now apply (Hlt a b).
    + intros Hne Hfar.
      destruct (Nat.lt_trichotomy a b) as [ Hab | [ Hab | Hab ] ];
        [ exact Hab | contradiction | ].
      exfalso. apply Hfar. now apply (Hlt b a).
  - intros argsort Hperm Hasc.
    exists (neighbor_lists argsort four_points 2).
    split; [ now apply find_nearest_neighbors_ok | ].
    rewrite nth_neighbor_lists by (simpl; lia).
    now apply four_points_row_0.
  - eexists. eexists. split; [ vm_compute; reflexivity | ].
    split; [ vm_compute; reflexivity | ]. split; reflexivity.
Qed.

Lemma neighbors_ranked_by_sorted_order_witness :
  fle float64 (cdist_euclidean (nth 0 four_points []) (nth 1 four_points []))
              (cdist_euclidean (nth 0 four_points []) (nth 2 four_points [])).
Proof.
  refine (proj1 (proj1 neighbors_ranked_by_sorted_order float64 argsort_stable64
                       four_points 2%Z [[1; 2]; [0; 2]; [0; 1]; [1; 2]] 0 0 1 1 2
                       argsort_stable64_permutes _ _ _ _ _) _).
  - apply four_points_rows_ascending. simpl. lia.
  - vm_compute. reflexivity.
  - simpl. lia.
  - reflexivity.
  - reflexivity.
  - lia.
Defined.

Lemma tie_points_rows_ascending (i : nat) :
  i < length tie_points ->
  argsort_ascending float64 argsort_network64 (distance_row tie_points i).
Proof.
  intros Hi.
  destruct i as [ | [ | [ | [ | i ] ] ] ]; [ | | | | simpl in Hi; lia ];
    apply ascending64_ok; vm_compute; reflexivity.
Qed.

(** C1 as stated fails.  The points (1,0) and (0,1), of index 0 and 1, are
    both at distance 1 from the point (0,0) of index 3, and (0.5,0.5) is
    nearer.  NumPy's vectorised sort returns, for each row of the distance
    matrix, a permutation along which the distances ascend, and ranks
    index 1 before index 0 among the neighbours of index 3. *)
Lemma tied_neighbors_ranked_by_higher_index :
  cdist_euclidean (A := float64) (nth 3 tie_points []) (nth 0 tie_points [])
  = cdist_euclidean (A := float64) (nth 3 tie_points []) (nth 1 tie_points []) /\
  (forall i, i < length tie_points ->
     Permutation (argsort_network64 (distance_row tie_points i))
                 (seq 0 (length tie_points)) /\
     argsort_ascending float64 argsort_network64 (distance_row tie_points i)) /\
  match find_nearest_neighbors argsort_network64 tie_points 3 with
  | Ok neighbors => nth 3 neighbors []
  | Raise _ => []
  end = [2; 1; 0].
Proof.
  split; [ vm_compute; reflexivity | ].
  split; [ | vm_compute; reflexivity ].
  intros i Hi. split; [ | now apply tie_points_rows_ascending ].
  destruct i as [ | [ | [ | [ | i ] ] ] ]; [ | | | | simpl in Hi; lia ];
    vm_compute;
    (apply NoDup_Permutation;
     [ repeat constructor; simpl; intuition discriminate
     | repeat constructor; simpl; intuition discriminate
     | intros x; simpl; intuition ]).
Qed.

(** ** Coincident points *)

Lemma py_slice_second {X : Type} (x y : X) (k : Z) :
  (1 <= k)%Z -> py_slice [x; y] 1 (k + 1) = [y].
Proof.
  intros Hk. unfold py_slice. simpl length.
  replace (norm_index (Z.of_nat 2) 1) with 1%Z by slice_bounds.
  replace (norm_index (Z.of_nat 2) (k + 1)) with 2%Z by slice_bounds.
  reflexivity.
Qed.

(** C3 fails on the code.  Two images at the same place, with finite
    coordinates: both rows of the distance matrix are the same, so both
    images get the same single nearest neighbour, and for one of them that
    neighbour is the image itself.  Whatever permutation [np.argsort]
    returns, the edge list holds a self-loop. *)
Theorem coincident_points_self_loop (A : Arith) (argsort : list (fnum A) -> list nat)
        (p : point A) (f1 f2 : string) (k : Z) :
  argsort_permutes A argsort ->
  is_2d p ->
  forallb (fisfinite A) (difference p p) = true ->
  (1 <= k)%Z ->
  exists edges e,
    snd (extract_network_data argsort [p; p] [f1; f2] k) = Ok (Some edges) /\
    In e edges /\
    source e = target e.
Proof.
  intros Hperm H2d Hfinite Hk.
  exists (expected_edges argsort [p; p] [f1; f2] k).
  assert (Hok : snd (extract_network_data argsort [p; p] [f1; f2] k)
                = Ok (Some (expected_edges argsort [p; p] [f1; f2] k))).
  { apply extract_ok; [ exact Hperm | repeat constructor; exact H2d
                      | discriminate | discriminate | ].
    unfold differences_finite, common_positions, min_count. simpl.
    now rewrite Hfinite. }
  set (d := cdist_euclidean p p).
  assert (Hrow : forall i, i < 2 -> distance_row [p; p] i = [d; d]).
  { intros [ | [ | i ] ] Hi; [ reflexivity | reflexivity | lia ]. }
  pose proof (Hperm [d; d]) as Hs. simpl in Hs.
  apply Permutation_sym, Permutation_length_2_inv in Hs.
  assert (Hn : exists n, n < 2 /\ py_slice (argsort [d; d]) 1 (k + 1) = [n]).
  { destruct Hs as [ -> | -> ]; rewrite py_slice_second by exact Hk;
      [ exists 1 | exists 0 ]; split; (lia || reflexivity). }
  destruct Hn as (n & Hn2 & Hslice).
  exists (edge_of [p; p] [f1; f2] n 0 n).
  split; [ exact Hok | ]. split; [ | reflexivity ].
  unfold expected_edges, blocks_of, common_positions, common_filenames, min_count.
  simpl firstn. simpl length. simpl seq. simpl map. unfold block_of.
  assert (Hnb : forall i, i < 2 ->
              nth i (neighbor_lists argsort [p; p] k) [] = [n]).
  { intros i Hi. rewrite nth_neighbor_lists by exact Hi.
    now rewrite Hrow by exact Hi. }
  rewrite (Hnb 0), (Hnb 1) by lia. simpl.
  destruct n as [ | [ | n ] ]; [ left | right; left | lia ]; reflexivity.
Qed.

Lemma coincident_points_self_loop_witness :
  exists edges e,
    snd (extract_network_data argsort_stable64 [[0; 0]; [0; 0]]%float
                              ["a.jpg"; "b.jpg"]%string 1) = Ok (Some edges) /\
    In e edges /\
    source e = target e.
Proof.
  apply (@coincident_points_self_loop float64 argsort_stable64
           [0; 0]%float "a.jpg"%string "b.jpg"%string 1%Z).
  - exact argsort_stable64_permutes.
  - reflexivity.
  - reflexivity.
  - lia.
Defined.

(** The same input with a stable sort: image b.jpg is its own neighbour. *)
Lemma coincident_points_edges :
  match snd (extract_network_data argsort_stable64 [[0; 0]; [0; 0]]%float
                                  ["a.jpg"; "b.jpg"]%string 1) with
  | Ok (Some edges) => map (fun e => (source e, target e, rank e)) edges
  | _ => []
  end = [("a.jpg", "b.jpg", 1); ("b.jpg", "b.jpg", 1)]%string.
Proof. vm_compute. reflexivity. Qed.

(** ** The fields of an edge *)

Lemma nth_error_common_prefix {X : Type} (l : list X) (m i : nat) (d : X) :
  i < length (firstn m l) -> nth_error l i = Some (nth i (firstn m l) d).
Proof.
  intros Hi. rewrite <- (nth_error_nth' _ d Hi).
  rewrite nth_error_firstn. rewrite length_firstn in Hi.
  destruct (Nat.ltb_spec i m); [ reflexivity | lia ].
Qed.

Lemma nth_error_firstn_Some {X : Type} (l : list X) (m i : nat) (x : X) :
  nth_error (firstn m l) i = Some x -> nth_error l i = Some x.
Proof.
  rewrite nth_error_firstn. destruct (Nat.ltb i m); [ auto | discriminate ].
Qed.

(** C5 as the code has it.  Every edge that a run returns joins two images
    of the input: it carries their base names and their coordinates; its
    distance is what [distance.euclidean] returns for the coordinates it
    carries, the norm of their difference, which is finite in each
    coordinate; and its weight is 1 / (distance + 1e-5). *)
Theorem edge_fields (A : Arith) (argsort : list (fnum A) -> list nat)
        (positions : list (point A)) (image_filenames : list string) (k : Z)
        (edges : list (edge A)) (e : edge A) :
  snd (extract_network_data argsort positions image_filenames k) = Ok (Some edges) ->
  In e edges ->
  let u := [source_x e; source_y e] in
  let v := [target_x e; target_y e] in
  euclidean u v = Ok (distance e) /\
  forallb (fisfinite A) (difference u v) = true /\
  distance e = fnrm2 A (difference u v) /\
  weight e = fdiv A (fone A) (fadd A (distance e) (feps A)) /\
  1 <= rank e /\
  exists i n fi fn,
    nth_error positions i = Some u /\
    nth_error positions n = Some v /\
    nth_error image_filenames i = Some fi /\
    nth_error image_filenames n = Some fn /\
    source e = basename fi /\
    target e = basename fn.
Proof.
  intros Hok He u v. apply extract_inv in Hok. destruct Hok as (_ & Hmat & Hrows).
  destruct (@network_rows_inv _ _ _ _ _ _ Hrows He)
    as (i & filename & neighbor_indices & pos_x & pos_y & j & n
        & Hf & _ & Hp & _ & Hrow).
  apply make_row_inv in Hrow.
  destruct Hrow as (neighbor_path & pos_n & Hfn & Hpn & Hd & Htx & Hty
                    & Hs & Ht & Hw & Hr & Hsx & Hsy).
  unfold common_positions in Hp, Hpn. unfold common_filenames in Hf, Hfn.
  apply nth_error_firstn_Some in Hp, Hpn, Hf, Hfn.
  assert (Ln : length pos_n = 2).
  { rewrite (is_matrix_rows positions pos_n Hmat (nth_error_In _ _ Hpn)).
    now rewrite <- (is_matrix_rows positions _ Hmat (nth_error_In _ _ Hp)). }
  assert (En : pos_n = v).
  { unfold v. destruct pos_n as [ | tx [ | ty [ | z q ] ] ]; try discriminate.
    simpl in Htx, Hty. congruence. }
  assert (Eu : [pos_x; pos_y] = u) by (unfold u; congruence).
  rewrite En in Hd, Hpn. rewrite Eu in Hd, Hp.
  pose proof Hd as Hd'. rewrite euclidean_2d in Hd' by reflexivity.
  destruct (forallb (fisfinite A) (difference u v)); [ | discriminate ].
  injection Hd' as Hd'.
  split; [ exact Hd | ]. split; [ reflexivity | ]. split; [ now symmetry | ].
  split; [ exact Hw | ]. split; [ lia | ].
  exists i, n, filename, neighbor_path. repeat split; assumption.
Qed.

Lemma edge_fields_witness :
  euclidean (A := float64) [0; 0]%float [1; 0]%float = Ok (distance one_edge) /\
  weight one_edge = (1 / (distance one_edge + 0x1.4f8b588e368f1p-17))%float.
Proof.
  assert (Hok : exists edges,
             snd (extract_network_data argsort_stable64 four_points four_names 2)
             = Ok (Some edges) /\ In one_edge edges).
  { eexists. split; [ vm_compute; reflexivity | ]. left. reflexivity. }
  destruct Hok as (edges & Hok & He).
  destruct (@edge_fields float64 argsort_stable64 four_points four_names 2%Z
              edges one_edge Hok He) as (Hd & _ & _ & Hw & _).
  split; [ exact Hd | exact Hw ].
Defined.

(** C5 as stated fails.  Two points whose coordinates and whose difference
    are finite, (0,0) and (1.5e308,1.5e308): the norm of the difference
    overflows, the distance of the edges is infinite and their weight is
    0.  (At distance 0 the weight is positive.) *)
Lemma weight_vanishes_when_norm_overflows :
  let positions := [[0; 0]; [0x1.ab36d48e1acf0p+1023; 0x1.ab36d48e1acf0p+1023]]%float
                   : list (point float64) in
  PrimFloat.ltb 0%float (weight_of float64 0%float) = true /\
  differences_finite positions = true /\
  match snd (extract_network_data argsort_stable64 positions
                                  ["a.jpg"; "b.jpg"]%string 1) with
  | Ok (Some edges) => map (fun e => (source e, target e, distance e, weight e)) edges
  | _ => []
  end = [("a.jpg", "b.jpg", infinity, 0%float);
         ("b.jpg", "a.jpg", infinity, 0%float)]%string.
Proof. repeat split; vm_compute; reflexivity. Qed.

(** ** Ranks and distances per source *)

Lemma filter_none {Y : Type} (P : Y -> bool) (l : list Y) :
  (forall y, In y l -> P y = false) -> filter P l = [].
Proof.
  induction l as [ | y l IH ]; intros H; simpl; [ reflexivity | ].
  rewrite (H y (or_introl eq_refl)). apply IH. intros; apply H; now right.
Qed.

Lemma filter_all {Y : Type} (P : Y -> bool) (l : list Y) :
  (forall y, In y l -> P y = true) -> filter P l = l.
Proof.
  induction l as [ | y l IH ]; intros H; simpl; [ reflexivity | ].
  rewrite (H y (or_introl eq_refl)). f_equal. apply IH. intros; apply H; now right.
Qed.

Lemma filter_concat_none {Y : Type} (P : Y -> bool) (f : nat -> list Y)
      (l : list nat) :
  (forall j y, In j l -> In y (f j) -> P y = false) ->
  filter P (concat (map f l)) = [].
Proof.
  induction l as [ | j l IH ]; intros H; simpl; [ reflexivity | ].
  rewrite filter_app, IH by (intros j' y Hj'; apply H; now right).
  rewrite app_nil_r. apply filter_none. intros y. apply H. now left.
Qed.

Lemma filter_concat_map_unique {Y : Type} (P : Y -> bool) (f : nat -> list Y)
      (l : list nat) (i : nat) :
  NoDup l -> In i l ->
  (forall y, In y (f i) -> P y = true) ->
  (forall j y, In j l -> j <> i -> In y (f j) -> P y = false) ->
  filter P (concat (map f l)) = f i.
Proof.
  intros Hnd. induction Hnd as [ | j l Hj Hnd IH ]; intros Hi Hyes Hno.
  - destruct Hi.
  - simpl. rewrite filter_app. destruct (Nat.eq_dec j i) as [ -> | Hne ].
    + rewrite filter_all by exact Hyes.
      rewrite filter_concat_none; [ apply app_nil_r | ].
      intros j' y Hj' Hy. apply (Hno j' y); [ now right | | exact Hy ].
      intros ->. contradiction.
    + rewrite filter_none by (intros y; apply Hno; [ now left | exact Hne ]).
      simpl. apply IH.
      * destruct Hi as [ Hi | Hi ]; [ contradiction | exact Hi ].
      * exact Hyes.
      * intros j' y Hj'. apply Hno. now right.
Qed.

Lemma map_rank_block (A : Arith) (positions : list (point A))
      (image_filenames : list string) (i start : nat) (l : list nat) :
  map (@rank A) (map_enumerate (edge_of positions image_filenames i) start l)
  = seq (start + 1) (length l).
Proof.
  revert start. induction l as [ | n l IH ]; intros start; simpl;
    [ reflexivity | ].
  f_equal. rewrite IH. reflexivity.
Qed.

Lemma nth_error_block (A : Arith) (positions : list (point A))
      (image_filenames : list string) (neighbors : list (list nat))
      (i a : nat) (e : edge A) :
  nth_error (block_of positions image_filenames neighbors i) a = Some e ->
  exists n, nth_error (nth i neighbors []) a = Some n /\
            e = edge_of positions image_filenames i a n.
Proof.
  unfold block_of. rewrite nth_error_map_enumerate. intros H.
  destruct (nth_error (nth i neighbors []) a) as [ n | ]; [ | discriminate ].
  exists n. split; [ reflexivity | ]. simpl in H. congruence.
Qed.

Lemma source_block (A : Arith) (positions : list (point A))
      (image_filenames : list string) (neighbors : list (list nat))
      (i : nat) (e : edge A) :
  In e (block_of positions image_filenames neighbors i) ->
  source e = basename (nth i image_filenames ""%string).
Proof.
  intros H. apply In_nth_error in H. destruct H as [a Ha].
  apply nth_error_block in Ha. destruct Ha as (n & _ & ->). reflexivity.
Qed.

Lemma edges_of_source (A : Arith) (positions : list (point A))
      (image_filenames : list string) (neighbors : list (list nat)) (i : nat) :
  NoDup (map basename image_filenames) ->
  i < length image_filenames ->
  filter (fun e => String.eqb (source e) (basename (nth i image_filenames ""%string)))
         (concat (blocks_of positions image_filenames neighbors))
  = block_of positions image_filenames neighbors i.
Proof.
  intros Hnd Hi. unfold blocks_of.
  apply filter_concat_map_unique.
  - apply seq_NoDup.
  - apply in_seq. lia.
  - intros e He. rewrite (source_block _ _ _ _ _ He). apply String.eqb_refl.
  - intros j e Hj Hne He. rewrite (source_block _ _ _ _ _ He).
    apply String.eqb_neq. intros E. apply Hne.
    apply in_seq in Hj.
    rewrite (NoDup_nth (map basename image_filenames) ""%string) in Hnd.
    apply Hnd.
    + rewrite length_map. lia.
    + rewrite length_map. lia.
    + change ""%string with (basename ""%string). now rewrite !map_nth.
Qed.

(** ** The edges of a run that returns *)

Lemma for_enumerate_determined {X Y : Type} (f : nat -> X -> result Y)
      (g : nat -> X -> Y) (start : nat) (l : list X) (ys : list Y) :
  for_enumerate f start l = Ok ys ->
  (forall j x y, nth_error l j = Some x -> f (start + j) x = Ok y ->
                 y = g (start + j) x) ->
  ys = map_enumerate g start l.
Proof.
  revert start ys. induction l as [ | a l IH ]; intros start ys; simpl.
  - intros H _. now injection H as <-.
  - destruct (f start a) as [ y | e ] eqn:E; [ | discriminate ]. cbn [bind].
    destruct (for_enumerate f (S start) l) as [ ys' | e ] eqn:E'; [ | discriminate ].
    cbn [bind]. intros H Hg. injection H as <-. f_equal.
    + specialize (Hg 0 a y eq_refl). rewrite Nat.add_0_r in Hg. now apply Hg.
    + apply IH; [ exact E' | ].
      intros j x y' Hx Hf. specialize (Hg (S j) x y' Hx).
      rewrite Nat.add_succ_r in Hg. now apply Hg.
Qed.

(** A row that was built is the edge of its image and its neighbour. *)
Lemma make_row_edge_of (A : Arith) (positions : list (point A))
      (image_filenames : list string) (i j neighbor_idx : nat)
      (pos_x pos_y : fnum A) (e : edge A) :
  nth_error positions i = Some [pos_x; pos_y] ->
  make_row positions image_filenames (basename (nth i image_filenames ""%string))
           [pos_x; pos_y] pos_x pos_y j neighbor_idx = Ok e ->
  e = edge_of positions image_filenames i j neighbor_idx /\
  is_2d (nth neighbor_idx positions []) /\
  forallb (fisfinite A)
          (difference (nth i positions []) (nth neighbor_idx positions [])) = true.
Proof.
  intros Hp Hrow. apply make_row_inv in Hrow.
  destruct Hrow as (neighbor_path & pos_n & Hfn & Hpn & Hd & Htx & Hty
                    & Hs & Ht & Hw & Hr & Hsx & Hsy).
  assert (Ei : nth i positions [] = [pos_x; pos_y])
    by (now apply nth_error_nth).
  assert (En : nth neighbor_idx positions [] = pos_n)
    by (now apply nth_error_nth).
  assert (Ef : nth neighbor_idx image_filenames ""%string = neighbor_path)
    by (now apply nth_error_nth).
  assert (Ln : length pos_n = 2).
  { destruct (euclidean_lengths _ _ Hd) as [ E | [ E | E ] ].
    - now rewrite <- E.
    - discriminate.
    - destruct pos_n as [ | tx [ | ty q ] ]; discriminate. }
  destruct pos_n as [ | tx [ | ty [ | z q ] ] ]; try discriminate.
  simpl in Htx, Hty. injection Htx as Htx. injection Hty as Hty.
  rewrite euclidean_2d in Hd by reflexivity.
  destruct (forallb (fisfinite A) (difference [pos_x; pos_y] [tx; ty])) eqn:Efin;
    [ | discriminate ].
  injection Hd as Hd.
  unfold edge_of. rewrite Ei, En, Ef. unfold coord. cbn [nth].
  split; [ | split; [ reflexivity | exact Efin ] ].
  destruct e as [ s t w d r sx sy tx' ty' ]. simpl in *.
  subst. reflexivity.
Qed.

Lemma rows_of_image_block_of (A : Arith) (positions : list (point A))
      (image_filenames : list string) (neighbors : list (list nat))
      (i : nat) (block : list (edge A)) :
  rows_of_image positions image_filenames neighbors i
                (nth i image_filenames ""%string) = Ok block ->
  block = block_of positions image_filenames neighbors i /\
  is_2d (nth i positions []).
Proof.
  intros H. apply rows_of_image_inv in H.
  destruct H as (neighbor_indices & pos_x & pos_y & Hn & Hp & Hloop).
  assert (Ei : nth i positions [] = [pos_x; pos_y]) by (now apply nth_error_nth).
  assert (En : nth i neighbors [] = neighbor_indices) by (now apply nth_error_nth).
  split; [ | now rewrite Ei ].
  unfold block_of. rewrite En.
  apply (for_enumerate_determined _ _ _ _ Hloop).
  intros j n e _ Hrow. simpl in Hrow |- *.
  now apply (make_row_edge_of _ _ _ _ _ Hp Hrow).
Qed.

Lemma network_rows_blocks_of (A : Arith) (positions : list (point A))
      (image_filenames : list string) (neighbors : list (list nat))
      (edges : list (edge A)) :
  network_rows positions image_filenames neighbors = Ok edges ->
  edges = concat (blocks_of positions image_filenames neighbors).
Proof.
  unfold network_rows.
  destruct (for_enumerate _ 0 image_filenames) as [ blocks | ] eqn:E;
    [ | discriminate ].
  cbn [bind]. intros H. injection H as <-. f_equal. unfold blocks_of.
  rewrite <- map_enumerate_const.
  apply (for_enumerate_determined _ _ _ _ E).
  intros i filename block Hf Hrows. simpl in Hrows |- *.
  rewrite <- (nth_error_nth _ _ ""%string Hf) in Hrows.
  now apply rows_of_image_block_of.
Qed.

(** The edges that a run returns are the expected ones. *)
Lemma extract_returns_expected (A : Arith) (argsort : list (fnum A) -> list nat)
      (positions : list (point A)) (image_filenames : list string) (k : Z)
      (edges : list (edge A)) :
  snd (extract_network_data argsort positions image_filenames k) = Ok (Some edges) ->
  image_filenames <> [] /\
  is_matrix positions = true /\
  edges = expected_edges argsort positions image_filenames k.
Proof.
  intros H. apply extract_inv in H. destruct H as (Hf & Hmat & Hrows).
  split; [ exact Hf | ]. split; [ exact Hmat | ].
  now apply network_rows_blocks_of.
Qed.

Lemma map_target_block (A : Arith) (positions : list (point A))
      (image_filenames : list string) (i start : nat) (l : list nat) :
  map (@target A) (map_enumerate (edge_of positions image_filenames i) start l)
  = map (fun n => basename (nth n image_filenames ""%string)) l.
Proof.
  revert start. induction l as [ | n l IH ]; intros start; simpl;
    [ reflexivity | ].
  f_equal. apply IH.
Qed.

(** C4 as the code has it.  When the base names of the images are pairwise
    distinct, the edges of one source, in a run that returns edges, are the
    rows of one image: in the order of emission their ranks are 1, 2, ...,
    L, where L is the length of that image's neighbour list, their targets
    are the neighbours in the order of the list, and the entries of the
    distance matrix by which the neighbours were ranked do not decrease.
    (The distance and the weight written on the edges come from another
    routine and need not follow that order.) *)
Theorem ranks_per_source (A : Arith) (argsort : list (fnum A) -> list nat)
        (positions : list (point A)) (image_filenames : list string) (k : Z)
        (edges : list (edge A)) :
  argsort_permutes A argsort ->
  let positions' := common_positions positions image_filenames in
  let image_filenames' := common_filenames positions image_filenames in
  (forall i, i < length positions' ->
             argsort_ascending A argsort (distance_row positions' i)) ->
  NoDup (map basename image_filenames') ->
  snd (extract_network_data argsort positions image_filenames k) = Ok (Some edges) ->
  exists neighbors,
    find_nearest_neighbors argsort positions' k = Ok neighbors /\
    forall i, i < length image_filenames' ->
      let id := basename (nth i image_filenames' ""%string) in
      let from_id := filter (fun e => String.eqb (source e) id) edges in
      let ranked := nth i neighbors [] in
      map (@rank A) from_id = seq 1 (length ranked) /\
      map (@target A) from_id
      = map (fun n => basename (nth n image_filenames' ""%string)) ranked /\
      forall a b na nb,
        a < b ->
        nth_error ranked a = Some na ->
        nth_error ranked b = Some nb ->
        fle A (cdist_euclidean (nth i positions' []) (nth na positions' []))
              (cdist_euclidean (nth i positions' []) (nth nb positions' [])).
Proof.
  intros Hperm positions' image_filenames' Hasc Hnd Hok.
  apply extract_returns_expected in Hok. destruct Hok as (Hf & Hmat & ->).
  exists (neighbor_lists argsort positions' k).
  split; [ now apply find_nearest_neighbors_ok, common_positions_matrix | ].
  intros i Hi id from_id ranked. subst id from_id ranked. unfold expected_edges.
  fold positions' image_filenames'.
  rewrite edges_of_source by assumption.
  assert (Hi' : i < length positions').
  { unfold positions'. rewrite length_common_positions.
    unfold image_filenames' in Hi. now rewrite length_common_filenames in Hi. }
  split; [ apply map_rank_block | ]. split; [ apply map_target_block | ].
  intros a b na nb Hab Ha Hb.
  rewrite nth_neighbor_lists in Ha, Hb by exact Hi'.
  apply nth_error_py_slice_from_1 in Ha, Hb.
  pose proof (argsort_row_in_range Hperm _ _ _ Ha) as Ra.
  pose proof (argsort_row_in_range Hperm _ _ _ Hb) as Rb.
  rewrite <- !(key_distance_row positions' i) by assumption.
  apply (Hasc i Hi' (S a) (S b)); [ lia | assumption | assumption ].
Qed.

Lemma ranks_per_source_witness :
  exists edges neighbors,
    snd (extract_network_data argsort_stable64 four_points four_names 2)
    = Ok (Some edges) /\
    find_nearest_neighbors argsort_stable64 four_points 2 = Ok neighbors /\
    map (@rank float64) (filter (fun e => String.eqb (source e) "a.jpg") edges)
    = seq 1 (length (nth 0 neighbors [])).
Proof.
  assert (Hok : exists edges,
             snd (extract_network_data argsort_stable64 four_points four_names 2)
             = Ok (Some edges)).
  { eexists. vm_compute. reflexivity. }
  destruct Hok as (edges & Hok).
  destruct (@ranks_per_source float64 argsort_stable64 four_points four_names 2%Z
              edges argsort_stable64_permutes four_points_rows_ascending)
    as (neighbors & Hn & Hall).
  - simpl. repeat constructor; simpl; intuition discriminate.
  - exact Hok.
  - exists edges, neighbors. split; [ exact Hok | ]. split; [ exact Hn | ].
    assert (H0 : 0 < 4) by lia.
    exact (proj1 (Hall 0 H0)).
Defined.

(** C4 as stated fails, twice.  Two images whose paths end in the same base
    name are one source: its edges carry the ranks of both images.  And
    the distance written on an edge is not the one the neighbours were
    ranked by: of three points on a line, 3e200 and 2e200 away from the
    first, the squared differences overflow, both entries of the distance
    matrix are infinite and, sorted or not, stay in the order of the
    indices, so that the edges of the first image carry the distances
    3e200 and then 2e200, and weights that increase. *)
Lemma ranks_repeat_and_distances_decrease :
  (let positions := [[0; 0]; [1; 0]]%float : list (point float64) in
   let image_filenames := ["a/x.jpg"; "b/x.jpg"]%string in
   find_nearest_neighbors argsort_stable64 positions 1 = Ok [[1]; [0]] /\
   match snd (extract_network_data argsort_stable64 positions image_filenames 1) with
   | Ok (Some edges) =>
       map (@rank float64) (filter (fun e => String.eqb (source e) "x.jpg") edges)
   | _ => []
   end = [1; 1] /\
   forall L, [1; 1] <> seq 1 L) /\
  (let image_filenames := ["a.jpg"; "b.jpg"; "c.jpg"]%string in
   distance_row far_points 0 = [0%float; infinity; infinity] /\
   argsort_stable64 (distance_row far_points 0) = [0; 1; 2] /\
   argsort_network64 (distance_row far_points 0) = [0; 1; 2] /\
   exists w1 w2,
     match snd (extract_network_data argsort_stable64 far_points image_filenames 2) with
     | Ok (Some edges) =>
         map (fun e => (rank e, distance e, weight e))
             (filter (fun e => String.eqb (source e) "a.jpg") edges)
     | _ => []
     end = [(1, 0x1.f5aa543c31387p+665%float, w1);
            (2, 0x1.4e718d7d7625ap+665%float, w2)] /\
     PrimFloat.ltb 0x1.4e718d7d7625ap+665 0x1.f5aa543c31387p+665 = true /\
     PrimFloat.ltb w1 w2 = true).
Proof.
  split.
  - split; [ vm_compute; reflexivity | ].
    split; [ vm_compute; reflexivity | ].
    intros [ | [ | [ | L ] ] ]; discriminate.
  - split; [ vm_compute; reflexivity | ].
    split; [ vm_compute; reflexivity | ].
    split; [ vm_compute; reflexivity | ].
    eexists. eexists. split; [ vm_compute; reflexivity | ].
    split; vm_compute; reflexivity.
Qed.

(** ** Dictionaries *)

Section DictFacts.

Variable V : Type.

Lemma dict_get_set_same (d : dict V) (k : string) (v : V) :
  dict_get (dict_set d k v) k = Some v.
Proof.
  induction d as [ | [k' v'] d IH ]; simpl.
  - now rewrite String.eqb_refl.
  - destruct (String.eqb_spec k' k) as [ -> | Hne ]; simpl.
    + now rewrite String.eqb_refl.
    + destruct (String.eqb_spec k' k); [ contradiction | exact IH ].
Qed.

Lemma dict_get_set_other (d : dict V) (k k' : string) (v : V) :
  k <> k' -> dict_get (dict_set d k v) k' = dict_get d k'.
Proof.
  intros Hne. induction d as [ | [k0 v0] d IH ]; simpl.
  - destruct (String.eqb_spec k k'); [ contradiction | reflexivity ].
  - destruct (String.eqb_spec k0 k) as [ -> | Hk0 ]; simpl.
    + destruct (String.eqb_spec k k'); [ contradiction | reflexivity ].
    + destruct (String.eqb_spec k0 k'); [ reflexivity | exact IH ].
Qed.

Lemma dict_get_None (d : dict V) (k : string) :
  dict_get d k = None <-> ~ In k (dict_keys d).
Proof.
  induction d as [ | [k' v'] d IH ]; simpl.
  - intuition.
  - destruct (String.eqb_spec k' k) as [ -> | Hne ].
    + split; [ discriminate | intros H; exfalso; apply H; now left ].
    + rewrite IH. intuition.
Qed.

Lemma dict_mem_In (d : dict V) (k : string) :
  dict_mem d k = true <-> In k (dict_keys d).
Proof.
  unfold dict_mem. pose proof (dict_get_None d k) as H.
  destruct (dict_get d k).
  - split; [ intros _ | reflexivity ].
    destruct (in_dec string_dec k (dict_keys d)) as [ Hin | Hout ];
      [ exact Hin | ].
    apply H in Hout. discriminate.
  - split; [ discriminate | ]. intros Hin. exfalso. now apply (proj1 H).
Qed.

Lemma dict_keys_set_new (d : dict V) (k : string) (v : V) :
  ~ In k (dict_keys d) -> dict_keys (dict_set d k v) = dict_keys d ++ [k].
Proof.
  induction d as [ | [k' v'] d IH ]; simpl; intros Hout; [ reflexivity | ].
  destruct (String.eqb_spec k' k) as [ -> | Hne ]; simpl.
  - exfalso. apply Hout. now left.
  - f_equal. apply IH. intuition.
Qed.

End DictFacts.

Lemma first_occurrence_occurs (A : Arith) (network_data : list (edge A))
      (id : string) :
  occurs network_data id <-> exists xy, first_occurrence network_data id = Some xy.
Proof.
  induction network_data as [ | r rest IH ]; simpl.
  - split; [ intros (r & [] & _) | intros (xy & H); discriminate ].
  - destruct (String.eqb_spec (source r) id) as [ Hs | Hs ].
    { split; [ eauto | ]. intros _. exists r. split; [ now left | now left ]. }
    destruct (String.eqb_spec (target r) id) as [ Ht | Ht ].
    { split; [ eauto | ]. intros _. exists r. split; [ now left | now right ]. }
    rewrite <- IH. split.
    + intros (r' & [ <- | Hin ] & Hr'); [ tauto | ]. exists r'. tauto.
    + intros (r' & Hin & Hr'). exists r'. split; [ now right | exact Hr' ].
Qed.

(** ** The node table *)

Section NodeFacts.

Local Set Default Proof Using "Type".

Variable A : Arith.
Variable path_exists : string -> bool.
Variable metadata : dict (dict (value A)).
Variable data_dir : string.
Variable include_thumbs : bool.

Abbreviation new_node' := (new_node A path_exists data_dir include_thumbs).
Abbreviation add_node' := (add_node path_exists data_dir include_thumbs).

Abbreviation collect_from' := (collect_from path_exists data_dir include_thumbs).

Lemma new_node_fields (id : string) (x y : fnum A) :
  dict_get (new_node' id x y) "id" = Some (VStr id) /\
  dict_get (new_node' id x y) "x" = Some (VNum x) /\
  dict_get (new_node' id x y) "y" = Some (VNum y).
Proof. unfold new_node. destruct include_thumbs; repeat split. Qed.

Lemma dict_get_add_node (nodes : dict (dict (value A))) (id id' : string)
      (x y : fnum A) :
  dict_get (add_node' nodes id x y) id'
  = match dict_get nodes id' with
    | Some node => Some node
    | None => if String.eqb id id' then Some (new_node' id x y) else None
    end.
Proof.
  unfold add_node, dict_mem.
  destruct (dict_get nodes id) as [ node | ] eqn:E.
  - destruct (dict_get nodes id') eqn:E'; [ reflexivity | ].
    destruct (String.eqb_spec id id'); [ congruence | reflexivity ].
  - destruct (String.eqb_spec id id') as [ <- | Hne ].
    + rewrite dict_get_set_same, E. reflexivity.
    + rewrite dict_get_set_other by exact Hne.
      now destruct (dict_get nodes id').
Qed.

Lemma NoDup_keys_add_node (nodes : dict (dict (value A))) (id : string)
      (x y : fnum A) :
  NoDup (dict_keys nodes) -> NoDup (dict_keys (add_node' nodes id x y)).
Proof.
  intros H. unfold add_node.
  destruct (dict_mem nodes id) eqn:E; [ exact H | ].
  assert (Hout : ~ In id (dict_keys nodes)).
  { intros Hin. apply dict_mem_In in Hin. congruence. }
  rewrite dict_keys_set_new by exact Hout.
  apply NoDup_app; [ exact H | repeat constructor; intros [] | ].
  intros k Hk [ <- | [] ]. contradiction.
Qed.

Lemma dict_get_collect_from (network_data : list (edge A))
      (nodes : dict (dict (value A))) (id : string) :
  dict_get (collect_from' nodes network_data) id
  = match dict_get nodes id with
    | Some node => Some node
    | None => option_map (fun xy => new_node' id (fst xy) (snd xy))
                         (first_occurrence network_data id)
    end.
Proof.
  revert nodes. induction network_data as [ | r rest IH ]; intros nodes.
  - simpl. now destruct (dict_get nodes id).
  - unfold collect_from. simpl fold_left. fold (collect_from'
      (add_node' (add_node' nodes (source r) (source_x r) (source_y r))
                 (target r) (target_x r) (target_y r)) rest).
    rewrite IH, !dict_get_add_node. simpl first_occurrence.
    destruct (dict_get nodes id); [ reflexivity | ].
    destruct (String.eqb_spec (source r) id) as [ <- | Hs ]; [ reflexivity | ].
    destruct (String.eqb_spec (target r) id) as [ <- | Ht ]; reflexivity.
Qed.

Lemma NoDup_keys_collect_from (network_data : list (edge A))
      (nodes : dict (dict (value A))) :
  NoDup (dict_keys nodes) -> NoDup (dict_keys (collect_from' nodes network_data)).
Proof.
  revert nodes. induction network_data as [ | r rest IH ]; intros nodes H.
  - exact H.
  - apply IH. now do 2 apply NoDup_keys_add_node.
Qed.

Lemma dict_keys_add_metadata (nodes : dict (dict (value A))) :
  dict_keys (add_metadata metadata nodes) = dict_keys nodes.
Proof.
  unfold add_metadata, dict_keys. rewrite map_map. apply map_ext.
  intros [id node]. simpl. now destruct (dict_get metadata id).
Qed.

Lemma dict_get_add_metadata (nodes : dict (dict (value A))) (id : string) :
  dict_get (add_metadata metadata nodes) id
  = option_map (fun node => match dict_get metadata id with
                            | Some md => merge_metadata node md
                            | None => node
                            end)
               (dict_get nodes id).
Proof.
  induction nodes as [ | [id' node] nodes IH ]; simpl; [ reflexivity | ].
  destruct (dict_get metadata id') eqn:E; simpl;
    destruct (String.eqb_spec id' id) as [ <- | Hne ]; simpl;
    try rewrite E; try reflexivity; exact IH.
Qed.

Lemma dict_get_merge_metadata (node md : dict (value A)) (k : string) :
  ~ In k (dict_keys md) ->
  dict_get (merge_metadata node md) k = dict_get node k.
Proof.
  unfold merge_metadata. revert node.
  induction md as [ | [k' v] md IH ]; intros node Hout; simpl; [ reflexivity | ].
  simpl in Hout. rewrite IH by (intros H; apply Hout; now right).
  destruct (String.eqb k' "filename"); [ reflexivity | ].
  apply dict_get_set_other. intros ->. apply Hout. now left.
Qed.

End NodeFacts.

Lemma build_nodes_get (A : Arith) (path_exists : string -> bool)
      (metadata : dict (dict (value A))) (data_dir : string)
      (include_thumbs : bool) (network_data : list (edge A)) (id : string) :
  dict_get (build_nodes path_exists metadata data_dir include_thumbs network_data) id
  = option_map
      (fun xy =>
         let node := new_node A path_exists data_dir include_thumbs id (fst xy) (snd xy) in
         match dict_get metadata id with
         | Some md => merge_metadata node md
         | None => node
         end)
      (first_occurrence network_data id).
Proof.
  unfold build_nodes, collect_nodes. rewrite dict_get_add_metadata.
  rewrite dict_get_collect_from. simpl.
  now destruct (first_occurrence network_data id).
Qed.

Lemma NoDup_keys_build_nodes (A : Arith) (path_exists : string -> bool)
      (metadata : dict (dict (value A))) (data_dir : string)
      (include_thumbs : bool) (network_data : list (edge A)) :
  NoDup (dict_keys (build_nodes path_exists metadata data_dir include_thumbs
                                network_data)).
Proof.
  unfold build_nodes. rewrite dict_keys_add_metadata.
  unfold collect_nodes. apply NoDup_keys_collect_from. constructor.
Qed.

Lemma In_keys_build_nodes (A : Arith) (path_exists : string -> bool)
      (metadata : dict (dict (value A))) (data_dir : string)
      (include_thumbs : bool) (network_data : list (edge A)) (id : string) :
  In id (dict_keys (build_nodes path_exists metadata data_dir include_thumbs
                                network_data))
  <-> occurs network_data id.
Proof.
  rewrite first_occurrence_occurs.
  pose proof (dict_get_None
                (build_nodes path_exists metadata data_dir include_thumbs
                             network_data) id) as Hnone.
  rewrite build_nodes_get in Hnone.
  destruct (first_occurrence network_data id) as [ xy | ]; simpl in Hnone.
  - split; [ eauto | intros _ ].
    destruct (in_dec string_dec id
                (dict_keys (build_nodes path_exists metadata data_dir
                                        include_thumbs network_data)))
      as [ Hin | Hout ]; [ exact Hin | ].
    apply Hnone in Hout. discriminate.
  - split; [ | intros (xy & H); discriminate ].
    intros Hin. exfalso. now apply (proj1 Hnone).
Qed.

(** C7 as the code has it.  The node dictionary has one entry per identifier
    that occurs as a source or a target, and no other, and the node table
    has one record per entry.  The entry is seeded with the identifier and
    the coordinates of its first occurrence, a row's source before its
    target; then the metadata of the identifier is merged into it, and a
    metadata field named id, x or y replaces the seeded one.  Without such
    a field the record shows the first occurrence. *)
Theorem node_per_identifier (A : Arith) (set_order : list string -> list string)
        (path_exists : string -> bool)
        (metadata : dict (dict (value A))) (data_dir : string)
        (include_thumbs : bool) (network_data : list (edge A)) (id : string) :
  let nodes := build_nodes path_exists metadata data_dir include_thumbs network_data in
  NoDup (dict_keys nodes) /\
  (In id (dict_keys nodes) <-> occurs network_data id) /\
  (network_data <> [] ->
   exists tbl,
     create_node_csv set_order path_exists metadata data_dir include_thumbs
                     network_data = (true, Some tbl) /\
     length (records tbl) = length (dict_keys nodes)) /\
  (occurs network_data id ->
   exists x y node,
     first_occurrence network_data id = Some (x, y) /\
     dict_get nodes id = Some node /\
     (no_field metadata id "id" -> dict_get node "id" = Some (VStr id)) /\
     (no_field metadata id "x" -> dict_get node "x" = Some (VNum x)) /\
     (no_field metadata id "y" -> dict_get node "y" = Some (VNum y))).
Proof.
  intros nodes. split; [ | split; [ | split ] ].
  - apply NoDup_keys_build_nodes.
  - apply In_keys_build_nodes.
  - intros Hne. destruct network_data as [ | r rest ]; [ contradiction | ].
    eexists. split; [ reflexivity | ].
    simpl. unfold dict_values, dict_keys. now rewrite !length_map.
  - intros Hocc. apply first_occurrence_occurs in Hocc.
    destruct Hocc as ([x y] & Hfirst).
    unfold nodes. rewrite build_nodes_get, Hfirst. simpl.
    pose proof (@new_node_fields A path_exists data_dir include_thumbs id x y)
      as (Fid & Fx & Fy).
    exists x, y. eexists. split; [ reflexivity | ]. split; [ reflexivity | ].
    unfold no_field.
    destruct (dict_get metadata id) as [ md | ].
    + repeat split; intros H; rewrite dict_get_merge_metadata by (now apply H);
        assumption.
    + repeat split; intros _; assumption.
Qed.

Lemma node_per_identifier_witness :
  exists x y node,
    first_occurrence [one_edge] "b.jpg" = Some (x, y) /\
    dict_get (build_nodes (fun _ => false) [] "out" true [one_edge]) "b.jpg"
    = Some node /\
    dict_get node "x" = Some (VNum x) /\
    dict_get node "y" = Some (VNum y).
Proof.
  pose proof (@node_per_identifier float64 insertion_order (fun _ => false) []
                "out"%string true [one_edge] "b.jpg"%string) as (_ & _ & _ & H).
  destruct H as (x & y & node & Hfirst & Hget & _ & Hx & Hy).
  - exists one_edge. split; [ now left | now right ].
  - exists x, y, node. repeat split; try assumption.
    + apply Hx. intros md Hmd. discriminate.
    + apply Hy. intros md Hmd. discriminate.
Defined.

(** C7 as stated fails.  The metadata of a.jpg has a field named x: the
    record of a.jpg shows that field, not the coordinate 0 of the first
    occurrence of a.jpg. *)
Lemma metadata_field_replaces_coordinate :
  let metadata := [("a.jpg", [("x", VStr "left")])]%string
                  : dict (dict (value float64)) in
  first_occurrence [one_edge] "a.jpg" = Some (0%float, 0%float) /\
  exists node,
    dict_get (build_nodes (fun _ => false) metadata "out" false [one_edge]) "a.jpg"
    = Some node /\
    dict_get node "x" = Some (VStr "left") /\
    dict_get node "x" <> Some (@VNum float64 0%float).
Proof.
  split; [ reflexivity | ].
  eexists. split; [ vm_compute; reflexivity | ].
  split; [ reflexivity | discriminate ].
Qed.

(** ** Sorted headers *)

Lemma ascii_compare_refl (a : ascii) : Ascii.compare a a = Eq.
Proof. unfold Ascii.compare. apply N.compare_refl. Qed.

Lemma ascii_compare_lt_trans (a b c : ascii) :
  Ascii.compare a b = Lt -> Ascii.compare b c = Lt -> Ascii.compare a c = Lt.
Proof.
  unfold Ascii.compare. rewrite !N.compare_lt_iff. apply N.lt_trans.
Qed.

Lemma string_leb_trans (s1 s2 s3 : string) :
  String.leb s1 s2 = true -> String.leb s2 s3 = true -> String.leb s1 s3 = true.
Proof.
  unfold String.leb. revert s2 s3.
  induction s1 as [ | a s1 IH ]; intros [ | b s2 ] [ | c s3 ]; simpl;
    try reflexivity; try discriminate.
  destruct (Ascii.compare a b) eqn:Eab; try discriminate;
    destruct (Ascii.compare b c) eqn:Ebc; try discriminate.
  - apply Ascii.compare_eq_iff in Eab, Ebc. subst.
    rewrite ascii_compare_refl. apply IH.
  - apply Ascii.compare_eq_iff in Eab. subst. now rewrite Ebc.
  - apply Ascii.compare_eq_iff in Ebc. subst. now rewrite Eab.
  - now rewrite (ascii_compare_lt_trans _ _ _ Eab Ebc).
Qed.

Lemma string_leb_neq_ltb (s t : string) :
  String.leb s t = true -> s <> t -> String.ltb s t = true.
Proof.
  unfold String.leb, String.ltb. destruct (String.compare s t) eqn:E;
    try reflexivity; try discriminate.
  intros _ Hne. apply String.compare_eq_iff in E. contradiction.
Qed.

Lemma insert_string_perm (s : string) (l : list string) :
  Permutation (insert_string s l) (s :: l).
Proof.
  induction l as [ | t l IH ]; simpl.
  - apply Permutation_refl.
  - destruct (String.leb s t).
    + apply Permutation_refl.
    + eapply perm_trans; [ apply perm_skip, IH | apply perm_swap ].
Qed.

Lemma sorted_perm (l : list string) : Permutation (sorted l) l.
Proof.
  induction l as [ | s l IH ]; simpl.
  - apply perm_nil.
  - eapply perm_trans; [ apply insert_string_perm | apply perm_skip, IH ].
Qed.

Lemma insert_string_sorted (s : string) (l : list string) :
  StronglySorted leb_order l -> StronglySorted leb_order (insert_string s l).
Proof.
  intros Hs. induction Hs as [ | t l Hs IH Ht ]; simpl.
  - constructor; constructor.
  - destruct (String.leb s t) eqn:E.
    + constructor; [ constructor; assumption | ].
      constructor; [ exact E | ].
      rewrite Forall_forall in *. intros u Hu.
      eapply string_leb_trans; [ exact E | now apply Ht ].
    + constructor; [ exact IH | ].
      apply (Permutation_Forall (Permutation_sym (insert_string_perm s l))).
      constructor; [ | exact Ht ].
      destruct (String.leb_total s t) as [ H | H ]; [ congruence | exact H ].
Qed.

Lemma sorted_sorted (l : list string) : StronglySorted leb_order (sorted l).
Proof.
  induction l as [ | s l IH ]; simpl;
    [ constructor | now apply insert_string_sorted ].
Qed.

(** Two ascending lists with the same elements are the same list. *)
Lemma sorted_unique (l1 l2 : list string) :
  StronglySorted leb_order l1 -> StronglySorted leb_order l2 ->
  Permutation l1 l2 -> l1 = l2.
Proof.
  intros H1. revert l2. induction H1 as [ | a l1 H1 IH Ha ]; intros l2 H2 Hp.
  - apply Permutation_nil in Hp. now subst.
  - destruct H2 as [ | b l2 H2 Hb ].
    + apply Permutation_sym, Permutation_nil in Hp. discriminate.
    + assert (Eab : a = b).
      { assert (Hin_a : In a (b :: l2))
          by (apply (Permutation_in _ Hp); now left).
        assert (Hin_b : In b (a :: l1))
          by (apply (Permutation_in _ (Permutation_sym Hp)); now left).
        destruct Hin_a as [ E | Hin_a ]; [ now subst | ].
        destruct Hin_b as [ E | Hin_b ]; [ now subst | ].
        rewrite Forall_forall in Ha, Hb.
        apply String.leb_antisym; [ now apply Ha | now apply Hb ]. }
      subst b. f_equal. apply IH; [ exact H2 | ].
      eapply Permutation_cons_inv; exact Hp.
Qed.

Lemma sorted_of_perm (l1 l2 : list string) :
  Permutation l1 l2 -> sorted l1 = sorted l2.
Proof.
  intros Hp. apply sorted_unique; try apply sorted_sorted.
  eapply perm_trans; [ apply sorted_perm | ].
  eapply perm_trans; [ exact Hp | apply Permutation_sym, sorted_perm ].
Qed.

Lemma strictly_sorted (l : list string) :
  StronglySorted leb_order l -> NoDup l -> StronglySorted ltb_order l.
Proof.
  intros Hs. induction Hs as [ | a l Hs IH Ha ]; intros Hnd.
  - constructor.
  - inversion Hnd as [ | ? ? Hout Hnd' ]; subst.
    constructor; [ now apply IH | ].
    rewrite Forall_forall in *. intros t Ht.
    apply string_leb_neq_ltb; [ now apply Ha | ].
    intros ->. contradiction.
Qed.

Section SetOrder.

Variable set_order : list string -> list string.
Hypothesis Hset : set_order_ok set_order.

Lemma sorted_set_strict (l : list string) :
  StronglySorted ltb_order (sorted (set_order l)).
Proof.
  apply strictly_sorted; [ apply sorted_sorted | ].
  apply (Permutation_NoDup (Permutation_sym (sorted_perm _))).
  apply Hset.
Qed.

Lemma In_sorted_set (l : list string) (c : string) :
  In c (sorted (set_order l)) <-> In c l.
Proof.
  rewrite <- (proj2 (Hset l) c). split; apply Permutation_in;
    [ apply sorted_perm | apply Permutation_sym, sorted_perm ].
Qed.

Lemma sorted_set_elements (l l' : list string) :
  NoDup l' -> (forall c, In c l <-> In c l') ->
  sorted (set_order l) = sorted l'.
Proof.
  intros Hnd Hsame. apply sorted_of_perm.
  apply NoDup_Permutation; [ apply Hset | exact Hnd | ].
  intros c. rewrite <- Hsame. apply Hset.
Qed.

End SetOrder.

Lemma sorted_set_any_order (so1 so2 : list string -> list string) (l : list string) :
  set_order_ok so1 -> set_order_ok so2 -> sorted (so1 l) = sorted (so2 l).
Proof.
  intros H1 H2. apply sorted_of_perm.
  apply NoDup_Permutation; [ apply H1 | apply H2 | ].
  intros c. rewrite (proj2 (H1 l) c), (proj2 (H2 l) c). reflexivity.
Qed.

Lemma mem_string_In (s : string) (l : list string) :
  mem_string s l = true <-> In s l.
Proof.
  unfold mem_string. rewrite existsb_exists. split.
  - intros (t & Ht & E). apply String.eqb_eq in E. now subst.
  - intros H. exists s. split; [ exact H | apply String.eqb_refl ].
Qed.

Lemma not_mem_string_In (s : string) (l : list string) :
  negb (mem_string s l) = true <-> ~ In s l.
Proof.
  rewrite negb_true_iff, <- mem_string_In.
  destruct (mem_string s l); split; congruence.
Qed.

Lemma insertion_order_ok : set_order_ok insertion_order.
Proof.
  intros l. unfold insertion_order. split.
  - apply NoDup_rev, NoDup_nodup.
  - intros c. now rewrite <- in_rev, nodup_In, <- in_rev.
Qed.

Lemma last_kept_order_ok : set_order_ok last_kept_order.
Proof.
  intros l. unfold last_kept_order. split.
  - apply NoDup_nodup.
  - intros c. apply nodup_In.
Qed.

Lemma other_columns_of_edges (A : Arith) (edges : list (edge A)) (c : string) :
  edges <> [] ->
  In c (filter (fun k => negb (mem_string k essential_cols))
               (flat_map (@dict_keys _) (map (@row_dict A) edges)))
  <-> In c coordinate_columns.
Proof.
  intros Hne. rewrite filter_In, in_flat_map. split.
  - intros ((row & Hrow & Hc) & Hess).
    apply in_map_iff in Hrow. destruct Hrow as (e & <- & _).
    simpl in Hc.
    repeat (destruct Hc as [ <- | Hc ];
            [ first [ discriminate Hess | simpl; tauto ] | ]).
    destruct Hc.
  - intros Hc. destruct edges as [ | e edges ]; [ contradiction | ].
    split.
    + exists (row_dict e). split; [ now left | ].
      simpl in *. tauto.
    + simpl in Hc. repeat (destruct Hc as [ <- | Hc ]; [ reflexivity | ]).
      destruct Hc.
Qed.

(** C8.  Whatever order the sets of column names are iterated in, the edge
    header is source, target, weight, distance, rank followed by the other
    columns of the rows in strictly ascending (lexicographic) order, the
    node header is id followed by the other columns of the nodes in that
    order, and two iteration orders give the same headers.  For the rows of
    [extract_network_data] the edge header is the one of [edge_columns]. *)
Theorem header_order :
  (forall (A : Arith) (set_order : list string -> list string)
          (network_data : list (dict (value A))),
      set_order_ok set_order ->
      exists rest,
        edge_fieldnames set_order network_data
        = ["source"; "target"; "weight"; "distance"; "rank"]%string ++ rest /\
        StronglySorted ltb_order rest /\
        forall c, In c rest <->
                  (exists r, In r network_data /\ In c (dict_keys r)) /\
                  ~ In c essential_cols) /\
  (forall (A : Arith) (set_order : list string -> list string)
          (nodes : dict (dict (value A))),
      set_order_ok set_order ->
      exists rest,
        node_fieldnames set_order nodes = "id"%string :: rest /\
        StronglySorted ltb_order rest /\
        forall c, In c rest <->
                  (exists node, In node (dict_values nodes) /\ In c (dict_keys node)) /\
                  c <> "id"%string) /\
  (forall (A : Arith) (order1 order2 : list string -> list string)
          (network_data : list (dict (value A))) (nodes : dict (dict (value A))),
      set_order_ok order1 -> set_order_ok order2 ->
      edge_fieldnames order1 network_data = edge_fieldnames order2 network_data /\
      node_fieldnames order1 nodes = node_fieldnames order2 nodes) /\
  (forall (A : Arith) (set_order : list string -> list string)
          (edges : list (edge A)),
      set_order_ok set_order -> edges <> [] ->
      edge_fieldnames set_order (map (@row_dict A) edges) = edge_columns).
Proof.
  split; [ | split; [ | split ] ].
  - intros A set_order network_data Hset. eexists.
    split; [ reflexivity | ]. split; [ now apply sorted_set_strict | ].
    intros c. rewrite (In_sorted_set Hset), filter_In, in_flat_map.
    now rewrite not_mem_string_In.
  - intros A set_order nodes Hset. eexists.
    split; [ reflexivity | ]. split; [ now apply sorted_set_strict | ].
    intros c. rewrite (In_sorted_set Hset), filter_In, in_flat_map.
    rewrite negb_true_iff, String.eqb_neq. reflexivity.
  - intros A order1 order2 network_data nodes H1 H2.
    unfold edge_fieldnames, node_fieldnames. split; f_equal;
      now apply sorted_set_any_order.
  - intros A set_order edges Hset Hne. unfold edge_fieldnames.
    rewrite (@sorted_set_elements set_order Hset _ coordinate_columns).
    + reflexivity.
    + repeat constructor; simpl; intuition discriminate.
    + intros c. now apply other_columns_of_edges.
Qed.

Lemma header_order_witness :
  edge_fieldnames insertion_order (map (@row_dict float64) [one_edge]) = edge_columns /\
  node_fieldnames insertion_order
    (build_nodes (fun _ => false) [] "out" true [one_edge])
  = node_fieldnames last_kept_order
      (build_nodes (fun _ => false) [] "out" true [one_edge]) /\
  node_fieldnames insertion_order
    (build_nodes (fun _ => false) [] "out" true [one_edge])
  = ["id"; "original"; "thumb"; "x"; "y"]%string.
Proof.
  pose proof header_order as (_ & _ & Hdet & Hedges).
  split; [ | split ].
  - apply Hedges; [ exact insertion_order_ok | discriminate ].
  - apply (Hdet float64 insertion_order last_kept_order []);
      [ exact insertion_order_ok | exact last_kept_order_ok ].
  - vm_compute. reflexivity.
Defined.

(** ** Further properties of the neighbour finder *)

Lemma py_slice_firstn {X : Type} (l : list X) (k : Z) :
  (0 <= k)%Z -> py_slice l 1 (k + 1) = firstn (Z.to_nat k) (tl l).
Proof.
  intros Hk. unfold py_slice. destruct l as [ | x l ].
  - simpl. now rewrite !firstn_nil.
  - replace (Z.to_nat (norm_index (Z.of_nat (length (x :: l))) 1)) with 1
      by (simpl length; slice_bounds).
    simpl skipn. simpl tl.
    destruct (Z_le_gt_dec k (Z.of_nat (length l))) as [ Hle | Hgt ].
    + f_equal. simpl length. slice_bounds.
    + rewrite (firstn_all2 (n := Z.to_nat k)) by lia.
      apply firstn_all2. simpl length. slice_bounds.
Qed.

Lemma NoDup_py_slice {X : Type} (l : list X) (lo hi : Z) :
  NoDup l -> NoDup (py_slice l lo hi).
Proof.
  intros H. unfold py_slice.
  set (a := Z.to_nat (norm_index (Z.of_nat (length l)) lo)).
  set (n := Z.to_nat _).
  rewrite <- (firstn_skipn a l) in H. apply NoDup_app_remove_l in H.
  rewrite <- (firstn_skipn n (skipn a l)) in H.
  now apply NoDup_app_remove_r in H.
Qed.

Lemma NoDup_argsort (A : Arith) (argsort : list (fnum A) -> list nat)
      (row : list (fnum A)) :
  argsort_permutes A argsort -> NoDup (argsort row).
Proof.
  intros Hperm.
  apply (Permutation_NoDup (Permutation_sym (Hperm row))), seq_NoDup.
Qed.

(** X1.  On an array, whatever the count k, no neighbour list names an index
    twice, and every index it names is the index of an input point. *)
Theorem neighbor_lists_distinct (A : Arith) (argsort : list (fnum A) -> list nat)
        (positions : list (point A)) (k : Z) :
  argsort_permutes A argsort ->
  is_matrix positions = true ->
  exists neighbors,
    find_nearest_neighbors argsort positions k = Ok neighbors /\
    Forall (fun ranked =>
              NoDup ranked /\ Forall (fun j => j < length positions) ranked)
           neighbors.
Proof.
  intros Hperm Hmat. exists (neighbor_lists argsort positions k).
  split; [ now apply find_nearest_neighbors_ok | ].
  rewrite Forall_forall. intros ranked Hr. split.
  - apply In_neighbor_lists in Hr. destruct Hr as (i & _ & ->).
    now apply NoDup_py_slice, NoDup_argsort.
  - rewrite Forall_forall. intros j Hj. eapply neighbor_in_range; eassumption.
Qed.

Lemma neighbor_lists_distinct_witness :
  exists neighbors,
    find_nearest_neighbors argsort_stable64 four_points 2 = Ok neighbors /\
    Forall (fun ranked => NoDup ranked /\ Forall (fun j => j < 4) ranked) neighbors.
Proof.
  apply (@neighbor_lists_distinct float64 argsort_stable64 four_points 2%Z
           argsort_stable64_permutes).
  reflexivity.
Defined.

(** X2.  A larger count only appends: for 0 <= k <= k', the call for k
    returns the first k entries of each list that the call for k' returns,
    and raises when that call raises. *)
Theorem neighbor_lists_grow (A : Arith) (argsort : list (fnum A) -> list nat)
        (positions : list (point A)) (k k' : Z) :
  (0 <= k <= k')%Z ->
  find_nearest_neighbors argsort positions k
  = match find_nearest_neighbors argsort positions k' with
    | Ok neighbors => Ok (map (firstn (Z.to_nat k)) neighbors)
    | Raise e => Raise e
    end.
Proof.
  intros Hk. destruct (is_matrix positions) eqn:Hmat.
  - rewrite !find_nearest_neighbors_ok by exact Hmat. f_equal.
    unfold neighbor_lists. rewrite map_map.
    apply map_ext. intros i.
    rewrite !py_slice_firstn by lia.
    rewrite firstn_firstn. f_equal. lia.
  - now rewrite !find_nearest_neighbors_raises by exact Hmat.
Qed.

Lemma neighbor_lists_grow_witness :
  find_nearest_neighbors argsort_stable64 four_points 1
  = Ok (map (firstn 1) [[1; 2; 3]; [0; 2; 3]; [0; 1; 3]; [1; 2; 0]]).
Proof.
  rewrite (@neighbor_lists_grow float64 argsort_stable64 four_points 1%Z 3%Z) by lia.
  vm_compute. reflexivity.
Defined.

(** X3.  The listed neighbours are nearest: for k >= 0 and a sort that
    returns an ascending permutation, every neighbour listed for point i
    has an entry in row i of the distance matrix that is at most the entry
    of any point that is neither listed nor the one dropped at the head of
    the sorted order. *)
Theorem listed_neighbors_are_nearest (A : Arith)
        (argsort : list (fnum A) -> list nat)
        (positions : list (point A)) (k : Z) (neighbors : list (list nat))
        (i j j' : nat) :
  argsort_permutes A argsort ->
  argsort_ascending A argsort (distance_row positions i) ->
  (0 <= k)%Z ->
  find_nearest_neighbors argsort positions k = Ok neighbors ->
  i < length positions ->
  j' < length positions ->
  let ranked := nth i neighbors [] in
  In j ranked ->
  ~ In j' ranked ->
  nth_error (argsort (distance_row positions i)) 0 <> Some j' ->
  fle A (cdist_euclidean (nth i positions []) (nth j positions []))
        (cdist_euclidean (nth i positions []) (nth j' positions [])).
Proof.
  intros Hperm Hasc Hk Hok Hi Hj' ranked Hin Hout Hhead. subst ranked.
  apply find_nearest_neighbors_inv in Hok. destruct Hok as [_ ->].
  rewrite nth_neighbor_lists in Hin, Hout by exact Hi.
  set (p := argsort (distance_row positions i)) in *.
  apply In_nth_error in Hin. destruct Hin as [a Ha].
  pose proof (nth_error_py_slice_from_1 _ _ _ Ha) as Ha'.
  assert (Hj : j < length positions) by (eapply argsort_row_in_range; eassumption).
  assert (Hin' : In j' p).
  { apply (Permutation_in _ (Permutation_sym (Hperm _))).
    rewrite length_distance_row. apply in_seq. lia. }
  apply In_nth_error in Hin'. destruct Hin' as [b Hb].
  destruct b as [ | b ]; [ contradiction | ].
  assert (Hab : a < b).
  { destruct (Nat.lt_ge_cases a b) as [ H | H ]; [ exact H | exfalso ].
    apply Hout. rewrite py_slice_firstn in Ha |- * by exact Hk.
    apply (nth_error_In _ b). rewrite nth_error_firstn in Ha |- *.
    destruct (Nat.ltb_spec a (Z.to_nat k)); [ | discriminate ].
    destruct (Nat.ltb_spec b (Z.to_nat k)); [ | lia ].
    destruct p; [ destruct b; discriminate | exact Hb ]. }
  rewrite <- !(key_distance_row positions i) by assumption.
  apply (Hasc (S a) (S b)); [ lia | exact Ha' | exact Hb ].
Qed.

Lemma listed_neighbors_are_nearest_witness :
  fle float64 (cdist_euclidean (nth 0 four_points []) (nth 1 four_points []))
              (cdist_euclidean (nth 0 four_points []) (nth 3 four_points [])).
Proof.
  apply (@listed_neighbors_are_nearest float64 argsort_stable64 four_points
           2%Z [[1; 2]; [0; 2]; [0; 1]; [1; 2]] 0 1 3).
  - exact argsort_stable64_permutes.
  - apply four_points_rows_ascending. simpl. lia.
  - lia.
  - vm_compute. reflexivity.
  - simpl. lia.
  - simpl. lia.
  - simpl. tauto.
  - simpl. intros [ H | [ H | [] ] ]; discriminate.
  - vm_compute. discriminate.
Defined.

Lemma self_is_first (A : Arith) (argsort : list (fnum A) -> list nat)
      (positions : list (point A)) (i : nat) :
  argsort_permutes A argsort ->
  argsort_ascending A argsort (distance_row positions i) ->
  strictly_closest_to_itself positions ->
  i < length positions ->
  nth_error (argsort (distance_row positions i)) 0 = Some i.
Proof.
  intros Hperm Hasc Hself Hi.
  set (p := argsort (distance_row positions i)).
  assert (Hin : In i p).
  { apply (Permutation_in _ (Permutation_sym (Hperm _))).
    rewrite length_distance_row. apply in_seq. lia. }
  apply In_nth_error in Hin. destruct Hin as [a Ha].
  destruct a as [ | a ]; [ exact Ha | exfalso ].
  destruct (nth_error p 0) as [ j0 | ] eqn:E0.
  - pose proof (argsort_row_in_range Hperm _ _ _ E0) as Hj0.
    assert (Hne : j0 <> i).
    { intros ->. pose proof (NoDup_argsort (distance_row positions i) Hperm) as Hnd.
      rewrite NoDup_nth_error in Hnd.
      assert (0 = S a); [ apply Hnd | discriminate ].
      - apply nth_error_Some. fold p. congruence.
      - fold p. congruence. }
    apply (Hself i j0 Hi Hj0 Hne).
    rewrite <- !(key_distance_row positions i) by assumption.
    apply (Hasc 0 (S a)); [ lia | exact E0 | exact Ha ].
  - apply nth_error_None in E0.
    assert (S a < length p) by (apply nth_error_Some; congruence). lia.
Qed.

Lemma self_not_listed (A : Arith) (argsort : list (fnum A) -> list nat)
      (positions : list (point A)) (k : Z) (i : nat) :
  argsort_permutes A argsort ->
  argsort_ascending A argsort (distance_row positions i) ->
  strictly_closest_to_itself positions ->
  i < length positions ->
  ~ In i (nth i (neighbor_lists argsort positions k) []).
Proof.
  intros Hperm Hasc Hself Hi Hin.
  rewrite nth_neighbor_lists in Hin by exact Hi.
  apply In_nth_error in Hin. destruct Hin as [a Ha].
  apply nth_error_py_slice_from_1 in Ha.
  pose proof (self_is_first Hperm Hasc Hself Hi) as H0.
  pose proof (NoDup_argsort (distance_row positions i) Hperm) as Hnd.
  rewrite NoDup_nth_error in Hnd.
  assert (0 = S a); [ apply Hnd | discriminate ].
  - apply nth_error_Some. congruence.
  - congruence.
Qed.

(** X4.  No self-loop without coincident points: on two-dimensional points
    with finite differences, when every point has a smaller entry for
    itself in its row of the distance matrix than for any other point, the
    base names are pairwise distinct and the sort returns an ascending
    permutation, no point is in its own neighbour list and no edge has its
    source as its target. *)
Theorem no_self_loop_without_coincidence (A : Arith)
        (argsort : list (fnum A) -> list nat)
        (positions : list (point A)) (image_filenames : list string) (k : Z) :
  argsort_permutes A argsort ->
  Forall is_2d positions ->
  positions <> [] ->
  image_filenames <> [] ->
  let positions' := common_positions positions image_filenames in
  let image_filenames' := common_filenames positions image_filenames in
  differences_finite positions' = true ->
  (forall i, i < length positions' ->
             argsort_ascending A argsort (distance_row positions' i)) ->
  strictly_closest_to_itself positions' ->
  NoDup (map basename image_filenames') ->
  exists neighbors edges,
    find_nearest_neighbors argsort positions' k = Ok neighbors /\
    (forall i, i < length positions' -> ~ In i (nth i neighbors [])) /\
    snd (extract_network_data argsort positions image_filenames k)
    = Ok (Some edges) /\
    Forall (fun e => source e <> target e) edges.
Proof.
  intros Hperm H2d Hp Hf positions' image_filenames' Hfinite Hasc Hself Hnd.
  assert (Hnot : forall i, i < length positions' ->
             ~ In i (nth i (neighbor_lists argsort positions' k) [])).
  { intros i Hi. apply self_not_listed; auto. }
  exists (neighbor_lists argsort positions' k),
         (expected_edges argsort positions image_filenames k).
  split.
  { apply find_nearest_neighbors_ok, common_positions_matrix;
      [ now apply is_matrix_2d | exact Hf ]. }
  split; [ exact Hnot | ].
  split; [ now apply extract_ok | ].
  rewrite Forall_forall. intros e He.
  apply In_expected_edges in He; [ | exact Hperm ].
  destruct He as (i & j & n & Hi & Hn & Hj & ->).
  fold positions' image_filenames' in Hi, Hn, Hj |- *.
  simpl. intros E.
  assert (Lf : length image_filenames' = length positions').
  { unfold image_filenames', positions'.
    now rewrite length_common_filenames, length_common_positions. }
  rewrite (NoDup_nth (map basename image_filenames') ""%string) in Hnd.
  assert (Ein : i = n).
  { apply Hnd; [ rewrite length_map; lia | rewrite length_map; lia | ].
    change ""%string with (basename ""%string). now rewrite !map_nth. }
  subst n. apply (Hnot i Hi). eapply nth_error_In. exact Hj.
Qed.

Lemma four_points_strictly_closest : strictly_closest_to_itself four_points.
Proof.
  intros i j Hi Hj Hne H. simpl in Hi, Hj.
  destruct i as [ | [ | [ | [ | i ] ] ] ]; try lia;
    destruct j as [ | [ | [ | [ | j ] ] ] ]; try lia;
    vm_compute in H; discriminate.
Qed.

Lemma no_self_loop_without_coincidence_witness :
  exists neighbors edges,
    find_nearest_neighbors argsort_stable64 four_points 2 = Ok neighbors /\
    (forall i, i < 4 -> ~ In i (nth i neighbors [])) /\
    snd (extract_network_data argsort_stable64 four_points four_names 2)
    = Ok (Some edges) /\
    Forall (fun e => source e <> target e) edges.
Proof.
  apply (@no_self_loop_without_coincidence float64 argsort_stable64
           four_points four_names 2%Z argsort_stable64_permutes).
  - repeat constructor.
  - discriminate.
  - discriminate.
  - reflexivity.
  - exact four_points_rows_ascending.
  - exact four_points_strictly_closest.
  - simpl. repeat constructor; simpl; intuition discriminate.
Defined.

Lemma list_sum_constant {X : Type} (f : X -> nat) (c : nat) (l : list X) :
  (forall x, In x l -> f x = c) -> list_sum (map f l) = length l * c.
Proof.
  induction l as [ | x l IH ]; intros H; simpl; [ reflexivity | ].
  rewrite (H x (or_introl eq_refl)), IH by (intros; apply H; now right).
  reflexivity.
Qed.

(** X5.  The number of edges: for k >= 1, a run on at least one
    two-dimensional point and one image, with finite differences, returns
    m * min(k, m - 1) edges, where m is the smaller of the numbers of
    positions and of filenames. *)
Theorem edge_count (A : Arith) (argsort : list (fnum A) -> list nat)
        (positions : list (point A)) (image_filenames : list string) (k : Z) :
  argsort_permutes A argsort ->
  Forall is_2d positions ->
  positions <> [] ->
  image_filenames <> [] ->
  differences_finite (common_positions positions image_filenames) = true ->
  (1 <= k)%Z ->
  let m := Z.of_nat (Nat.min (length positions) (length image_filenames)) in
  exists edges,
    snd (extract_network_data argsort positions image_filenames k)
    = Ok (Some edges) /\
    Z.of_nat (length edges) = (m * Z.min k (m - 1))%Z.
Proof.
  intros Hperm H2d Hp Hf Hfinite Hk m.
  exists (expected_edges argsort positions image_filenames k).
  split; [ now apply extract_ok | ].
  rewrite length_expected_edges.
  set (p' := common_positions positions image_filenames).
  assert (Lp : Z.of_nat (length p') = m).
  { unfold p', m. now rewrite length_common_positions. }
  rewrite (@list_sum_constant _ (@length nat) (Z.to_nat (Z.min k (m - 1)))).
  - rewrite length_neighbor_lists. nia.
  - intros ranked Hr. apply In_neighbor_lists in Hr.
    destruct Hr as (i & Hi & ->).
    apply Nat2Z.inj. rewrite length_py_slice_from_1 by lia.
    rewrite (length_argsort_row Hperm). lia.
Qed.

Lemma edge_count_witness :
  exists edges,
    snd (extract_network_data argsort_stable64 four_points four_names 2)
    = Ok (Some edges) /\
    length edges = 8.
Proof.
  destruct (@edge_count float64 argsort_stable64 four_points four_names 2%Z
              argsort_stable64_permutes) as (edges & Hok & Hlen).
  - repeat constructor.
  - discriminate.
  - discriminate.
  - reflexivity.
  - lia.
  - exists edges. split; [ exact Hok | ]. simpl in Hlen. lia.
Defined.

(** X6.  Cutting both sequences to the common prefix keeps every subscript
    in range: whatever the positions, the filenames, their counts and k,
    [extract_network_data] does not raise IndexError. *)
Theorem no_index_error (A : Arith) (argsort : list (fnum A) -> list nat)
        (positions : list (point A)) (image_filenames : list string) (k : Z) :
  argsort_permutes A argsort ->
  snd (extract_network_data argsort positions image_filenames k)
  <> Raise IndexError.
Proof.
  intros Hperm.
  destruct image_filenames as [ | f fs ] eqn:Ef; [ discriminate | ].
  rewrite <- Ef.
  assert (Hf : image_filenames <> []) by (rewrite Ef; discriminate).
  destruct positions as [ | p rest ] eqn:Ep.
  { rewrite (@extract_no_position A argsort image_filenames k Hf). discriminate. }
  rewrite <- Ep.
  assert (Hp : positions <> []) by (rewrite Ep; discriminate).
  destruct (is_matrix positions) eqn:Hmat.
  - rewrite extract_on_matrix by assumption.
    pose proof (@network_rows_no_index_error A argsort
                  (common_positions positions image_filenames)
                  (common_filenames positions image_filenames) k Hperm) as H.
    destruct (network_rows _ _ _) as [ edges | e ]; [ discriminate | ].
    cbn [bind]. intros E. apply H.
    + now apply common_positions_matrix.
    + now rewrite length_common_positions, length_common_filenames.
    + congruence.
  - rewrite (@extract_ragged A argsort positions image_filenames k Hf Hp Hmat). discriminate.
Qed.

Lemma no_index_error_witness :
  snd (extract_network_data argsort_stable64
         ([[0; 0; 1]; [0; 0; 2]; [1; 1; 1]]%float : list (point float64))
         ["a.jpg"]%string 5)
  <> Raise IndexError.
Proof.
  apply no_index_error. exact argsort_stable64_permutes.
Defined.

(** ** Further properties of the node table *)

(** X7.  Every edge's source and target have a node record. *)
Theorem edges_have_nodes (A : Arith) (path_exists : string -> bool)
        (metadata : dict (dict (value A))) (data_dir : string)
        (include_thumbs : bool) (network_data : list (edge A)) :
  let nodes := build_nodes path_exists metadata data_dir include_thumbs network_data in
  Forall (fun e => In (source e) (dict_keys nodes) /\ In (target e) (dict_keys nodes))
         network_data.
Proof.
  intros nodes. rewrite Forall_forall. intros e He.
  split; apply In_keys_build_nodes; exists e; (split; [ exact He | ]);
    [ now left | now right ].
Qed.

Lemma dict_mem_keys {V : Type} (d : dict V) (k : string) :
  dict_mem d k = mem_string k (dict_keys d).
Proof.
  unfold dict_mem, mem_string.
  induction d as [ | [k' v] d IH ]; simpl; [ reflexivity | ].
  rewrite (String.eqb_sym k k').
  destruct (String.eqb k' k); [ reflexivity | exact IH ].
Qed.

Lemma dict_keys_add_node (A : Arith) (path_exists : string -> bool)
      (data_dir : string) (include_thumbs : bool)
      (nodes : dict (dict (value A))) (id : string) (x y : fnum A) :
  dict_keys (add_node path_exists data_dir include_thumbs nodes id x y)
  = dict_keys nodes ++ first_appearances (dict_keys nodes) [id].
Proof.
  unfold add_node. rewrite dict_mem_keys. simpl.
  destruct (mem_string id (dict_keys nodes)) eqn:E.
  - now rewrite app_nil_r.
  - apply dict_keys_set_new. intros Hin. apply mem_string_In in Hin. congruence.
Qed.

Lemma first_appearances_app (seen l1 l2 : list string) :
  first_appearances seen (l1 ++ l2)
  = first_appearances seen l1
    ++ first_appearances (seen ++ first_appearances seen l1) l2.
Proof.
  revert seen. induction l1 as [ | x l1 IH ]; intros seen; simpl.
  - now rewrite app_nil_r.
  - destruct (mem_string x seen); [ apply IH | ].
    simpl. rewrite IH. now rewrite <- app_assoc.
Qed.

Lemma dict_keys_collect_from (A : Arith) (path_exists : string -> bool)
      (data_dir : string) (include_thumbs : bool)
      (network_data : list (edge A)) (nodes : dict (dict (value A))) :
  dict_keys (collect_from path_exists data_dir include_thumbs nodes network_data)
  = dict_keys nodes ++ first_appearances (dict_keys nodes) (endpoints network_data).
Proof.
  revert nodes. induction network_data as [ | r rest IH ]; intros nodes.
  - simpl. now rewrite app_nil_r.
  - unfold collect_from. simpl fold_left.
    fold (collect_from path_exists data_dir include_thumbs
            (add_node path_exists data_dir include_thumbs
               (add_node path_exists data_dir include_thumbs nodes
                         (source r) (source_x r) (source_y r))
               (target r) (target_x r) (target_y r)) rest).
    rewrite IH, !dict_keys_add_node.
    change (endpoints (r :: rest)) with ([source r] ++ [target r] ++ endpoints rest).
    rewrite !first_appearances_app. now rewrite <- !app_assoc.
Qed.

(** X8.  The node records are in the order in which the identifiers first
    appear in the edge list, a row's source before its target. *)
Theorem nodes_in_order_of_appearance (A : Arith) (path_exists : string -> bool)
        (metadata : dict (dict (value A))) (data_dir : string)
        (include_thumbs : bool) (network_data : list (edge A)) :
  dict_keys (build_nodes path_exists metadata data_dir include_thumbs network_data)
  = first_appearances [] (endpoints network_data).
Proof.
  unfold build_nodes, collect_nodes.
  now rewrite dict_keys_add_metadata, dict_keys_collect_from.
Qed.

Lemma dict_get_Some_In {V : Type} (d : dict V) (k : string) (v : V) :
  dict_get d k = Some v -> In (k, v) d.
Proof.
  induction d as [ | [k' v'] d IH ]; simpl; [ discriminate | ].
  destruct (String.eqb_spec k' k) as [ -> | Hne ].
  - intros H. injection H as ->. now left.
  - intros H. right. now apply IH.
Qed.

Lemma dict_get_Some_key {V : Type} (d : dict V) (k : string) (v : V) :
  dict_get d k = Some v -> In k (dict_keys d).
Proof.
  intros H. apply dict_get_Some_In in H.
  unfold dict_keys. now apply (in_map fst) in H.
Qed.

Lemma In_dict_get {V : Type} (d : dict V) (k : string) (v : V) :
  NoDup (dict_keys d) -> In (k, v) d -> dict_get d k = Some v.
Proof.
  induction d as [ | [k' v'] d IH ]; simpl; intros Hnd Hin; [ destruct Hin | ].
  inversion Hnd as [ | ? ? Hout Hnd' ]; subst.
  destruct Hin as [ E | Hin ].
  - injection E as -> ->. now rewrite String.eqb_refl.
  - destruct (String.eqb_spec k' k) as [ -> | Hne ]; [ | now apply IH ].
    exfalso. apply Hout. unfold dict_keys. now apply (in_map fst) in Hin.
Qed.

Lemma dict_get_merge_metadata_field (A : Arith) (node md : dict (value A))
      (k : string) :
  NoDup (dict_keys md) ->
  dict_get (merge_metadata node md) k
  = if String.eqb k "filename" then dict_get node k
    else match dict_get md k with
         | Some v => Some v
         | None => dict_get node k
         end.
Proof.
  unfold merge_metadata. revert node.
  induction md as [ | [k' v'] md IH ]; intros node Hnd; simpl.
  - now destruct (String.eqb k "filename").
  - inversion Hnd as [ | ? ? Hout Hnd' ]; subst. rewrite IH by exact Hnd'.
    destruct (String.eqb_spec k "filename") as [ Ek | Hk ].
    + subst k. destruct (String.eqb_spec k' "filename") as [ Ek' | Hk' ];
        [ reflexivity | now apply dict_get_set_other ].
    + destruct (dict_get md k) as [ v | ] eqn:E.
      * destruct (String.eqb_spec k' k) as [ Ekk | Hne ]; [ | reflexivity ].
        subst k'. exfalso. apply Hout. eapply dict_get_Some_key. exact E.
      * destruct (String.eqb_spec k' k) as [ Ekk | Hne ].
        -- subst k'. destruct (String.eqb_spec k "filename"); [ contradiction | ].
           apply dict_get_set_same.
        -- destruct (String.eqb k' "filename"); [ reflexivity | ].
           now apply dict_get_set_other.
Qed.

(** X9.  Merging metadata into a node: the field filename is skipped, every
    other metadata field ends up in the node with the metadata's value,
    replacing a field of the same name, and the other fields of the node
    are kept. *)
Theorem metadata_merge_fields (A : Arith) (node md : dict (value A)) (k : string) :
  NoDup (dict_keys md) ->
  dict_get (merge_metadata node md) "filename" = dict_get node "filename" /\
  (k <> "filename"%string ->
   forall v, dict_get md k = Some v -> dict_get (merge_metadata node md) k = Some v) /\
  (dict_get md k = None -> dict_get (merge_metadata node md) k = dict_get node k).
Proof.
  intros Hnd. split; [ | split ].
  - now rewrite dict_get_merge_metadata_field.
  - intros Hk v Hv. rewrite dict_get_merge_metadata_field by exact Hnd.
    destruct (String.eqb_spec k "filename"); [ contradiction | ].
    now rewrite Hv.
  - intros Hv. rewrite dict_get_merge_metadata_field by exact Hnd.
    rewrite Hv. now destruct (String.eqb k "filename").
Qed.

Lemma metadata_merge_fields_witness :
  let node := [("id", VStr "a.jpg"); ("x", @VNum float64 0%float)]%string in
  let md := [("filename", VStr "a.jpg"); ("year", VInt 1900)]%string in
  dict_get (merge_metadata node md) "filename" = None /\
  dict_get (merge_metadata node md) "year" = Some (VInt 1900) /\
  dict_get (merge_metadata node md) "x" = Some (@VNum float64 0%float).
Proof.
  intros node md.
  assert (Hnd : NoDup (dict_keys md)).
  { repeat constructor; simpl; intuition discriminate. }
  split; [ | split ].
  - exact (proj1 (@metadata_merge_fields float64 node md "x"%string Hnd)).
  - apply (proj1 (proj2 (@metadata_merge_fields float64 node md "year"%string Hnd)));
      [ discriminate | reflexivity ].
  - exact (proj2 (proj2 (@metadata_merge_fields float64 node md "x"%string Hnd))
                 eq_refl).
Defined.

Lemma In_keys_dict_set {V : Type} (d : dict V) (k c : string) (v : V) :
  In c (dict_keys (dict_set d k v)) <-> In c (dict_keys d) \/ c = k.
Proof.
  induction d as [ | [k' v'] d IH ]; simpl.
  - split; [ intros [ <- | [] ]; now right | intros [ [] | -> ]; now left ].
  - destruct (String.eqb_spec k' k) as [ -> | Hne ]; simpl.
    + split; [ tauto | intros [ H | -> ]; [ exact H | now left ] ].
    + rewrite IH. tauto.
Qed.

Lemma In_keys_merge_metadata (A : Arith) (node md : dict (value A)) (c : string) :
  In c (dict_keys (merge_metadata node md))
  <-> In c (dict_keys node) \/ (In c (dict_keys md) /\ c <> "filename"%string).
Proof.
  unfold merge_metadata. revert node.
  induction md as [ | [k v] md IH ]; intros node; simpl.
  - tauto.
  - rewrite IH. destruct (String.eqb_spec k "filename") as [ -> | Hk ].
    + split; [ tauto | ]. intros [ H | [ [ <- | H ] Hc ] ]; tauto.
    + rewrite In_keys_dict_set. split.
      * intros [ [ H | -> ] | H ]; tauto.
      * intros [ H | [ [ <- | H ] Hc ] ]; tauto.
Qed.

Lemma dict_keys_new_node (A : Arith) (path_exists : string -> bool)
      (data_dir : string) (include_thumbs : bool) (id : string) (x y : fnum A) :
  dict_keys (new_node A path_exists data_dir include_thumbs id x y)
  = (["id"; "x"; "y"]%string
     ++ if include_thumbs then ["thumb"; "original"]%string else [])%list.
Proof. unfold new_node. now destruct include_thumbs. Qed.

Lemma In_values_build_nodes (A : Arith) (path_exists : string -> bool)
      (metadata : dict (dict (value A))) (data_dir : string)
      (include_thumbs : bool) (network_data : list (edge A))
      (node : dict (value A)) :
  In node (dict_values (build_nodes path_exists metadata data_dir include_thumbs
                                    network_data))
  <-> exists id x y,
        first_occurrence network_data id = Some (x, y) /\
        node = match dict_get metadata id with
               | Some md =>
                   merge_metadata
                     (new_node A path_exists data_dir include_thumbs id x y) md
               | None => new_node A path_exists data_dir include_thumbs id x y
               end.
Proof.
  set (nodes := build_nodes path_exists metadata data_dir include_thumbs network_data).
  assert (Hget : forall id, dict_get nodes id = _) by (intros; apply build_nodes_get).
  split.
  - intros Hin. unfold dict_values in Hin. apply in_map_iff in Hin.
    destruct Hin as ([id node'] & E & Hin). simpl in E. subst node'.
    apply In_dict_get in Hin; [ | apply NoDup_keys_build_nodes ].
    rewrite Hget in Hin.
    destruct (first_occurrence network_data id) as [ [x y] | ] eqn:Hfirst;
      [ | discriminate ].
    cbn [option_map fst snd] in Hin. injection Hin as <-.
    exists id, x, y. split; [ exact Hfirst | reflexivity ].
  - intros (id & x & y & Hfirst & ->).
    specialize (Hget id). rewrite Hfirst in Hget. cbn [option_map fst snd] in Hget.
    apply dict_get_Some_In in Hget. unfold dict_values.
    now apply (in_map snd) in Hget.
Qed.

(** X10.  The columns of the node table are id, then, in ascending order
    and whatever order sets are iterated in: x and y (when there is a
    node), thumb and original when thumbnails are asked for, and every
    metadata field of an identifier of the edge list except filename.  No
    node column is named filename. *)
Theorem node_columns (A : Arith) (set_order : list string -> list string)
        (path_exists : string -> bool)
        (metadata : dict (dict (value A))) (data_dir : string)
        (include_thumbs : bool) (network_data : list (edge A)) :
  set_order_ok set_order ->
  let header :=
    node_fieldnames set_order
      (build_nodes path_exists metadata data_dir include_thumbs network_data) in
  (forall c,
      In c header <->
      c = "id"%string \/
      (network_data <> [] /\
       (c = "x"%string \/ c = "y"%string \/
        (include_thumbs = true /\ (c = "thumb"%string \/ c = "original"%string)))) \/
      (exists id md,
          occurs network_data id /\ dict_get metadata id = Some md /\
          In c (dict_keys md) /\ c <> "filename"%string)) /\
  ~ In "filename"%string header.
Proof.
  intros Hset header.
  assert (Hchar : forall c,
      In c header <->
      c = "id"%string \/
      exists node,
        In node (dict_values (build_nodes path_exists metadata data_dir
                                          include_thumbs network_data)) /\
        In c (dict_keys node)).
  { intros c. unfold header, node_fieldnames. simpl.
    rewrite (In_sorted_set Hset), filter_In, in_flat_map, negb_true_iff,
      String.eqb_neq.
    split.
    - intros [ <- | [H _] ]; [ now left | now right ].
    - intros [ -> | H ]; [ now left | ].
      destruct (string_dec "id" c) as [ E | Hne ]; [ now left | right ].
      split; [ exact H | congruence ]. }
  assert (Hnode : forall id x y c,
      In c (dict_keys match dict_get metadata id with
                      | Some md =>
                          merge_metadata
                            (new_node A path_exists data_dir include_thumbs id x y) md
                      | None => new_node A path_exists data_dir include_thumbs id x y
                      end)
      <-> (c = "id"%string \/ c = "x"%string \/ c = "y"%string \/
           (include_thumbs = true /\ (c = "thumb"%string \/ c = "original"%string))) \/
          (exists md, dict_get metadata id = Some md /\
                      In c (dict_keys md) /\ c <> "filename"%string)).
  { intros id x y c.
    assert (Hseed : In c (dict_keys (new_node A path_exists data_dir
                                              include_thumbs id x y))
                    <-> (c = "id"%string \/ c = "x"%string \/ c = "y"%string \/
                         (include_thumbs = true /\
                          (c = "thumb"%string \/ c = "original"%string)))).
    { rewrite dict_keys_new_node. destruct include_thumbs; simpl;
        intuition (try discriminate; auto). }
    destruct (dict_get metadata id) as [ md | ].
    - rewrite In_keys_merge_metadata, Hseed. split.
      + intros [ H | H ]; [ now left | right; now exists md ].
      + intros [ H | (md' & E & H) ]; [ now left | right ].
        injection E as <-. exact H.
    - rewrite Hseed. split; [ now left | ].
      intros [ H | (md' & E & _) ]; [ exact H | discriminate ]. }
  assert (Hcols : forall c,
      In c header <->
      c = "id"%string \/
      (network_data <> [] /\
       (c = "x"%string \/ c = "y"%string \/
        (include_thumbs = true /\ (c = "thumb"%string \/ c = "original"%string)))) \/
      (exists id md,
          occurs network_data id /\ dict_get metadata id = Some md /\
          In c (dict_keys md) /\ c <> "filename"%string)).
  { intros c. rewrite Hchar. split.
    - intros [ -> | (node & Hin & Hc) ]; [ now left | ].
      apply In_values_build_nodes in Hin.
      destruct Hin as (id & x & y & Hfirst & ->).
      assert (Hocc : occurs network_data id)
        by (apply first_occurrence_occurs; eauto).
      apply Hnode in Hc.
      destruct Hc as [ [ -> | Hc ] | (md & Hmd & Hc) ].
      + now left.
      + right. left. split; [ | exact Hc ].
        intros ->. discriminate.
      + right. right. now exists id, md.
    - intros [ -> | [ (Hne & Hc) | (id & md & Hocc & Hmd & Hc) ] ]; [ now left | | ].
      + right. destruct network_data as [ | r rest ]; [ contradiction | ].
        assert (Hocc : occurs (r :: rest) (source r))
          by (exists r; split; now left).
        apply first_occurrence_occurs in Hocc. destruct Hocc as ([x y] & Hfirst).
        eexists. split.
        * apply In_values_build_nodes. exists (source r), x, y.
          split; [ exact Hfirst | reflexivity ].
        * apply Hnode. left. tauto.
      + right. apply first_occurrence_occurs in Hocc.
        destruct Hocc as ([x y] & Hfirst).
        eexists. split.
        * apply In_values_build_nodes. exists id, x, y.
          split; [ exact Hfirst | reflexivity ].
        * apply Hnode. right. now exists md. }
  split; [ exact Hcols | ].
  intros H. apply Hcols in H.
  destruct H as [ H | [ (_ & H) | (id & md & _ & _ & _ & H) ] ].
  - discriminate.
  - destruct H as [ H | [ H | (_ & [ H | H ]) ] ]; discriminate.
  - now apply H.
Qed.

Lemma node_columns_witness :
  let metadata := [("a.jpg", [("filename", VStr "a.jpg"); ("year", VInt 1900)])]%string
                  : dict (dict (value float64)) in
  let header :=
    node_fieldnames insertion_order
      (build_nodes (fun _ => false) metadata "out" false [one_edge]) in
  In "year"%string header /\ ~ In "filename"%string header.
Proof.
  intros metadata header.
  pose proof (@node_columns float64 insertion_order (fun _ => false) metadata
                "out"%string false [one_edge] insertion_order_ok) as (Hcols & Hno).
  split; [ | exact Hno ].
  apply Hcols. right. right.
  exists "a.jpg"%string, [("filename", VStr "a.jpg"); ("year", VInt 1900)]%string.
  split; [ exists one_edge; split; now left | ].
  split; [ reflexivity | ].
  split; [ simpl; tauto | discriminate ].
Defined.

(** ** Further properties of the tables *)

Lemma NoDup_essential_cols : NoDup essential_cols.
Proof. repeat constructor; simpl; intuition discriminate. Qed.

Lemma NoDup_sorted_set (set_order : list string -> list string) (l : list string) :
  set_order_ok set_order -> NoDup (sorted (set_order l)).
Proof.
  intros Hset.
  apply (Permutation_NoDup (Permutation_sym (sorted_perm _))), Hset.
Qed.

Lemma writer_accepts_spec {V : Type} (fieldnames : list string) (r : dict V) :
  writer_accepts fieldnames r = true
  <-> forall k, In k (dict_keys r) -> In k fieldnames.
Proof.
  unfold writer_accepts. rewrite forallb_forall.
  split; intros H k Hk; apply mem_string_In, H, Hk.
Qed.

(** X11.  The headers fit the rows: whatever the rows and whatever order
    sets are iterated in, the header that [write_csv] computes has no
    column twice and holds every key of every row, so that the writer's
    test for unknown fields passes on each row; the same holds for the
    header and the node records of [create_node_csv]. *)
Theorem headers_fit_rows (A : Arith) (set_order : list string -> list string)
        (network_data : list (dict (value A))) (nodes : dict (dict (value A))) :
  set_order_ok set_order ->
  (NoDup (edge_fieldnames set_order network_data) /\
   Forall (fun r => writer_accepts (edge_fieldnames set_order network_data) r = true)
          network_data) /\
  (NoDup (node_fieldnames set_order nodes) /\
   Forall (fun node => writer_accepts (node_fieldnames set_order nodes) node = true)
          (dict_values nodes)).
Proof.
  intros Hset. split; split.
  - unfold edge_fieldnames. apply NoDup_app.
    + exact NoDup_essential_cols.
    + now apply NoDup_sorted_set.
    + intros c Hc Hin. rewrite (In_sorted_set Hset), filter_In in Hin.
      destruct Hin as [_ Hin].
      apply not_mem_string_In in Hin. contradiction.
  - rewrite Forall_forall. intros r Hr. apply writer_accepts_spec. intros c Hc.
    unfold edge_fieldnames. apply in_or_app.
    destruct (in_dec string_dec c essential_cols) as [ Hess | Hess ];
      [ now left | right ].
    rewrite (In_sorted_set Hset), filter_In. split.
    + apply in_flat_map. now exists r.
    + now apply not_mem_string_In.
  - unfold node_fieldnames. constructor; [ | now apply NoDup_sorted_set ].
    intros Hin. rewrite (In_sorted_set Hset), filter_In in Hin.
    destruct Hin as [_ Hin]. discriminate.
  - rewrite Forall_forall. intros node Hnode. apply writer_accepts_spec.
    intros c Hc. unfold node_fieldnames.
    destruct (String.eqb_spec c "id") as [ -> | Hne ]; [ now left | right ].
    rewrite (In_sorted_set Hset), filter_In. split.
    + apply in_flat_map. now exists node.
    + apply negb_true_iff. now apply String.eqb_neq.
Qed.

Lemma headers_fit_rows_witness :
  let nodes := build_nodes (fun _ => false) [] "out" true [one_edge] in
  NoDup (node_fieldnames insertion_order nodes) /\
  Forall (fun node => writer_accepts (node_fieldnames insertion_order nodes) node = true)
         (dict_values nodes).
Proof.
  intros nodes.
  exact (proj2 (@headers_fit_rows float64 insertion_order [] nodes
                  insertion_order_ok)).
Defined.

Lemma edge_fieldnames_of_edges (A : Arith) (set_order : list string -> list string)
      (edges : list (edge A)) :
  set_order_ok set_order -> edges <> [] ->
  edge_fieldnames set_order (map (@row_dict A) edges) = edge_columns.
Proof.
  intros Hset Hne. unfold edge_fieldnames.
  rewrite (@sorted_set_elements set_order Hset _ coordinate_columns).
  - reflexivity.
  - repeat constructor; simpl; intuition discriminate.
  - intros c. now apply other_columns_of_edges.
Qed.

(** The cells of an edge, in the order of [edge_columns]. *)
Lemma cells_of_edge (A : Arith) (e : edge A) :
  map (dict_get (row_dict e)) edge_columns
  = [ Some (VStr (source e)); Some (VStr (target e)); Some (VNum (weight e));
      Some (VNum (distance e)); Some (VInt (rank e));
      Some (VNum (source_x e)); Some (VNum (source_y e));
      Some (VNum (target_x e)); Some (VNum (target_y e)) ].
Proof. reflexivity. Qed.

(** X12.  What [write_csv] writes for the edges of a run: the nine columns
    of [edge_columns] and one record per edge, in the order of the edges,
    each with its nine cells filled (no cell is left empty) in the order
    source, target, weight, distance, rank, source_x, source_y, target_x,
    target_y. *)
Theorem edge_table (A : Arith) (set_order : list string -> list string)
        (edges : list (edge A)) :
  set_order_ok set_order ->
  edges <> [] ->
  write_csv set_order (map (@row_dict A) edges)
  = (true,
     Some {| header := edge_columns;
             records :=
               map (fun e =>
                      [ Some (VStr (source e)); Some (VStr (target e));
                        Some (VNum (weight e)); Some (VNum (distance e));
                        Some (VInt (rank e));
                        Some (VNum (source_x e)); Some (VNum (source_y e));
                        Some (VNum (target_x e)); Some (VNum (target_y e)) ])
                   edges |}).
Proof.
  intros Hset Hne. unfold write_csv.
  destruct edges as [ | e edges ]; [ contradiction | ].
  change (map (@row_dict A) (e :: edges))
    with (row_dict e :: map (@row_dict A) edges) at 1.
  cbv iota. f_equal. f_equal. unfold dict_writer.
  rewrite edge_fieldnames_of_edges by (exact Hset || discriminate).
  f_equal. rewrite map_map. apply map_ext. intros e'. apply cells_of_edge.
Qed.

Lemma edge_table_witness :
  exists tbl,
    write_csv insertion_order (map (@row_dict float64) [one_edge]) = (true, Some tbl) /\
    header tbl = edge_columns /\
    length (records tbl) = 1.
Proof.
  eexists. split.
  - apply (@edge_table float64 insertion_order [one_edge]);
      [ exact insertion_order_ok | discriminate ].
  - split; reflexivity.
Defined.

(** ** Paths *)

Lemma has_slash_append (s t : string) :
  has_slash (s ++ t) = has_slash s || has_slash t.
Proof.
  induction s as [ | c s IH ]; simpl; [ reflexivity | ].
  rewrite IH. apply orb_assoc.
Qed.

Lemma append_cons_assoc (s : string) (c : ascii) (t : string) :
  ((s ++ String c EmptyString) ++ t)%string = (s ++ String c t)%string.
Proof. induction s as [ | d s IH ]; simpl; [ reflexivity | now rewrite IH ]. Qed.

Lemma append_empty_r (s : string) : (s ++ "")%string = s.
Proof. induction s as [ | c s IH ]; simpl; [ reflexivity | now rewrite IH ]. Qed.

Lemma after_last_slash_no_slash (s pre : string) :
  has_slash pre = false ->
  has_slash (after_last_slash s (pre ++ s)) = false.
Proof.
  revert pre. induction s as [ | c s IH ]; intros pre Hpre; simpl.
  - now rewrite append_empty_r.
  - destruct (Ascii.eqb c slash) eqn:E.
    + apply (IH EmptyString). reflexivity.
    + rewrite <- append_cons_assoc. apply IH.
      rewrite has_slash_append. simpl. now rewrite Hpre, E.
Qed.

Lemma basename_no_slash (s : string) : has_slash (basename s) = false.
Proof. apply (after_last_slash_no_slash s EmptyString). reflexivity. Qed.

Lemma after_last_slash_fixed (s cur : string) :
  has_slash s = false -> after_last_slash s cur = cur.
Proof.
  revert cur. induction s as [ | c s IH ]; intros cur H; simpl in *.
  - reflexivity.
  - apply orb_false_elim in H. destruct H as [Hc Hs].
    rewrite Hc. now apply IH.
Qed.

Lemma basename_fixed (s : string) : has_slash s = false -> basename s = s.
Proof. apply after_last_slash_fixed. Qed.

Lemma after_last_slash_append (a b cur : string) :
  has_slash b = false ->
  after_last_slash (a ++ String slash b) cur = b.
Proof.
  intros Hb. revert cur. induction a as [ | c a IH ]; intros cur; simpl.
  - now apply after_last_slash_fixed.
  - destruct (Ascii.eqb c slash); apply IH.
Qed.

Lemma ends_with_slash_split (a : string) :
  ends_with_slash a = true ->
  exists a', a = (a' ++ String slash EmptyString)%string.
Proof.
  induction a as [ | c a IH ]; simpl; [ discriminate | ].
  destruct a as [ | d a ].
  - intros E. apply Ascii.eqb_eq in E. subst c. now exists EmptyString.
  - intros E. destruct (IH E) as [a' Ha']. exists (String c a').
    simpl. now rewrite <- Ha'.
Qed.

Lemma starts_with_slash_has_slash (b : string) :
  has_slash b = false -> starts_with_slash b = false.
Proof.
  destruct b as [ | c b ]; simpl; [ reflexivity | ].
  intros H. now apply orb_false_elim in H.
Qed.

Lemma basename_path_join (a b : string) :
  has_slash b = false -> basename (path_join a b) = b.
Proof.
  intros Hb. unfold path_join. rewrite starts_with_slash_has_slash by exact Hb.
  destruct a as [ | c a ]; [ now apply basename_fixed | ].
  destruct (ends_with_slash (String c a)) eqn:E.
  - apply ends_with_slash_split in E. destruct E as [a' ->].
    rewrite append_cons_assoc. now apply after_last_slash_append.
  - now apply after_last_slash_append.
Qed.

(** X13.  The base name of a path has no slash, taking it twice changes
    nothing, and joining a directory with a name that has no slash gives a
    path whose base name is that name. *)
Theorem basename_laws (a s : string) :
  has_slash (basename s) = false /\
  basename (basename s) = basename s /\
  basename (path_join a (basename s)) = basename s.
Proof.
  split; [ apply basename_no_slash | ].
  split; [ apply basename_fixed, basename_no_slash | ].
  apply basename_path_join, basename_no_slash.
Qed.

Lemma first_existing_cases (path_exists : string -> bool)
      (c1 c2 default : string) :
  first_existing path_exists [c1; c2] default
  = if path_exists c1 then c1 else if path_exists c2 then c2 else default.
Proof.
  unfold first_existing. simpl.
  destruct (path_exists c1); [ reflexivity | ].
  now destruct (path_exists c2).
Qed.

(** X14.  The thumbnail and the original of an image: the path returned is
    a file named as the image, in thumbs (originals) under the data
    directory or under its data subdirectory; it exists whenever one of the
    two candidates does, and it is the candidate under the data directory
    when none does. *)
Theorem resolved_paths (path_exists : string -> bool) (data_dir filename : string) :
  let thumb := get_thumbnail_path path_exists data_dir filename in
  let original := get_original_path path_exists data_dir filename in
  let candidates sub :=
    [ path_join (path_join data_dir sub) (basename filename);
      path_join (path_join (path_join data_dir "data") sub) (basename filename) ] in
  (basename thumb = basename filename /\ In thumb (candidates "thumbs"%string) /\
   (existsb path_exists (candidates "thumbs"%string) = true ->
    path_exists thumb = true) /\
   (existsb path_exists (candidates "thumbs"%string) = false ->
    thumb = path_join (path_join data_dir "thumbs") (basename filename))) /\
  (basename original = basename filename /\
   In original (candidates "originals"%string) /\
   (existsb path_exists (candidates "originals"%string) = true ->
    path_exists original = true) /\
   (existsb path_exists (candidates "originals"%string) = false ->
    original = path_join (path_join data_dir "originals") (basename filename))).
Proof.
  intros thumb original candidates.
  assert (H : forall sub,
    let p := first_existing path_exists (candidates sub)
               (path_join (path_join data_dir sub) (basename filename)) in
    basename p = basename filename /\ In p (candidates sub) /\
    (existsb path_exists (candidates sub) = true -> path_exists p = true) /\
    (existsb path_exists (candidates sub) = false ->
     p = path_join (path_join data_dir sub) (basename filename))).
  { intros sub p. subst p. unfold candidates. rewrite first_existing_cases.
    simpl existsb. simpl In.
    destruct (path_exists (path_join (path_join data_dir sub) (basename filename)))
      eqn:E1;
      [ | destruct (path_exists
                      (path_join (path_join (path_join data_dir "data") sub)
                                 (basename filename))) eqn:E2 ];
      (split; [ apply basename_path_join, basename_no_slash | ]);
      (split; [ tauto | ]); simpl; split; intros; congruence. }
  split; [ exact (H "thumbs"%string) | exact (H "originals"%string) ].
Qed.

(** ** The loaders *)

(** X15.  [get_layout_path] never returns a path that does not exist: a
    path it returns exists and is one of the candidates in the layouts
    directory it found; it returns None when neither layouts directory
    exists; and when the compressed layout of the plot exists in the
    layouts directory under the data directory, that is the path returned. *)
Theorem layout_path_found (path_exists : string -> bool)
        (glob : string -> list string) (data_dir plot_id layout_name : string) :
  let layout_dir := path_join data_dir "layouts" in
  let layout_dir_alt := path_join (path_join data_dir "data") "layouts" in
  let result := get_layout_path path_exists glob data_dir plot_id layout_name in
  (forall p, result = Some p ->
     path_exists p = true /\
     ((path_exists layout_dir = true /\
       In p (layout_candidates glob layout_dir plot_id layout_name)) \/
      (path_exists layout_dir = false /\ path_exists layout_dir_alt = true /\
       In p (layout_candidates glob layout_dir_alt plot_id layout_name)))) /\
  (path_exists layout_dir = false -> path_exists layout_dir_alt = false ->
   result = None) /\
  (path_exists layout_dir = true ->
   path_exists (path_join layout_dir (layout_name ++ "-" ++ plot_id ++ ".json.gz")%string)
   = true ->
   result = Some (path_join layout_dir (layout_name ++ "-" ++ plot_id ++ ".json.gz")%string)).
Proof.
  intros layout_dir layout_dir_alt result. subst result.
  unfold get_layout_path. fold layout_dir layout_dir_alt.
  split; [ | split ].
  - intros p Hp.
    destruct (path_exists layout_dir) eqn:E1;
      [ | destruct (path_exists layout_dir_alt) eqn:E2; [ | discriminate ] ];
      apply find_some in Hp; destruct Hp as [Hin Hex];
      (split; [ exact Hex | ]); [ left | right ]; tauto.
  - intros E1 E2. now rewrite E1, E2.
  - intros E1 Egz. rewrite E1. unfold layout_candidates. cbn [app find].
    now rewrite Egz.
Qed.

Lemma layout_path_found_witness :
  let path_exists p :=
    (String.eqb p "out/layouts" || String.eqb p "out/layouts/umap-7.json.gz")%bool in
  get_layout_path path_exists (fun _ => []) "out" "7" "umap"
  = Some "out/layouts/umap-7.json.gz"%string.
Proof.
  intros path_exists.
  apply (proj2 (proj2 (@layout_path_found path_exists (fun _ => [])
                         "out"%string "7"%string "umap"%string)));
    reflexivity.
Defined.

Lemma NoDup_keys_dict_set {V : Type} (d : dict V) (k : string) (v : V) :
  NoDup (dict_keys d) -> NoDup (dict_keys (dict_set d k v)).
Proof.
  induction d as [ | [k' v'] d IH ]; simpl; intros H.
  - repeat constructor. intros [].
  - inversion H as [ | ? ? Hout H' ]; subst.
    destruct (String.eqb_spec k' k) as [ -> | Hne ]; simpl.
    + now constructor.
    + constructor; [ | now apply IH ].
      rewrite In_keys_dict_set. intros [ Hin | E ]; [ contradiction | congruence ].
Qed.

Section LoadMetadata.

Variable A : Arith.
Variable path_exists : string -> bool.
Variable read_metadata_file : string -> option (dict (value A)).
Variable metadata_dir : string.

Abbreviation entry := (metadata_entry path_exists read_metadata_file metadata_dir).

(** The loop of [load_metadata], run on a dictionary. *)
Abbreviation load_loop :=
  (fold_left (fun metadata filename =>
                dict_set metadata (basename filename) (entry filename))).

Lemma metadata_entry_by_basename (f g : string) :
  basename f = basename g -> entry f = entry g.
Proof. unfold metadata_entry. now intros ->. Qed.

Lemma load_loop_keys (image_filenames : list string)
      (metadata : dict (dict (value A))) :
  NoDup (dict_keys metadata) ->
  NoDup (dict_keys (load_loop image_filenames metadata)) /\
  forall id, In id (dict_keys (load_loop image_filenames metadata))
             <-> In id (dict_keys metadata) \/ In id (map basename image_filenames).
Proof.
  revert metadata. induction image_filenames as [ | f fs IH ]; intros metadata Hnd.
  - simpl. split; [ exact Hnd | intros id; tauto ].
  - simpl. destruct (IH (dict_set metadata (basename f) (entry f))
                        (NoDup_keys_dict_set _ _ _ Hnd)) as [IH1 IH2].
    split; [ exact IH1 | ].
    intros id. rewrite IH2, In_keys_dict_set. intuition congruence.
Qed.

Lemma load_loop_get (image_filenames : list string)
      (metadata : dict (dict (value A))) (f : string) :
  In f image_filenames ->
  dict_get (load_loop image_filenames metadata) (basename f) = Some (entry f).
Proof.
  revert metadata. induction image_filenames as [ | g gs IH ]; intros metadata Hin.
  - destruct Hin.
  - simpl. destruct (in_dec string_dec f gs) as [ Hgs | Hgs ]; [ now apply IH | ].
    destruct Hin as [ -> | Hin ]; [ | contradiction ].
    clear IH. revert metadata.
    assert (G : forall fs m,
               dict_get m (basename f) = Some (entry f) ->
               dict_get (load_loop fs m) (basename f) = Some (entry f)).
    { induction fs as [ | h hs IHh ]; intros m Hm; simpl; [ exact Hm | ].
      apply IHh. destruct (string_dec (basename h) (basename f)) as [ E | Hne ].
      - rewrite E, dict_get_set_same. f_equal. now apply metadata_entry_by_basename.
      - now rewrite dict_get_set_other. }
    intros metadata. apply G, dict_get_set_same.
Qed.

End LoadMetadata.

(** X16.  [load_metadata] gives every image an entry and fails on none:
    without a metadata directory the result is empty; with one, the keys
    are the base names of the images, each once, and the entry of an image
    is the object of its metadata file, or the empty object when that file
    is missing or cannot be read. *)
Theorem metadata_for_every_image (A : Arith) (path_exists : string -> bool)
        (read_metadata_file : string -> option (dict (value A)))
        (data_dir : string) (image_filenames : list string) :
  let metadata := load_metadata path_exists read_metadata_file data_dir image_filenames in
  match find path_exists (metadata_dirs data_dir) with
  | None => metadata = []
  | Some metadata_dir =>
      NoDup (dict_keys metadata) /\
      (forall id, In id (dict_keys metadata) <-> In id (map basename image_filenames)) /\
      (forall f, In f image_filenames ->
         let metadata_path := path_join metadata_dir (basename f ++ ".json")%string in
         dict_get metadata (basename f)
         = Some (if path_exists metadata_path
                 then match read_metadata_file metadata_path with
                      | Some object => object
                      | None => []
                      end
                 else []))
  end.
Proof.
  intros metadata. subst metadata. unfold load_metadata.
  destruct (find path_exists (metadata_dirs data_dir)) as [ metadata_dir | ];
    [ | reflexivity ].
  destruct (@load_loop_keys A path_exists read_metadata_file metadata_dir
              image_filenames [] (NoDup_nil _)) as [Hnd Hkeys].
  split; [ exact Hnd | ]. split.
  - intros id. rewrite Hkeys. simpl. tauto.
  - intros f Hf. now apply load_loop_get.
Qed.

Lemma missing_file_empty_entry (A : Arith) (path_exists : string -> bool)
      (read_metadata_file : string -> option (dict (value A)))
      (data_dir : string) (image_filenames : list string)
      (id : string) (md : dict (value A)) :
  Forall (fun metadata_dir =>
            path_exists (path_join metadata_dir (id ++ ".json")%string) = false)
         (metadata_dirs data_dir) ->
  dict_get (load_metadata path_exists read_metadata_file data_dir image_filenames) id
  = Some md ->
  md = [].
Proof.
  intros Hmissing Hget. unfold load_metadata in Hget.
  destruct (find path_exists (metadata_dirs data_dir)) as [ metadata_dir | ] eqn:Ef;
    [ | discriminate ].
  apply find_some in Ef. destruct Ef as [Hdir _].
  rewrite Forall_forall in Hmissing. specialize (Hmissing metadata_dir Hdir).
  destruct (@load_loop_keys A path_exists read_metadata_file metadata_dir
              image_filenames [] (NoDup_nil _)) as [_ Hkeys].
  assert (Hin : In id (map basename image_filenames)).
  { destruct (proj1 (Hkeys id)) as [ [] | H ]; [ | exact H ].
    eapply dict_get_Some_key. exact Hget. }
  apply in_map_iff in Hin. destruct Hin as (f & <- & Hf).
  rewrite (@load_loop_get A path_exists read_metadata_file metadata_dir
             image_filenames [] f Hf) in Hget.
  injection Hget as <-. unfold metadata_entry. now rewrite Hmissing.
Qed.

(** X17.  An image without a readable metadata file gets no metadata
    column: when the nodes are built with the metadata that
    [load_metadata] returns, the record of an identifier whose metadata
    file is missing is the seeded record (id, x, y, and the two paths when
    thumbnails are asked for), with the coordinates of its first
    occurrence. *)
Theorem node_without_metadata_file (A : Arith) (path_exists : string -> bool)
        (read_metadata_file : string -> option (dict (value A)))
        (data_dir : string) (include_thumbs : bool)
        (image_filenames : list string) (network_data : list (edge A))
        (id : string) (x y : fnum A) :
  let metadata := load_metadata path_exists read_metadata_file data_dir image_filenames in
  first_occurrence network_data id = Some (x, y) ->
  Forall (fun metadata_dir =>
            path_exists (path_join metadata_dir (id ++ ".json")%string) = false)
         (metadata_dirs data_dir) ->
  dict_get (build_nodes path_exists metadata data_dir include_thumbs network_data) id
  = Some (new_node A path_exists data_dir include_thumbs id x y).
Proof.
  intros metadata Hfirst Hmissing. rewrite build_nodes_get, Hfirst.
  cbn [option_map fst snd]. f_equal.
  destruct (dict_get metadata id) as [ md | ] eqn:E; [ | reflexivity ].
  assert (Hmd : md = []); [ | now subst md ].
  eapply missing_file_empty_entry; [ exact Hmissing | exact E ].
Qed.

Lemma node_without_metadata_file_witness :
  let path_exists p :=
    (String.eqb p "out/metadata/file" || String.eqb p "out/metadata/file/b.jpg.json")%bool in
  let read_metadata_file (p : string) :=
    Some [("year", @VInt float64 1900)]%string in
  let metadata := load_metadata path_exists read_metadata_file "out"
                                ["a.jpg"; "b.jpg"]%string in
  dict_get (build_nodes path_exists metadata "out" false [one_edge]) "a.jpg"
  = Some (new_node float64 path_exists "out" false "a.jpg" 0%float 0%float).
Proof.
  intros path_exists read_metadata_file metadata.
  apply (@node_without_metadata_file float64 path_exists read_metadata_file
           "out"%string false ["a.jpg"; "b.jpg"]%string [one_edge]
           "a.jpg"%string 0%float 0%float).
  - reflexivity.
  - repeat constructor.
Defined.

(** ** From the edges to the files *)

Lemma In_expected_edges_intro (A : Arith) (argsort : list (fnum A) -> list nat)
      (positions : list (point A)) (image_filenames : list string) (k : Z)
      (i j n : nat) :
  let positions' := common_positions positions image_filenames in
  let image_filenames' := common_filenames positions image_filenames in
  i < length image_filenames' ->
  nth_error (nth i (neighbor_lists argsort positions' k) []) j = Some n ->
  In (edge_of positions' image_filenames' i j n)
     (expected_edges argsort positions image_filenames k).
Proof.
  intros positions' image_filenames' Hi Hn. unfold expected_edges.
  fold positions' image_filenames'. apply in_concat.
  exists (block_of positions' image_filenames'
                   (neighbor_lists argsort positions' k) i).
  split.
  - unfold blocks_of. apply in_map, in_seq. lia.
  - apply (nth_error_In _ j). unfold block_of.
    rewrite nth_error_map_enumerate, Hn. reflexivity.
Qed.

Lemma first_occurrence_In (A : Arith) (network_data : list (edge A))
      (id : string) (x y : fnum A) :
  first_occurrence network_data id = Some (x, y) ->
  exists e, In e network_data /\
            ((source e = id /\ x = source_x e /\ y = source_y e) \/
             (target e = id /\ x = target_x e /\ y = target_y e)).
Proof.
  induction network_data as [ | r rest IH ]; simpl; [ discriminate | ].
  destruct (String.eqb_spec (source r) id) as [ Hs | Hs ].
  { intros E. injection E as <- <-. exists r. split; [ now left | left; auto ]. }
  destruct (String.eqb_spec (target r) id) as [ Ht | Ht ].
  { intros E. injection E as <- <-. exists r. split; [ now left | right; auto ]. }
  intros E. destruct (IH E) as (e & He & H). exists e. split; [ now right | exact H ].
Qed.

(** X18.  One node per image, at the image's place: for k >= 1,
    two-dimensional points with finite differences, at least two images in
    the common prefix and pairwise distinct base names, the nodes built
    from the edges of a run are exactly the base names of the images of the
    prefix, one node each, and unless the metadata of an image has a field
    named x or y its node carries the coordinates of that image. *)
Theorem one_node_per_image (A : Arith) (argsort : list (fnum A) -> list nat)
        (path_exists : string -> bool) (metadata : dict (dict (value A)))
        (data_dir : string) (include_thumbs : bool)
        (positions : list (point A)) (image_filenames : list string) (k : Z) :
  argsort_permutes A argsort ->
  Forall is_2d positions ->
  (1 <= k)%Z ->
  let positions' := common_positions positions image_filenames in
  let image_filenames' := common_filenames positions image_filenames in
  2 <= length image_filenames' ->
  differences_finite positions' = true ->
  NoDup (map basename image_filenames') ->
  exists edges,
    snd (extract_network_data argsort positions image_filenames k)
    = Ok (Some edges) /\
    let nodes := build_nodes path_exists metadata data_dir include_thumbs edges in
    (forall id, In id (dict_keys nodes) <-> In id (map basename image_filenames')) /\
    length (dict_keys nodes) = length image_filenames' /\
    forall i, i < length image_filenames' ->
      let id := basename (nth i image_filenames' ""%string) in
      exists node,
        dict_get nodes id = Some node /\
        (no_field metadata id "x" ->
         dict_get node "x" = Some (VNum (coord (nth i positions' []) 0))) /\
        (no_field metadata id "y" ->
         dict_get node "y" = Some (VNum (coord (nth i positions' []) 1))).
Proof.
  intros Hperm H2d Hk positions' image_filenames' Hm Hfinite Hnd.
  set (edges := expected_edges argsort positions image_filenames k).
  assert (Hm' : 2 <= min_count positions image_filenames).
  { unfold image_filenames' in Hm. now rewrite length_common_filenames in Hm. }
  exists edges. split.
  { apply extract_ok; try assumption.
    - intros E. rewrite E in Hm'. unfold min_count in Hm'. simpl in Hm'. lia.
    - intros E. rewrite E in Hm'. unfold min_count in Hm'. simpl in Hm'. lia. }
  intros nodes.
  assert (Lf : length image_filenames' = length positions').
  { unfold image_filenames', positions'.
    now rewrite length_common_filenames, length_common_positions. }
  assert (Hsame : forall i n, i < length image_filenames' ->
             n < length image_filenames' ->
             basename (nth i image_filenames' ""%string)
             = basename (nth n image_filenames' ""%string) -> i = n).
  { intros i n Hi Hn E.
    rewrite (NoDup_nth (map basename image_filenames') ""%string) in Hnd.
    apply Hnd; [ now rewrite length_map | now rewrite length_map | ].
    change ""%string with (basename ""%string). now rewrite !map_nth. }
  assert (Hfrom : forall e, In e edges ->
             exists i j n, i < length image_filenames' /\
                           n < length image_filenames' /\
                           e = edge_of positions' image_filenames' i j n).
  { intros e He. apply In_expected_edges in He; [ | exact Hperm ].
    destruct He as (i & j & n & Hi & Hn & _ & ->).
    fold positions' image_filenames' in Hi, Hn |- *.
    exists i, j, n. repeat split; lia. }
  assert (Hsrc : forall i, i < length image_filenames' ->
             exists n, In (edge_of positions' image_filenames' i 0 n) edges).
  { intros i Hi.
    assert (Hlen : 1 <= length (nth i (neighbor_lists argsort positions' k) [])).
    { rewrite nth_neighbor_lists by lia.
      apply Nat2Z.inj_le. rewrite length_py_slice_from_1 by lia.
      rewrite (length_argsort_row Hperm). lia. }
    destruct (nth i (neighbor_lists argsort positions' k) [])
      as [ | n rest ] eqn:E; [ simpl in Hlen; lia | ].
    exists n. apply In_expected_edges_intro; [ exact Hi | ].
    fold positions'. now rewrite E. }
  assert (Hkeys : forall id, In id (dict_keys nodes)
                             <-> In id (map basename image_filenames')).
  { intros id. unfold nodes. rewrite In_keys_build_nodes. split.
    - intros (e & He & Hid). destruct (Hfrom e He) as (i & j & n & Hi & Hn & ->).
      simpl in Hid. destruct Hid as [ <- | <- ]; apply in_map, nth_In; assumption.
    - intros Hin. apply in_map_iff in Hin. destruct Hin as (f & <- & Hf).
      apply (In_nth _ _ ""%string) in Hf. destruct Hf as (i & Hi & <-).
      destruct (Hsrc i Hi) as [n Hn].
      eexists. split; [ exact Hn | now left ]. }
  split; [ exact Hkeys | ]. split.
  - rewrite <- (length_map basename image_filenames').
    apply Permutation_length, NoDup_Permutation;
      [ apply NoDup_keys_build_nodes | exact Hnd | exact Hkeys ].
  - intros i Hi id.
    assert (Hocc : occurs edges id).
    { destruct (Hsrc i Hi) as [n Hn]. eexists. split; [ exact Hn | now left ]. }
    apply first_occurrence_occurs in Hocc. destruct Hocc as ([x y] & Hfirst).
    assert (Hxy : x = coord (nth i positions' []) 0 /\
                  y = coord (nth i positions' []) 1).
    { apply first_occurrence_In in Hfirst.
      destruct Hfirst as (e & He & Hcase).
      destruct (Hfrom e He) as (i' & j & n & Hi' & Hn & ->). simpl in Hcase.
      destruct Hcase as [ (E & -> & ->) | (E & -> & ->) ].
      - apply Hsame in E; [ now subst i' | assumption | assumption ].
      - apply Hsame in E; [ now subst n | assumption | assumption ]. }
    destruct Hxy as [-> ->].
    unfold nodes. rewrite build_nodes_get, Hfirst. cbn [option_map fst snd].
    eexists. split; [ reflexivity | ].
    pose proof (@new_node_fields A path_exists data_dir include_thumbs id
                  (coord (nth i positions' []) 0) (coord (nth i positions' []) 1))
      as (_ & Fx & Fy).
    unfold no_field.
    destruct (dict_get metadata id) as [ md | ].
    + split; intros H; rewrite dict_get_merge_metadata by (now apply H); assumption.
    + split; intros _; assumption.
Qed.

Lemma one_node_per_image_witness :
  exists edges,
    snd (extract_network_data argsort_stable64 four_points four_names 2)
    = Ok (Some edges) /\
    length (dict_keys (build_nodes (fun _ => false) [] "out" false edges)) = 4.
Proof.
  destruct (@one_node_per_image float64 argsort_stable64 (fun _ => false) []
              "out"%string false four_points four_names 2%Z
              argsort_stable64_permutes) as (edges & Hok & _ & Hlen & _).
  - repeat constructor.
  - lia.
  - simpl. lia.
  - reflexivity.
  - simpl. repeat constructor; simpl; intuition discriminate.
  - exists edges. split; [ exact Hok | exact Hlen ].
Defined.

(** X19.  What [main] writes for a list of edges that is not empty: two
    tables, the edges with the columns of [edge_columns] and one record
    per edge, and the nodes with one record per identifier of the edge
    list, in the order of first appearance. *)
Theorem both_tables_written (A : Arith) (set_order : list string -> list string)
        (path_exists : string -> bool) (metadata : dict (dict (value A)))
        (data_dir : string) (include_thumbs : bool) (edges : list (edge A)) :
  set_order_ok set_order ->
  edges <> [] ->
  exists edges_file nodes_file,
    export_tables set_order path_exists metadata data_dir include_thumbs edges
    = [edges_file; nodes_file] /\
    header edges_file = edge_columns /\
    length (records edges_file) = length edges /\
    header nodes_file
    = node_fieldnames set_order
        (build_nodes path_exists metadata data_dir include_thumbs edges) /\
    length (records nodes_file)
    = length (first_appearances [] (endpoints edges)).
Proof.
  intros Hset Hne.
  pose proof (edge_fieldnames_of_edges Hset Hne) as Hf.
  pose proof (dict_keys_collect_from path_exists data_dir include_thumbs
                edges []) as Hkeys.
  unfold export_tables, write_csv, create_node_csv.
  destruct edges as [ | e rest ]; [ contradiction | ].
  cbn [map]. cbv beta iota.
  do 2 eexists. split; [ reflexivity | ].
  split; [ exact Hf | ].
  split; [ cbn [records dict_writer]; rewrite length_map; simpl; now rewrite length_map | ].
  split; [ reflexivity | ].
  cbn [records dict_writer]. unfold dict_values. rewrite !length_map.
  unfold build_nodes, collect_nodes.
  rewrite <- (length_map fst
                (add_metadata metadata
                   (collect_from path_exists data_dir include_thumbs [] (e :: rest)))).
  fold (dict_keys (add_metadata metadata
          (collect_from path_exists data_dir include_thumbs [] (e :: rest)))).
  rewrite dict_keys_add_metadata, Hkeys. reflexivity.
Qed.

Lemma both_tables_written_witness :
  exists edges_file nodes_file,
    export_tables insertion_order (fun _ => false) [] "out" false
                  [one_edge; one_edge]
    = [edges_file; nodes_file] /\
    length (records edges_file) = 2 /\
    length (records nodes_file)
    = length (first_appearances [] (endpoints [one_edge; one_edge])).
Proof.
  destruct (@both_tables_written float64 insertion_order (fun _ => false) []
              "out"%string false [one_edge; one_edge] insertion_order_ok)
    as (edges_file & nodes_file & Hw & _ & He & _ & Hn).
  - discriminate.
  - exists edges_file, nodes_file. repeat split; assumption.
Defined.
